(** * Symbolic integrators (fem/symbolicintegrator.cpp)

    A shallow embedding of the proxy evaluation protocol and of the three
    symbolic integrators (linear form, bilinear form with its volume and
    element-boundary paths, energy with value, gradient and Hessian), and
    the properties of the element matrices and vectors they assemble.

    Numbers: [double] is read as a real number (exact arithmetic); rounding
    is outside this development.  Buffers: a [FlatVector]/[FlatMatrix] is a
    shape together with an indexing function; scratch buffers taken from the
    [LocalHeap] are plain indexing functions, and the heap itself carries no
    value and is left out.  Pointers to [ProxyFunction] objects are
    addresses into a store of proxy objects. *)

From Stdlib Require Import String DecimalString Reals Lra Lia List Arith Bool.
Import ListNotations.

Set Implicit Arguments.
Local Open Scope R_scope.

(** ** ngstd: exceptions, ranges, counted loops *)

Inductive Exceptional (A : Type) : Type :=
| Return (a : A)
| Throw (what : string).
Arguments Return {A} a.
Arguments Throw {A} what.

(** [ToString] of an int *)
Definition ToString (n : nat) : string := NilEmpty.string_of_uint (Nat.to_uint n).

Record IntRange := { First : nat; Next : nat }.

Definition in_range (r : IntRange) (i : nat) : bool :=
  (First r <=? i)%nat && (i <? Next r)%nat.

(** [n * IntRange(j, j+1)] *)
Definition scale_range (n : nat) (r : IntRange) : IntRange :=
  {| First := n * First r; Next := n * Next r |}.

(** [for (int i = 0; i < n; i++) body]: the body runs for i = 0, ..., n-1
    in this order on the threaded state. *)
Fixpoint for_ {S : Type} (n : nat) (body : nat -> S -> S) (s : S) : S :=
  match n with
  | O => s
  | Datatypes.S m => body m (for_ m body s)
  end.

(** [for (auto x : xs) body] *)
Definition for_each {A S : Type} (xs : list A) (body : A -> S -> S) (s : S) : S :=
  fold_left (fun st x => body x st) xs s.

(** ** ngbla: vectors, matrices, tensors *)

Definition Vec := nat -> R.
Definition Mat := nat -> nat -> R.
Definition Tensor3 := nat -> nat -> nat -> R.

Record FlatVector := { Size : nat; vdata :> nat -> R }.
Record FlatMatrix := { Height : nat; Width : nat; mdata :> nat -> nat -> R }.

(** sum of [f 0 .. f (n-1)], the inner loop of every product *)
Fixpoint sum_n (n : nat) (f : nat -> R) : R :=
  match n with
  | O => 0
  | S m => sum_n m f + f m
  end.

(** [v = 0] and [m = 0]: every entry of the buffer, the shape is kept *)
Definition vzero (v : FlatVector) : FlatVector :=
  {| Size := Size v; vdata := fun _ => 0 |}.
Definition mzero (m : FlatMatrix) : FlatMatrix :=
  {| Height := Height m; Width := Width m; mdata := fun _ _ => 0 |}.

(** [v += w] *)
Definition vadd (v : FlatVector) (w : Vec) : FlatVector :=
  {| Size := Size v;
     vdata := fun i => if (i <? Size v)%nat then v i + w i else v i |}.

(** [m += p] *)
Definition madd (m : FlatMatrix) (p : Mat) : FlatMatrix :=
  {| Height := Height m; Width := Width m;
     mdata := fun i j =>
       if (i <? Height m)%nat && (j <? Width m)%nat then m i j + p i j else m i j |}.

(** [m.Rows(rr).Cols(rc) += p], [p] indexed from the corner of the block *)
Definition madd_sub (m : FlatMatrix) (rr rc : IntRange) (p : Mat) : FlatMatrix :=
  {| Height := Height m; Width := Width m;
     mdata := fun i j =>
       if in_range rr i && in_range rc j
       then m i j + p (i - First rr)%nat (j - First rc)%nat else m i j |}.

(** [v(i) = x] *)
Definition vset (v : Vec) (i : nat) (x : R) : Vec :=
  fun j => if (j =? i)%nat then x else v j.

(** [m.Col(c) = x] *)
Definition set_col (m : Mat) (c : nat) (x : R) : Mat :=
  fun i j => if (j =? c)%nat then x else m i j.

(** [m.Col(c) = v] *)
Definition assign_col (m : Mat) (c : nat) (v : Vec) : Mat :=
  fun i j => if (j =? c)%nat then v i else m i j.

(** [m.Col(0)] *)
Definition Col (m : Mat) (c : nat) : Vec := fun i => m i c.

(** [m.Rows(r) = src] *)
Definition assign_rows (m : Mat) (r : IntRange) (src : Mat) : Mat :=
  fun t c => if in_range r t then src (t - First r)%nat c else m t c.

(** [m.Cols(r)] *)
Definition Cols (m : Mat) (r : IntRange) : Mat :=
  fun t c => m t (First r + c)%nat.

(** [a * b] with inner dimension [n] *)
Definition mat_mult (n : nat) (a b : Mat) : Mat :=
  fun i j => sum_n n (fun k => a i k * b k j).

(** [Trans (a)] *)
Definition Trans (a : Mat) : Mat := fun i j => a j i.

(** [t(STAR,l,k) = v] *)
Definition assign_slice (t : Tensor3) (l k : nat) (v : Vec) : Tensor3 :=
  fun i l' k' => if (l' =? l)%nat && (k' =? k)%nat then v i else t i l' k'.

(** [t(i,STAR,STAR) *= w] *)
Definition scale_point (t : Tensor3) (i : nat) (w : R) : Tensor3 :=
  fun i' l k => if (i' =? i)%nat then t i' l k * w else t i' l k.

(** [t(i,STAR,STAR)] *)
Definition at_point (t : Tensor3) (i : nat) : Mat := t i.

(** [L2Norm] of a [Vec<D>] *)
Definition L2Norm (D : nat) (v : Vec) : R := sqrt (sum_n D (fun j => v j * v j)).

(** ** fem: the collaborators of the integrators *)

Record FiniteElement := { GetNDof : nat; Order : nat }.

(** A mapped integration point: what the integrators and the expression
    tree read from it. *)
Record BaseMappedIntegrationPoint := {
  ip_nr : nat;
  GetWeight : R;
  GetMeasure : R;
  GetJacobianInverse : Mat;
  GetNV : Vec
}.

(** [mip.SetNV (normal)] *)
Definition SetNV (mip : BaseMappedIntegrationPoint) (nv : Vec) : BaseMappedIntegrationPoint :=
  {| ip_nr := ip_nr mip; GetWeight := GetWeight mip; GetMeasure := GetMeasure mip;
     GetJacobianInverse := GetJacobianInverse mip; GetNV := nv |}.

(** A mapped rule: [mir.Size()] and [mir[i]]. *)
Record BaseMappedIntegrationRule := {
  mir_Size : nat;
  mir_at : nat -> BaseMappedIntegrationPoint
}.

(** The differential operator bound to a proxy.  [CalcMatrix] fills a
    Dim x ndof basis matrix; [Apply] maps a dof vector to values at one
    point, [ApplyIR] at all points of a rule (one row per point);
    [ApplyTrans] maps values at all points back to a dof vector. *)
Record DifferentialOperator := {
  Dim : nat;
  BlockDim : nat;
  DiffOrder : nat;
  UsedDofs : FiniteElement -> IntRange;
  CalcMatrix : FiniteElement -> BaseMappedIntegrationPoint -> Mat;
  Apply : FiniteElement -> BaseMappedIntegrationPoint -> FlatVector -> Vec;
  ApplyIR : FiniteElement -> BaseMappedIntegrationRule -> FlatVector -> Mat;
  ApplyTrans : FiniteElement -> BaseMappedIntegrationRule -> Mat -> Vec
}.

(** A [ProxyFunction*]: the address of a proxy object. *)
Definition ProxyPtr := nat.

Module ProxyFunction.
Record t := {
  testfunction : bool;
  evaluator : DifferentialOperator
}.
End ProxyFunction.

(** class ProxyUserData (lines 16-28); the [LocalHeap * lh] member has no
    value content.  A null pointer is [None]; the members the class
    leaves uninitialised are only read behind a non-null pointer. *)
Module ProxyUserData.
Record t := {
  testfunction : option ProxyPtr;
  test_comp : nat;
  trialfunction : option ProxyPtr;
  trial_comp : nat;
  fel : option FiniteElement;
  elx : FlatVector;
  remember : list (ProxyPtr * Mat)
}.

(** [ProxyUserData ud;] *)
Definition fresh : t :=
  {| testfunction := None; test_comp := 0;
     trialfunction := None; trial_comp := 0;
     fel := None; elx := {| Size := 0; vdata := fun _ => 0 |};
     remember := [] |}.

(** [ud.testfunction = p; ud.test_comp = l;] *)
Definition set_test (ud : t) (p : ProxyPtr) (l : nat) : t :=
  {| testfunction := Some p; test_comp := l;
     trialfunction := trialfunction ud; trial_comp := trial_comp ud;
     fel := fel ud; elx := elx ud; remember := remember ud |}.

(** [ud.trialfunction = p; ud.trial_comp = k;] *)
Definition set_trial (ud : t) (p : ProxyPtr) (k : nat) : t :=
  {| testfunction := testfunction ud; test_comp := test_comp ud;
     trialfunction := Some p; trial_comp := k;
     fel := fel ud; elx := elx ud; remember := remember ud |}.

(** [ud.fel = &fel; ud.elx = &elx; ud.lh = &lh;] *)
Definition pin (ud : t) (e : FiniteElement) (x : FlatVector) : t :=
  {| testfunction := testfunction ud; test_comp := test_comp ud;
     trialfunction := trialfunction ud; trial_comp := trial_comp ud;
     fel := Some e; elx := x; remember := remember ud |}.

(** [ud.remember[p] = m] *)
Definition set_remember (ud : t) (p : ProxyPtr) (m : Mat) : t :=
  {| testfunction := testfunction ud; test_comp := test_comp ud;
     trialfunction := trialfunction ud; trial_comp := trial_comp ud;
     fel := fel ud; elx := elx ud;
     remember := (p, m) :: filter (fun e => negb (fst e =? p)%nat) (remember ud) |}.

(** [ud.remember.count(p)] and [ud.remember[p]] in one lookup *)
Definition lookup (ud : t) (p : ProxyPtr) : option Mat :=
  option_map snd (find (fun e => (fst e =? p)%nat) (remember ud)).
End ProxyUserData.

(** [ud->testfunction == this] *)
Definition ptr_is (q : option ProxyPtr) (this : ProxyPtr) : bool :=
  match q with
  | Some p => (p =? this)%nat
  | None => false
  end.

(** ** ProxyFunction (lines 30-142) *)

Section Proxy.

(** the proxy objects of the expression tree, by address *)
Variable store : ProxyPtr -> ProxyFunction.t.

Definition Evaluator (this : ProxyPtr) : DifferentialOperator :=
  ProxyFunction.evaluator (store this).

Definition IsTestFunction (this : ProxyPtr) : bool :=
  ProxyFunction.testfunction (store this).

(** [proxy->Dimension()]: the component count of the bound operator *)
Definition Dimension (this : ProxyPtr) : nat := Dim (Evaluator this).

(** ProxyFunction::Dimensions (lines 30-49) *)
Definition Dimensions (this : ProxyPtr) : list nat :=
  let dim := Dim (Evaluator this) in
  let blockdim := BlockDim (Evaluator this) in
  if (blockdim =? 1)%nat then [dim] else [(dim / blockdim)%nat; blockdim].

(** ProxyFunction::Evaluate, lines 60-78: the body behind the null check *)
Definition Evaluate_ud (this : ProxyPtr) (ud : ProxyUserData.t)
           (mip : BaseMappedIntegrationPoint) : Vec :=
  match negb (IsTestFunction this), ProxyUserData.fel ud with
  | true, Some fel => Apply (Evaluator this) fel mip (ProxyUserData.elx ud)
  | _, _ =>
    let result : Vec := fun _ => 0 in
    let result :=
      if ptr_is (ProxyUserData.testfunction ud) this
      then vset result (ProxyUserData.test_comp ud) 1 else result in
    let result :=
      if ptr_is (ProxyUserData.trialfunction ud) this
      then vset result (ProxyUserData.trial_comp ud) 1 else result in
    result
  end.

(** ProxyFunction::Evaluate (lines 52-79); [userdata] is the pointer
    found in [mip.GetTransformation().userdata]. *)
Definition Evaluate (this : ProxyPtr) (userdata : option ProxyUserData.t)
           (mip : BaseMappedIntegrationPoint) : Exceptional Vec :=
  match userdata with
  | None => Throw "cannot evaluate ProxyFunction without userdata"
  | Some ud => Return (Evaluate_ud this ud mip)
  end.

(** ProxyFunction::EvaluateDeriv, lines 99-108 *)
Definition EvaluateDeriv_ud (this : ProxyPtr) (ud : ProxyUserData.t)
           (mir : BaseMappedIntegrationRule) : Mat * Mat :=
  let deriv : Mat := fun _ _ => 0 in
  let result : Mat := fun _ _ => 0 in
  let result :=
    match negb (IsTestFunction this), ProxyUserData.fel ud with
    | true, Some fel => ApplyIR (Evaluator this) fel mir (ProxyUserData.elx ud)
    | _, _ => result
    end in
  let result :=
    if ptr_is (ProxyUserData.testfunction ud) this
    then set_col result (ProxyUserData.test_comp ud) 1 else result in
  let deriv :=
    if ptr_is (ProxyUserData.trialfunction ud) this
    then set_col deriv (ProxyUserData.trial_comp ud) 1 else deriv in
  (result, deriv).

(** ProxyFunction::EvaluateDeriv (lines 90-109) *)
Definition EvaluateDeriv (this : ProxyPtr) (userdata : option ProxyUserData.t)
           (mir : BaseMappedIntegrationRule) : Exceptional (Mat * Mat) :=
  match userdata with
  | None => Throw "cannot evaluate ProxyFunction"
  | Some ud => Return (EvaluateDeriv_ud this ud mir)
  end.

(** ProxyFunction::EvaluateDDeriv, lines 126-141 *)
Definition EvaluateDDeriv_ud (this : ProxyPtr) (ud : ProxyUserData.t)
           (mir : BaseMappedIntegrationRule) : Mat * Mat * Mat :=
  let result : Mat := fun _ _ => 0 in
  let deriv : Mat := fun _ _ => 0 in
  let dderiv : Mat := fun _ _ => 0 in
  let result :=
    match negb (IsTestFunction this), ProxyUserData.fel ud with
    | true, Some fel =>
      match ProxyUserData.lookup ud this with
      | Some m => m
      | None => ApplyIR (Evaluator this) fel mir (ProxyUserData.elx ud)
      end
    | _, _ => result
    end in
  let deriv :=
    if ptr_is (ProxyUserData.testfunction ud) this
    then set_col deriv (ProxyUserData.test_comp ud) 1 else deriv in
  let deriv :=
    if ptr_is (ProxyUserData.trialfunction ud) this
    then set_col deriv (ProxyUserData.trial_comp ud) 1 else deriv in
  (result, deriv, dderiv).

(** ProxyFunction::EvaluateDDeriv (lines 112-142) *)
Definition EvaluateDDeriv (this : ProxyPtr) (userdata : option ProxyUserData.t)
           (mir : BaseMappedIntegrationRule) : Exceptional (Mat * Mat * Mat) :=
  match userdata with
  | None => Throw "cannot evaluate ProxyFunction"
  | Some ud => Return (EvaluateDDeriv_ud this ud mir)
  end.

End Proxy.

(** ** The expression tree, as the integrators see it *)

(** A node handed to the visitor of [TraverseTree]: the visitors of this
    file only ask whether the node is a proxy. *)
Inductive NodeRef :=
| ProxyNode (p : ProxyPtr)
| OtherNode.

(** [dynamic_cast<ProxyFunction*> (&nodecf)] *)
Definition dynamic_cast_ProxyFunction (n : NodeRef) : option ProxyPtr :=
  match n with
  | ProxyNode p => Some p
  | OtherNode => None
  end.

(** A CoefficientFunction, through the members the integrators call.
    The integrators attach their [ProxyUserData] to the transformation
    before every evaluation, so the tree is evaluated with the context
    in hand.  [Evaluate] is the single-point overload, [EvaluateIR] the
    overload on a whole rule (one row per point). *)
Record CoefficientFunction := {
  cf_Dimension : nat;
  TraverseTree : list NodeRef;
  cf_Evaluate : ProxyUserData.t -> BaseMappedIntegrationPoint -> Vec;
  cf_EvaluateIR : ProxyUserData.t -> BaseMappedIntegrationRule -> Mat;
  cf_EvaluateDeriv : ProxyUserData.t -> BaseMappedIntegrationRule -> Mat * Mat;
  cf_EvaluateDDeriv : ProxyUserData.t -> BaseMappedIntegrationRule -> Mat * Mat * Mat
}.

(** enum VorB *)
Inductive VorB := VOL | BND.

(** enum ELEMENT_TYPE, by its value *)
Definition ELEMENT_TYPE := nat.

(** The element transformation with the quadrature it is asked for:
    [MapRule order] is [trafo (IntegrationRule (eltype, order), lh)],
    [MapFacetRule k order] is the rule on facet [k] mapped through
    [Facet2ElementTrafo] and [MappedIntegrationRule<D,D>]. *)
Record ElementTransformation := {
  SpaceDim : nat;
  GetElementType : ELEMENT_TYPE;
  MapRule : nat -> BaseMappedIntegrationRule;
  MapFacetRule : nat -> nat -> BaseMappedIntegrationRule
}.

(** [Array::Contains] on proxy pointers *)
Definition Contains (a : list ProxyPtr) (p : ProxyPtr) : bool :=
  existsb (fun q => (q =? p)%nat) a.

(** [Array::Append] *)
Definition Append (a : list ProxyPtr) (p : ProxyPtr) : list ProxyPtr := a ++ [p].

(** [values.Row(i) *= w] *)
Definition scale_row (m : Mat) (i : nat) (w : R) : Mat :=
  fun i' j => if (i' =? i)%nat then m i' j * w else m i' j.

(** the while-shaped loop [for ( ; i+BS <= n; i+=BS) body]; [fuel] bounds
    the number of iterations *)
Fixpoint full_blocks {S : Type} (bs n : nat) (body : nat -> S -> S)
         (fuel i : nat) (s : S) : nat * S :=
  match fuel with
  | O => (i, s)
  | Datatypes.S fuel' =>
    if (i + bs <=? n)%nat
    then full_blocks bs n body fuel' (i + bs)%nat (body i s)
    else (i, s)
  end.

(** [enum { BS = 16 };] *)
Definition BS : nat := 16.

Section Integrators.

Variable store : ProxyPtr -> ProxyFunction.t.

(** ElementTopology::GetNFacets, ElementTopology::GetNormals<D> and the
    weights [ir_facet[i].Weight()] of the facet rule
    [IntegrationRule (GetFacetType (eltype, k), order)] *)
Variable GetNFacets : ELEMENT_TYPE -> nat.
Variable GetNormals : nat -> ELEMENT_TYPE -> nat -> Vec.
Variable FacetWeight : ELEMENT_TYPE -> nat -> nat -> nat -> R.

Local Abbreviation Dimension := (Dimension store).
Local Abbreviation Evaluator := (Evaluator store).
Local Abbreviation IsTestFunction := (IsTestFunction store).

(** *** SymbolicLinearFormIntegrator (lines 146-218) *)

Record SymbolicLinearFormIntegrator := {
  lfi_cf : CoefficientFunction;
  lfi_vb : VorB;
  proxies : list ProxyPtr
}.

(** the visitor of lines 153-158 *)
Definition lfi_visit (nodecf : NodeRef) (proxies : list ProxyPtr) : list ProxyPtr :=
  match dynamic_cast_ProxyFunction nodecf with
  | Some proxy => if negb (Contains proxies proxy) then Append proxies proxy else proxies
  | None => proxies
  end.

Definition mkSymbolicLinearFormIntegrator (acf : CoefficientFunction) (avb : VorB)
  : Exceptional SymbolicLinearFormIntegrator :=
  if negb (cf_Dimension acf =? 1)%nat
  then Throw "SymbolicLFI needs scalar-valued CoefficientFunction"
  else Return {| lfi_cf := acf; lfi_vb := avb;
                 proxies := for_each (TraverseTree acf) lfi_visit [] |}.

(** lines 203-213: one column of [proxyvalues] per component *)
Definition lfi_proxyvalues (cf : CoefficientFunction) (mir : BaseMappedIntegrationRule)
           (proxy : ProxyPtr) (ud : ProxyUserData.t) : ProxyUserData.t * Mat :=
  for_ (Dimension proxy)
       (fun k (st : ProxyUserData.t * Mat) =>
          let (ud, proxyvalues) := st in
          let ud := ProxyUserData.set_test ud proxy k in
          let values := cf_EvaluateIR cf ud mir in
          let values :=
            for_ (mir_Size mir)
                 (fun i values => scale_row values i (GetWeight (mir_at mir i)))
                 values in
          (ud, assign_col proxyvalues k (Col values 0)))
       (ud, fun _ _ => 0).

(** T_CalcElementVector (lines 182-218) *)
Definition T_CalcElementVector (self : SymbolicLinearFormIntegrator)
           (fel : FiniteElement) (trafo : ElementTransformation)
           (elvec : FlatVector) : FlatVector :=
  let mir := MapRule trafo (2 * Order fel) in
  let ud := ProxyUserData.fresh in
  let elvec := vzero elvec in
  snd (for_each (proxies self)
         (fun proxy (st : ProxyUserData.t * FlatVector) =>
            let (ud, elvec) := st in
            let (ud, proxyvalues) := lfi_proxyvalues (lfi_cf self) mir proxy ud in
            let elvec1 := ApplyTrans (Evaluator proxy) fel mir proxyvalues in
            (ud, vadd elvec elvec1))
         (ud, elvec)).

Definition CalcElementVector := T_CalcElementVector.

(** *** SymbolicBilinearFormIntegrator (lines 223-486) *)

Record SymbolicBilinearFormIntegrator := {
  bfi_cf : CoefficientFunction;
  bfi_vb : VorB;
  element_boundary : bool;
  bfi_trial_proxies : list ProxyPtr;
  bfi_test_proxies : list ProxyPtr
}.

(** the visitor of lines 232-248, on the pair (trial_proxies, test_proxies) *)
Definition bfi_visit (nodecf : NodeRef) (st : list ProxyPtr * list ProxyPtr)
  : list ProxyPtr * list ProxyPtr :=
  let (trial_proxies, test_proxies) := st in
  match dynamic_cast_ProxyFunction nodecf with
  | Some proxy =>
    if IsTestFunction proxy
    then (trial_proxies,
          if negb (Contains test_proxies proxy) then Append test_proxies proxy
          else test_proxies)
    else (if negb (Contains trial_proxies proxy) then Append trial_proxies proxy
          else trial_proxies,
          test_proxies)
  | None => st
  end.

Definition mkSymbolicBilinearFormIntegrator (acf : CoefficientFunction) (avb : VorB)
           (aelement_boundary : bool) : Exceptional SymbolicBilinearFormIntegrator :=
  if negb (cf_Dimension acf =? 1)%nat
  then Throw "SymblicBFI needs scalar-valued CoefficientFunction"
  else
    let (trial, test) := for_each (TraverseTree acf) bfi_visit ([], []) in
    Return {| bfi_cf := acf; bfi_vb := avb; element_boundary := aelement_boundary;
              bfi_trial_proxies := trial; bfi_test_proxies := test |}.

(** lines 335-345: the sample tensor of one proxy pair *)
Definition bfi_tensor (cf : CoefficientFunction) (mir : BaseMappedIntegrationRule)
           (proxy1 proxy2 : ProxyPtr) (ud : ProxyUserData.t)
  : ProxyUserData.t * Tensor3 :=
  for_ (Dimension proxy1)
       (fun k st =>
          for_ (Dimension proxy2)
               (fun l (st : ProxyUserData.t * Tensor3) =>
                  let (ud, proxyvalues) := st in
                  let ud := ProxyUserData.set_trial ud proxy1 k in
                  let ud := ProxyUserData.set_test ud proxy2 l in
                  let val := cf_EvaluateIR cf ud mir in
                  (ud, assign_slice proxyvalues l k (Col val 0)))
               st)
       (ud, fun _ _ _ => 0).

(** lines 348-349 and 612-613 *)
Definition apply_weights (mir : BaseMappedIntegrationRule) (proxyvalues : Tensor3)
  : Tensor3 :=
  for_ (mir_Size mir)
       (fun i proxyvalues => scale_point proxyvalues i (GetWeight (mir_at mir i)))
       proxyvalues.

(** lines 366-375 (and 392-401, 628-637, 649-658): the two tall
    matrices of the block of [count] points that starts at point [i] *)
Definition stack_block (fel : FiniteElement) (mir : BaseMappedIntegrationRule)
           (proxy1 proxy2 : ProxyPtr) (proxyvalues : Tensor3) (i count : nat)
  : Mat * Mat :=
  for_ count
       (fun j (st : Mat * Mat) =>
          let (bdbmat1, bbmat2) := st in
          let ii := (i + j)%nat in
          let r2 := scale_range (Dimension proxy2) {| First := j; Next := j + 1 |} in
          let bmat1 := CalcMatrix (Evaluator proxy1) fel (mir_at mir ii) in
          let bmat2 := CalcMatrix (Evaluator proxy2) fel (mir_at mir ii) in
          (assign_rows bdbmat1 r2
                       (mat_mult (Dimension proxy1) (at_point proxyvalues ii) bmat1),
           assign_rows bbmat2 r2 bmat2))
       (fun _ _ => 0, fun _ _ => 0).

(** line 379 (and 405): the multiply of one block, restricted to the
    used dofs of the two operators *)
Definition volume_block (fel : FiniteElement) (mir : BaseMappedIntegrationRule)
           (proxy1 proxy2 : ProxyPtr) (proxyvalues : Tensor3)
           (count i : nat) (elmat : FlatMatrix) : FlatMatrix :=
  let r1 := UsedDofs (Evaluator proxy1) fel in
  let r2 := UsedDofs (Evaluator proxy2) fel in
  let (bdbmat1, bbmat2) := stack_block fel mir proxy1 proxy2 proxyvalues i count in
  madd_sub elmat r2 r1
           (mat_mult (count * Dimension proxy2)
                     (Trans (Cols bbmat2 r2)) (Cols bdbmat1 r1)).

(** lines 357-407 with the block size as a parameter *)
Definition volume_contract (bs : nat) (fel : FiniteElement)
           (mir : BaseMappedIntegrationRule) (proxy1 proxy2 : ProxyPtr)
           (proxyvalues : Tensor3) (elmat : FlatMatrix) : FlatMatrix :=
  let (i, elmat) :=
    full_blocks bs (mir_Size mir)
                (volume_block fel mir proxy1 proxy2 proxyvalues bs)
                (mir_Size mir) 0%nat elmat in
  if (i <? mir_Size mir)%nat
  then
    let rest := (mir_Size mir - i)%nat in
    volume_block fel mir proxy1 proxy2 proxyvalues rest i elmat
  else elmat.

(** lines 445-452: the physical normal of a facet point and its length *)
Definition facet_normal (D : nat) (mip : BaseMappedIntegrationPoint)
           (normal_ref : Vec) : Vec * R :=
  let inv_jac := GetJacobianInverse mip in
  let det := GetMeasure mip in
  let normal : Vec :=
    fun r => det * sum_n D (fun c => Trans inv_jac r c * normal_ref c) in
  let len := L2Norm D normal in
  let normal : Vec := fun r => normal r / len in
  (normal, len).

(** lines 460-472: the weighted coefficients of one pair at one facet point *)
Definition eb_proxyvalues (cf : CoefficientFunction) (weight len : R)
           (mip : BaseMappedIntegrationPoint) (proxy1 proxy2 : ProxyPtr)
           (ud : ProxyUserData.t) : ProxyUserData.t * Mat :=
  for_ (Dimension proxy1)
       (fun k st =>
          for_ (Dimension proxy2)
               (fun l (st : ProxyUserData.t * Mat) =>
                  let (ud, proxyvalues) := st in
                  let ud := ProxyUserData.set_trial ud proxy1 k in
                  let ud := ProxyUserData.set_test ud proxy2 l in
                  let result := cf_Evaluate cf ud mip in
                  (ud, fun l' k' =>
                         if (l' =? l)%nat && (k' =? k)%nat
                         then weight * len * result 0%nat
                         else proxyvalues l' k'))
               st)
       (ud, fun _ _ => 0).

(** lines 456-483: all proxy pairs at one facet point *)
Definition eb_point (self : SymbolicBilinearFormIntegrator) (fel : FiniteElement)
           (weight len : R) (mip : BaseMappedIntegrationPoint)
           (st : ProxyUserData.t * FlatMatrix) : ProxyUserData.t * FlatMatrix :=
  for_each (bfi_trial_proxies self)
    (fun proxy1 st =>
       for_each (bfi_test_proxies self)
         (fun proxy2 (st : ProxyUserData.t * FlatMatrix) =>
            let (ud, elmat) := st in
            let (ud, proxyvalues) :=
              eb_proxyvalues (bfi_cf self) weight len mip proxy1 proxy2 ud in
            let bmat1 := CalcMatrix (Evaluator proxy1) fel mip in
            let bmat2 := CalcMatrix (Evaluator proxy2) fel mip in
            let dbmat1 := mat_mult (Dimension proxy1) proxyvalues bmat1 in
            (ud, madd elmat (mat_mult (Dimension proxy2) (Trans bmat2) dbmat1)))
         st)
    st.

(** T_CalcElementMatrixEB<D> (lines 414-486) *)
Definition T_CalcElementMatrixEB (D : nat) (self : SymbolicBilinearFormIntegrator)
           (fel : FiniteElement) (trafo : ElementTransformation)
           (elmat : FlatMatrix) : FlatMatrix :=
  let elmat := mzero elmat in
  let eltype := GetElementType trafo in
  let nfacet := GetNFacets eltype in
  let normals := GetNormals D eltype in
  for_ nfacet
       (fun k elmat =>
          let normal_ref := normals k in
          let mir := MapFacetRule trafo k (2 * Order fel) in
          let ud := ProxyUserData.fresh in
          snd (for_ (mir_Size mir)
                    (fun i st =>
                       let mip := mir_at mir i in
                       let (normal, len) := facet_normal D mip normal_ref in
                       let mip := SetNV mip normal in
                       eb_point self fel
                                (FacetWeight eltype k (2 * Order fel) i) len mip st)
                    (ud, elmat)))
       elmat.

(** lines 327-408: one proxy pair of the volume path *)
Definition volume_pair (self : SymbolicBilinearFormIntegrator) (fel : FiniteElement)
           (mir : BaseMappedIntegrationRule) (proxy1 proxy2 : ProxyPtr)
           (st : ProxyUserData.t * FlatMatrix) : ProxyUserData.t * FlatMatrix :=
  let (ud, elmat) := st in
  let (ud, proxyvalues) := bfi_tensor (bfi_cf self) mir proxy1 proxy2 ud in
  let proxyvalues := apply_weights mir proxyvalues in
  (ud, volume_contract BS fel mir proxy1 proxy2 proxyvalues elmat).

(** T_CalcElementMatrix (lines 276-409); the two difforder minima of
    lines 309-313 feed only the commented-out order reduction *)
Definition T_CalcElementMatrix (self : SymbolicBilinearFormIntegrator)
           (fel : FiniteElement) (trafo : ElementTransformation)
           (elmat : FlatMatrix) : Exceptional FlatMatrix :=
  if element_boundary self
  then
    match SpaceDim trafo with
    | 1%nat => Return (T_CalcElementMatrixEB 1 self fel trafo elmat)
    | 2%nat => Return (T_CalcElementMatrixEB 2 self fel trafo elmat)
    | 3%nat => Return (T_CalcElementMatrixEB 3 self fel trafo elmat)
    | d => Throw ("Illegal space dimension" ++ ToString d)
    end
  else
    let intorder := (2 * Order fel)%nat in
    let mir := MapRule trafo intorder in
    let ud := ProxyUserData.fresh in
    let elmat := mzero elmat in
    Return (snd (for_each (bfi_trial_proxies self)
                   (fun proxy1 st =>
                      for_each (bfi_test_proxies self)
                               (fun proxy2 st => volume_pair self fel mir proxy1 proxy2 st)
                               st)
                   (ud, elmat))).

Definition CalcElementMatrix := T_CalcElementMatrix.

(** *** SymbolicEnergy (lines 494-744) *)

Record SymbolicEnergy := {
  en_cf : CoefficientFunction;
  en_vb : VorB;
  trial_proxies : list ProxyPtr
}.

(** the visitor of lines 503-514 *)
Definition en_visit (nodecf : NodeRef) (trial_proxies : list ProxyPtr) : list ProxyPtr :=
  match dynamic_cast_ProxyFunction nodecf with
  | Some proxy =>
    if negb (IsTestFunction proxy)
    then if negb (Contains trial_proxies proxy) then Append trial_proxies proxy
         else trial_proxies
    else trial_proxies
  | None => trial_proxies
  end.

Definition mkSymbolicEnergy (acf : CoefficientFunction) (avb : VorB)
  : Exceptional SymbolicEnergy :=
  if negb (cf_Dimension acf =? 1)%nat
  then Throw "SymblicEnergy needs scalar-valued CoefficientFunction"
  else Return {| en_cf := acf; en_vb := avb;
                 trial_proxies := for_each (TraverseTree acf) en_visit [] |}.

(** [t(STAR,l,k) -= v] *)
Definition sub_slice (t : Tensor3) (l k : nat) (v : Vec) : Tensor3 :=
  fun i l' k' => if (l' =? l)%nat && (k' =? k)%nat then t i l' k' - v i else t i l' k'.

(** [t(STAR,l,k) *= c] *)
Definition scale_slice (t : Tensor3) (l k : nat) (c : R) : Tensor3 :=
  fun i l' k' => if (l' =? l)%nat && (k' =? k)%nat then t i l' k' * c else t i l' k'.

(** lines 532-541: the context pinned to the linearisation point, with the
    field values of every trial proxy memoised *)
Definition lin_context (self : SymbolicEnergy) (fel : FiniteElement)
           (mir : BaseMappedIntegrationRule) (elveclin : FlatVector) : ProxyUserData.t :=
  let ud := ProxyUserData.pin ProxyUserData.fresh fel elveclin in
  for_each (trial_proxies self)
           (fun proxy ud =>
              ProxyUserData.set_remember
                ud proxy (ApplyIR (Evaluator proxy) fel mir elveclin))
           ud.

(** lines 549-564: the diagonal pass *)
Definition calc_diags (self : SymbolicEnergy) (mir : BaseMappedIntegrationRule)
           (ud : ProxyUserData.t) : ProxyUserData.t * (nat -> Mat) :=
  for_ (length (trial_proxies self))
       (fun k1 st =>
          let proxy := nth k1 (trial_proxies self) 0%nat in
          for_ (Dimension proxy)
               (fun k (st : ProxyUserData.t * (nat -> Mat)) =>
                  let (ud, diags) := st in
                  let ud := ProxyUserData.set_trial ud proxy k in
                  let ud := ProxyUserData.set_test ud proxy k in
                  let dderiv := snd (cf_EvaluateDDeriv (en_cf self) ud mir) in
                  (ud, fun k1' =>
                         if (k1' =? k1)%nat
                         then assign_col (diags k1') k (Col dderiv 0)
                         else diags k1'))
               st)
       (ud, fun _ _ _ => 0).

(** lines 573-592: the tensor of second derivatives of one proxy pair *)
Definition hessian_tensor (self : SymbolicEnergy) (mir : BaseMappedIntegrationRule)
           (diags : nat -> Mat) (k1 l1 : nat) (ud : ProxyUserData.t)
  : ProxyUserData.t * Tensor3 :=
  let proxy1 := nth k1 (trial_proxies self) 0%nat in
  let proxy2 := nth l1 (trial_proxies self) 0%nat in
  for_ (Dimension proxy1)
       (fun k st =>
          for_ (Dimension proxy2)
               (fun l (st : ProxyUserData.t * Tensor3) =>
                  let (ud, proxyvalues) := st in
                  let ud := ProxyUserData.set_trial ud proxy1 k in
                  let ud := ProxyUserData.set_test ud proxy2 l in
                  let dderiv := snd (cf_EvaluateDDeriv (en_cf self) ud mir) in
                  let proxyvalues := assign_slice proxyvalues l k (Col dderiv 0) in
                  let proxyvalues :=
                    if negb (proxy1 =? proxy2)%nat || negb (k =? l)%nat
                    then
                      let proxyvalues := sub_slice proxyvalues l k (Col (diags k1) k) in
                      let proxyvalues := sub_slice proxyvalues l k (Col (diags l1) l) in
                      scale_slice proxyvalues l k 0.5
                    else proxyvalues in
                  (ud, proxyvalues))
               st)
       (ud, fun _ _ _ => 0).

(** lines 638 and 659: the multiply of one block, on the whole matrix *)
Definition hessian_block (fel : FiniteElement) (mir : BaseMappedIntegrationRule)
           (proxy1 proxy2 : ProxyPtr) (proxyvalues : Tensor3)
           (count i : nat) (elmat : FlatMatrix) : FlatMatrix :=
  let (bdbmat1, bbmat2) := stack_block fel mir proxy1 proxy2 proxyvalues i count in
  madd elmat (mat_mult (count * Dimension proxy2) (Trans bbmat2) bdbmat1).

(** lines 619-660 with the block size as a parameter *)
Definition hessian_contract (bs : nat) (fel : FiniteElement)
           (mir : BaseMappedIntegrationRule) (proxy1 proxy2 : ProxyPtr)
           (proxyvalues : Tensor3) (elmat : FlatMatrix) : FlatMatrix :=
  let (i, elmat) :=
    full_blocks bs (mir_Size mir)
                (hessian_block fel mir proxy1 proxy2 proxyvalues bs)
                (mir_Size mir) 0%nat elmat in
  if (i <? mir_Size mir)%nat
  then
    let rest := (mir_Size mir - i)%nat in
    hessian_block fel mir proxy1 proxy2 proxyvalues rest i elmat
  else elmat.

(** lines 567-675: one proxy pair of the Hessian *)
Definition hessian_pair (self : SymbolicEnergy) (fel : FiniteElement)
           (mir : BaseMappedIntegrationRule) (diags : nat -> Mat) (k1 l1 : nat)
           (st : ProxyUserData.t * FlatMatrix) : ProxyUserData.t * FlatMatrix :=
  let (ud, elmat) := st in
  let proxy1 := nth k1 (trial_proxies self) 0%nat in
  let proxy2 := nth l1 (trial_proxies self) 0%nat in
  let (ud, proxyvalues) := hessian_tensor self mir diags k1 l1 ud in
  let proxyvalues := apply_weights mir proxyvalues in
  (ud, hessian_contract BS fel mir proxy1 proxy2 proxyvalues elmat).

(** SymbolicEnergy::CalcLinearizedElementMatrix (lines 518-676) *)
Definition CalcLinearizedElementMatrix (self : SymbolicEnergy)
           (fel : FiniteElement) (trafo : ElementTransformation)
           (elveclin : FlatVector) (elmat : FlatMatrix) : FlatMatrix :=
  let mir := MapRule trafo (2 * Order fel) in
  let ud := lin_context self fel mir elveclin in
  let elmat := mzero elmat in
  let (ud, diags) := calc_diags self mir ud in
  snd (for_ (length (trial_proxies self))
            (fun k1 st =>
               for_ (length (trial_proxies self))
                    (fun l1 st => hessian_pair self fel mir diags k1 l1 st)
                    st)
            (ud, elmat)).

(** SymbolicEnergy::Energy (lines 680-701) *)
Definition Energy (self : SymbolicEnergy) (fel : FiniteElement)
           (trafo : ElementTransformation) (elx : FlatVector) : R :=
  let ud := ProxyUserData.pin ProxyUserData.fresh fel elx in
  let mir := MapRule trafo (2 * Order fel) in
  let values := cf_EvaluateIR (en_cf self) ud mir in
  for_ (mir_Size mir)
       (fun i sum => sum + GetWeight (mir_at mir i) * values i 0%nat)
       0.

(** lines 729-739: the weighted first derivatives of one proxy *)
Definition gradient_proxyvalues (self : SymbolicEnergy)
           (mir : BaseMappedIntegrationRule) (proxy : ProxyPtr)
           (ud : ProxyUserData.t) : ProxyUserData.t * Mat :=
  let (ud, proxyvalues) :=
    for_ (Dimension proxy)
         (fun k (st : ProxyUserData.t * Mat) =>
            let (ud, proxyvalues) := st in
            let ud := ProxyUserData.set_trial ud proxy k in
            let deriv := snd (cf_EvaluateDeriv (en_cf self) ud mir) in
            (ud, assign_col proxyvalues k (Col deriv 0)))
         (ud, fun _ _ => 0) in
  (ud, for_ (mir_Size mir)
            (fun i proxyvalues => scale_row proxyvalues i (GetWeight (mir_at mir i)))
            proxyvalues).

(** SymbolicEnergy::ApplyElementMatrix (lines 703-744) *)
Definition ApplyElementMatrix (self : SymbolicEnergy) (fel : FiniteElement)
           (trafo : ElementTransformation) (elx : FlatVector) (ely : FlatVector)
  : FlatVector :=
  let ud := ProxyUserData.pin ProxyUserData.fresh fel elx in
  let mir := MapRule trafo (2 * Order fel) in
  let ely := vzero ely in
  snd (for_each (trial_proxies self)
         (fun proxy (st : ProxyUserData.t * FlatVector) =>
            let (ud, ely) := st in
            let (ud, proxyvalues) := gradient_proxyvalues self mir proxy ud in
            let ely1 := ApplyTrans (Evaluator proxy) fel mir proxyvalues in
            (ud, vadd ely ely1))
         (ud, ely)).

End Integrators.

(** ** Nodes of the expression tree *)

Section Nodes.

Variable store : ProxyPtr -> ProxyFunction.t.

(** Modelled from the spec: the overload of [Evaluate] on a whole rule is
    inherited from CoefficientFunction, outside this source file; it
    evaluates the rule point by point with the single-point overload. *)
Definition EvaluateIR_ud (this : ProxyPtr) (ud : ProxyUserData.t)
           (mir : BaseMappedIntegrationRule) : Mat :=
  fun i => Evaluate_ud store this ud (mir_at mir i).

(** A proxy as a leaf of the tree: the overloads of lines 52-142 behind
    their null check. *)
Definition ProxyCF (p : ProxyPtr) : CoefficientFunction :=
  {| cf_Dimension := Dimension store p;
     TraverseTree := [ProxyNode p];
     cf_Evaluate := Evaluate_ud store p;
     cf_EvaluateIR := EvaluateIR_ud p;
     cf_EvaluateDeriv := EvaluateDeriv_ud store p;
     cf_EvaluateDDeriv := EvaluateDDeriv_ud store p |}.

End Nodes.

(** Modelled from the spec: the composite nodes of the expression
    subsystem (constants, component selection, sums and products of
    scalar expressions) are outside this source file.  They evaluate
    point-wise; [EvaluateDeriv] and [EvaluateDDeriv] carry the first and
    second directional derivative along the seed direction by the sum
    and product rules; [TraverseTree] visits the operands, then the node. *)
Definition ConstantCF (c : R) : CoefficientFunction :=
  {| cf_Dimension := 1;
     TraverseTree := [OtherNode];
     cf_Evaluate := fun _ _ _ => c;
     cf_EvaluateIR := fun _ _ _ _ => c;
     cf_EvaluateDeriv := fun _ _ => (fun _ _ => c, fun _ _ => 0);
     cf_EvaluateDDeriv := fun _ _ => (fun _ _ => c, fun _ _ => 0, fun _ _ => 0) |}.

(** Modelled from the spec: component [k] of a vector-valued expression. *)
Definition ComponentCF (a : CoefficientFunction) (k : nat) : CoefficientFunction :=
  {| cf_Dimension := 1;
     TraverseTree := TraverseTree a ++ [OtherNode];
     cf_Evaluate := fun ud mip _ => cf_Evaluate a ud mip k;
     cf_EvaluateIR := fun ud mir i _ => cf_EvaluateIR a ud mir i k;
     cf_EvaluateDeriv := fun ud mir =>
       let '(v, d) := cf_EvaluateDeriv a ud mir in
       (fun i _ => v i k, fun i _ => d i k);
     cf_EvaluateDDeriv := fun ud mir =>
       let '(v, d, dd) := cf_EvaluateDDeriv a ud mir in
       (fun i _ => v i k, fun i _ => d i k, fun i _ => dd i k) |}.

(** Modelled from the spec: the sum node, evaluated as the sum of its operands. *)
Definition AddCF (a b : CoefficientFunction) : CoefficientFunction :=
  {| cf_Dimension := cf_Dimension a;
     TraverseTree := TraverseTree a ++ TraverseTree b ++ [OtherNode];
     cf_Evaluate := fun ud mip c => cf_Evaluate a ud mip c + cf_Evaluate b ud mip c;
     cf_EvaluateIR := fun ud mir i c => cf_EvaluateIR a ud mir i c + cf_EvaluateIR b ud mir i c;
     cf_EvaluateDeriv := fun ud mir =>
       let '(va, da) := cf_EvaluateDeriv a ud mir in
       let '(vb, db) := cf_EvaluateDeriv b ud mir in
       (fun i c => va i c + vb i c, fun i c => da i c + db i c);
     cf_EvaluateDDeriv := fun ud mir =>
       let '(va, da, dda) := cf_EvaluateDDeriv a ud mir in
       let '(vb, db, ddb) := cf_EvaluateDDeriv b ud mir in
       (fun i c => va i c + vb i c, fun i c => da i c + db i c,
        fun i c => dda i c + ddb i c) |}.

(** Modelled from the spec: the product of two scalar expressions. *)
Definition MultCF (a b : CoefficientFunction) : CoefficientFunction :=
  {| cf_Dimension := 1;
     TraverseTree := TraverseTree a ++ TraverseTree b ++ [OtherNode];
     cf_Evaluate := fun ud mip _ => cf_Evaluate a ud mip 0%nat * cf_Evaluate b ud mip 0%nat;
     cf_EvaluateIR := fun ud mir i _ =>
       cf_EvaluateIR a ud mir i 0%nat * cf_EvaluateIR b ud mir i 0%nat;
     cf_EvaluateDeriv := fun ud mir =>
       let '(va, da) := cf_EvaluateDeriv a ud mir in
       let '(vb, db) := cf_EvaluateDeriv b ud mir in
       (fun i _ => va i 0%nat * vb i 0%nat,
        fun i _ => da i 0%nat * vb i 0%nat + va i 0%nat * db i 0%nat);
     cf_EvaluateDDeriv := fun ud mir =>
       let '(va, da, dda) := cf_EvaluateDDeriv a ud mir in
       let '(vb, db, ddb) := cf_EvaluateDDeriv b ud mir in
       (fun i _ => va i 0%nat * vb i 0%nat,
        fun i _ => da i 0%nat * vb i 0%nat + va i 0%nat * db i 0%nat,
        fun i _ => dda i 0%nat * vb i 0%nat + 2 * (da i 0%nat * db i 0%nat)
                   + va i 0%nat * ddb i 0%nat) |}.

(** ** The per-point contraction, the reference of the blocked one *)

Section PointwiseContraction.

Variable store : ProxyPtr -> ProxyFunction.t.

(** the contribution of quadrature point [ii] of one pair to the entry
    (row [a], column [b]): [Trans (bmat2) * (proxyvalues(ii,STAR,STAR) * bmat1)] *)
Definition point_term (fel : FiniteElement) (mir : BaseMappedIntegrationRule)
           (proxy1 proxy2 : ProxyPtr) (proxyvalues : Tensor3) (ii : nat) : Mat :=
  let bmat1 := CalcMatrix (Evaluator store proxy1) fel (mir_at mir ii) in
  let bmat2 := CalcMatrix (Evaluator store proxy2) fel (mir_at mir ii) in
  let dbmat1 := mat_mult (Dimension store proxy1) (at_point proxyvalues ii) bmat1 in
  mat_mult (Dimension store proxy2) (Trans bmat2) dbmat1.

(** the loop the source keeps in its comments (lines 596-610 and
    662-673): one multiply per point, added to the whole matrix *)
Definition hessian_naive (fel : FiniteElement) (mir : BaseMappedIntegrationRule)
           (proxy1 proxy2 : ProxyPtr) (proxyvalues : Tensor3) (elmat : FlatMatrix)
  : FlatMatrix :=
  for_ (mir_Size mir)
       (fun i elmat => madd elmat (point_term fel mir proxy1 proxy2 proxyvalues i))
       elmat.

(** the same loop restricted to the used dofs of the two operators, as
    line 379 restricts the blocked multiply *)
Definition volume_naive (fel : FiniteElement) (mir : BaseMappedIntegrationRule)
           (proxy1 proxy2 : ProxyPtr) (proxyvalues : Tensor3) (elmat : FlatMatrix)
  : FlatMatrix :=
  let r1 := UsedDofs (Evaluator store proxy1) fel in
  let r2 := UsedDofs (Evaluator store proxy2) fel in
  for_ (mir_Size mir)
       (fun i elmat =>
          let bmat1 := CalcMatrix (Evaluator store proxy1) fel (mir_at mir i) in
          let bmat2 := CalcMatrix (Evaluator store proxy2) fel (mir_at mir i) in
          let dbmat1 := mat_mult (Dimension store proxy1) (at_point proxyvalues i) bmat1 in
          madd_sub elmat r2 r1
                   (mat_mult (Dimension store proxy2)
                             (Trans (Cols bmat2 r2)) (Cols dbmat1 r1)))
       elmat.

End PointwiseContraction.

(** ** Predicates on contexts and results *)

(** a seed applies to the proxy: it is the active test or trial proxy *)
Definition seeded (this : ProxyPtr) (ud : ProxyUserData.t) : bool :=
  ptr_is (ProxyUserData.testfunction ud) this
  || ptr_is (ProxyUserData.trialfunction ud) this.

(** a dof vector is pinned for the element *)
Definition pinned (ud : ProxyUserData.t) : bool :=
  match ProxyUserData.fel ud with Some _ => true | None => false end.

Definition raises {A : Type} (r : Exceptional A) : Prop :=
  exists what, r = Throw what.

(** the vector with a 1 at component [c] and 0 elsewhere *)
Definition one_hot (c : nat) : Vec := fun j => if (j =? c)%nat then 1 else 0.

(** the context is absent, or it holds neither a seed for the proxy nor a
    pinned element *)
Definition no_seed_no_pin (this : ProxyPtr) (userdata : option ProxyUserData.t) : Prop :=
  match userdata with
  | None => True
  | Some ud => seeded this ud = false /\ pinned ud = false
  end.

(** [m'] is [m] with [p] added on the entries selected by [mask] *)
Definition accumulates (mask : nat -> nat -> bool) (m m' : FlatMatrix) (p : Mat) : Prop :=
  Height m' = Height m /\ Width m' = Width m
  /\ forall a b, m' a b = if mask a b then m a b + p a b else m a b.

(** the mask of [m.Rows(rr).Cols(rc) += ...] and of [m += ...] *)
Definition sub_mask (rr rc : IntRange) : nat -> nat -> bool :=
  fun a b => in_range rr a && in_range rc b.
Definition full_mask (h w : nat) : nat -> nat -> bool :=
  fun a b => (a <? h)%nat && (b <? w)%nat.

(** the entry (row [a], column [b]) lies in no rectangle of used-dof rows
    of a test operator and used-dof columns of a trial operator *)
Definition outside_used_dofs (store : ProxyPtr -> ProxyFunction.t) (fel : FiniteElement)
           (trial test : list ProxyPtr) (a b : nat) : Prop :=
  forall proxy1 proxy2,
    In proxy1 trial -> In proxy2 test ->
    sub_mask (UsedDofs (Evaluator store proxy2) fel)
             (UsedDofs (Evaluator store proxy1) fel) a b = false.

(** the dof [d] lies in no used-dof range of the operators *)
Definition outside_used_range (store : ProxyPtr -> ProxyFunction.t) (fel : FiniteElement)
           (proxies : list ProxyPtr) (d : nat) : Prop :=
  forall proxy, In proxy proxies ->
                in_range (UsedDofs (Evaluator store proxy) fel) d = false.

(** the basis matrix of the operator of [proxy] has zero columns outside
    the used dofs *)
Definition basis_within_used_dofs (store : ProxyPtr -> ProxyFunction.t)
           (fel : FiniteElement) (proxy : ProxyPtr) : Prop :=
  forall mip k d,
    in_range (UsedDofs (Evaluator store proxy) fel) d = false ->
    CalcMatrix (Evaluator store proxy) fel mip k d = 0.

(** the transposed application of the operator of [proxy] gives zero
    outside the used dofs *)
Definition transpose_within_used_dofs (store : ProxyPtr -> ProxyFunction.t)
           (fel : FiniteElement) (proxy : ProxyPtr) : Prop :=
  forall mir values d,
    in_range (UsedDofs (Evaluator store proxy) fel) d = false ->
    ApplyTrans (Evaluator store proxy) fel mir values d = 0.

(** ** Seeds and seed directions *)

(** the four assignments that seed a proxy pair: trial (proxy1, k), test (proxy2, l) *)
Definition seed_pair (ud : ProxyUserData.t) (proxy1 : ProxyPtr) (k : nat)
           (proxy2 : ProxyPtr) (l : nat) : ProxyUserData.t :=
  ProxyUserData.set_test (ProxyUserData.set_trial ud proxy1 k) proxy2 l.

(** two contexts with the same pinned element, dofs and memo *)
Definition same_pin (ud ud' : ProxyUserData.t) : Prop :=
  ProxyUserData.fel ud = ProxyUserData.fel ud'
  /\ ProxyUserData.elx ud = ProxyUserData.elx ud'
  /\ ProxyUserData.remember ud = ProxyUserData.remember ud'.

(** a direction in the space of all proxy components *)
Definition Direction := ProxyPtr -> nat -> R.

(** the direction the proxies of a context mark in [deriv] when asked for
    second derivatives (lines 138-141) *)
Definition seed_dir (ud : ProxyUserData.t) : Direction :=
  fun p c =>
    if (ptr_is (ProxyUserData.testfunction ud) p
        && (c =? ProxyUserData.test_comp ud)%nat)
       || (ptr_is (ProxyUserData.trialfunction ud) p
           && (c =? ProxyUserData.trial_comp ud)%nat)
    then 1 else 0.

(** the unit direction of component [c] of proxy [p] *)
Definition unit_dir (p : ProxyPtr) (c : nat) : Direction :=
  fun p' c' => if (p' =? p)%nat && (c' =? c)%nat then 1 else 0.

(** the value [dderiv.Col(0)] that [cf->EvaluateDDeriv] returns at point
    [i] for the seeds trial (proxy1, k), test (proxy2, l) *)
Definition raw_dderiv (cf : CoefficientFunction) (mir : BaseMappedIntegrationRule)
           (ud : ProxyUserData.t) (proxy1 : ProxyPtr) (k : nat)
           (proxy2 : ProxyPtr) (l : nat) (i : nat) : R :=
  snd (cf_EvaluateDDeriv cf (seed_pair ud proxy1 k proxy2 l) mir) i 0%nat.

(** the entry the polarisation of lines 584-591 leaves in the tensor of
    the pair (k1, l1) at point [i], trial component [k], test component [l] *)
Definition polarized (self : SymbolicEnergy) (mir : BaseMappedIntegrationRule)
           (ud : ProxyUserData.t) (diags : nat -> Mat) (k1 l1 k l i : nat) : R :=
  let proxy1 := nth k1 (trial_proxies self) 0%nat in
  let proxy2 := nth l1 (trial_proxies self) 0%nat in
  if (proxy1 =? proxy2)%nat && (k =? l)%nat
  then raw_dderiv (en_cf self) mir ud proxy1 k proxy2 l i
  else 0.5 * (raw_dderiv (en_cf self) mir ud proxy1 k proxy2 l i
              - diags k1 i k - diags l1 i l).

(** what the Hessian path adds to an entry inside the matrix for the pair
    (k1, l1): the contraction of the polarised, weighted tensor with the
    basis matrices of the two operators over all quadrature points *)
Definition hessian_pair_entry (store : ProxyPtr -> ProxyFunction.t)
           (self : SymbolicEnergy) (fel : FiniteElement)
           (mir : BaseMappedIntegrationRule) (ud : ProxyUserData.t)
           (diags : nat -> Mat) (k1 l1 a b : nat) : R :=
  let proxy1 := nth k1 (trial_proxies self) 0%nat in
  let proxy2 := nth l1 (trial_proxies self) 0%nat in
  sum_n (mir_Size mir)
        (fun i =>
           sum_n (Dimension store proxy2)
                 (fun l =>
                    CalcMatrix (Evaluator store proxy2) fel (mir_at mir i) l a
                    * sum_n (Dimension store proxy1)
                            (fun k =>
                               polarized self mir ud diags k1 l1 k l i
                               * GetWeight (mir_at mir i)
                               * CalcMatrix (Evaluator store proxy1) fel (mir_at mir i) k b))).

(** a symmetric bilinear form on directions, one per quadrature point *)
Record SymmetricBilinear (B : nat -> Direction -> Direction -> R) : Prop := {
  bilinear_ext : forall i d1 d1' d2 d2',
      (forall p c, d1 p c = d1' p c) -> (forall p c, d2 p c = d2' p c) ->
      B i d1 d2 = B i d1' d2';
  bilinear_sym : forall i d1 d2, B i d1 d2 = B i d2 d1;
  bilinear_add : forall i d1 d1' d2,
      B i (fun p c => d1 p c + d1' p c) d2 = B i d1 d2 + B i d1' d2
}.

(** the sum of the expressions [f 0 .. f (n-1)], a chain of sum nodes *)
Fixpoint SumCF (n : nat) (f : nat -> CoefficientFunction) : CoefficientFunction :=
  match n with
  | O => ConstantCF 0
  | S m => AddCF (SumCF m f) (f m)
  end.

(** the quadratic density u^T A u of the [n] components of the proxy at [p] *)
Definition quadratic_density (store : ProxyPtr -> ProxyFunction.t)
           (A : nat -> nat -> R) (n : nat) (p : ProxyPtr) : CoefficientFunction :=
  SumCF n (fun k =>
    SumCF n (fun l =>
      MultCF (ConstantCF (A k l))
             (MultCF (ComponentCF (ProxyCF store p) k)
                     (ComponentCF (ProxyCF store p) l)))).

(** the bilinear form of the second derivative of u^T A u: (A + A^T) on
    the components of the proxy at [p] *)
Definition quadratic_hessian (A : nat -> nat -> R) (n : nat) (p : ProxyPtr)
  : nat -> Direction -> Direction -> R :=
  fun _ d1 d2 =>
    sum_n n (fun k => sum_n n (fun l => A k l * (d1 p k * d2 p l + d1 p l * d2 p k))).

(** the energy integrator of the quadratic density *)
Definition quadratic_energy (store : ProxyPtr -> ProxyFunction.t)
           (A : nat -> nat -> R) (n : nat) (p : ProxyPtr) : SymbolicEnergy :=
  {| en_cf := quadratic_density store A n p; en_vb := VOL; trial_proxies := [p] |}.

(** ** The assembled bilinear form, pair by pair *)

(** the sum of [f x] over the entries of a list *)
Fixpoint sum_list {A : Type} (xs : list A) (f : A -> R) : R :=
  match xs with
  | [] => 0
  | x :: xs' => f x + sum_list xs' f
  end.

(** the value of the integrand at point [i] of the rule with the pair
    trial (proxy1, k), test (proxy2, l) seeded in the context of bilinear
    assembly *)
Definition pair_value (cf : CoefficientFunction) (mir : BaseMappedIntegrationRule)
           (proxy1 : ProxyPtr) (k : nat) (proxy2 : ProxyPtr) (l i : nat) : R :=
  cf_EvaluateIR cf (seed_pair ProxyUserData.fresh proxy1 k proxy2 l) mir i 0%nat.

(** what the volume path adds to the entry (row [a], column [b]) for
    one proxy pair *)
Definition volume_pair_entry (store : ProxyPtr -> ProxyFunction.t)
           (cf : CoefficientFunction) (fel : FiniteElement)
           (mir : BaseMappedIntegrationRule) (proxy1 proxy2 : ProxyPtr) (a b : nat) : R :=
  if sub_mask (UsedDofs (Evaluator store proxy2) fel)
              (UsedDofs (Evaluator store proxy1) fel) a b
  then
    sum_n (mir_Size mir)
          (fun i =>
             sum_n (Dimension store proxy2)
                   (fun l =>
                      CalcMatrix (Evaluator store proxy2) fel (mir_at mir i) l a
                      * sum_n (Dimension store proxy1)
                              (fun k =>
                                 pair_value cf mir proxy1 k proxy2 l i
                                 * GetWeight (mir_at mir i)
                                 * CalcMatrix (Evaluator store proxy1) fel (mir_at mir i) k b)))
  else 0.

(** what the element-boundary path adds to an entry inside the matrix
    for one proxy pair at one facet point *)
Definition eb_pair_entry (store : ProxyPtr -> ProxyFunction.t)
           (cf : CoefficientFunction) (fel : FiniteElement) (weight len : R)
           (mip : BaseMappedIntegrationPoint) (proxy1 proxy2 : ProxyPtr) (a b : nat) : R :=
  sum_n (Dimension store proxy2)
        (fun l =>
           CalcMatrix (Evaluator store proxy2) fel mip l a
           * sum_n (Dimension store proxy1)
                   (fun k =>
                      weight * len
                      * cf_Evaluate cf (seed_pair ProxyUserData.fresh proxy1 k proxy2 l)
                                    mip 0%nat
                      * CalcMatrix (Evaluator store proxy1) fel mip k b)).

(** the expression evaluates to zero in the context of bilinear assembly
    whenever the seeded trial proxy or the seeded test proxy is not one
    of its own *)
Definition vanishes_off_proxies (store : ProxyPtr -> ProxyFunction.t)
           (cf : CoefficientFunction) (trial test : list ProxyPtr) : Prop :=
  forall proxy1 k proxy2 l,
    IsTestFunction store proxy1 = false -> IsTestFunction store proxy2 = true ->
    ~ In proxy1 trial \/ ~ In proxy2 test ->
    (forall mip,
        cf_Evaluate cf (seed_pair ProxyUserData.fresh proxy1 k proxy2 l) mip 0%nat = 0)
    /\ (forall mir i,
           cf_EvaluateIR cf (seed_pair ProxyUserData.fresh proxy1 k proxy2 l) mir i 0%nat = 0).

(** the state of the loops of the element-boundary path: a context with
    nothing pinned and a matrix of the shape [h] x [w] of the output *)
Definition eb_state (h w : nat) (st : ProxyUserData.t * FlatMatrix) : Prop :=
  same_pin (fst st) ProxyUserData.fresh /\ Height (snd st) = h /\ Width (snd st) = w.

(** ** Concrete elements, operators and expressions *)

(** a finite element with one dof *)
Definition fel1 : FiniteElement := {| GetNDof := 1%nat; Order := 1%nat |}.

(** a mapped point of weight [w] *)
Definition point_of_weight (w : R) : BaseMappedIntegrationPoint :=
  {| ip_nr := 0%nat; GetWeight := w; GetMeasure := w;
     GetJacobianInverse := fun i j => if (i =? j)%nat then 1 else 0;
     GetNV := fun _ => 0 |}.

(** the rule with the single point [mip] *)
Definition one_point_rule (mip : BaseMappedIntegrationPoint) : BaseMappedIntegrationRule :=
  {| mir_Size := 1%nat; mir_at := fun _ => mip |}.

(** the scalar identity operator on the first dof: the basis matrix is
    [1], the value of the field is the dof, and the transpose sums the
    point values into the dof *)
Definition id_diffop : DifferentialOperator :=
  {| Dim := 1%nat; BlockDim := 1%nat; DiffOrder := 0%nat;
     UsedDofs := fun fel => {| First := 0%nat; Next := GetNDof fel |};
     CalcMatrix := fun _ _ k d => if (k =? 0)%nat && (d =? 0)%nat then 1 else 0;
     Apply := fun _ _ x c => if (c =? 0)%nat then x 0%nat else 0;
     ApplyIR := fun _ _ x _ c => if (c =? 0)%nat then x 0%nat else 0;
     ApplyTrans := fun _ mir values d =>
       if (d =? 0)%nat then sum_n (mir_Size mir) (fun i => values i 0%nat) else 0 |}.

(** every address holds a trial proxy bound to the identity operator *)
Definition trial_store : ProxyPtr -> ProxyFunction.t :=
  fun _ => {| ProxyFunction.testfunction := false; ProxyFunction.evaluator := id_diffop |}.

(** address 0 holds a trial proxy, every other address a test proxy *)
Definition mass_store : ProxyPtr -> ProxyFunction.t :=
  fun p => {| ProxyFunction.testfunction := negb (p =? 0)%nat;
              ProxyFunction.evaluator := id_diffop |}.

(** the dof vector [x] of one dof *)
Definition dofs1 (x : R) : FlatVector := {| Size := 1%nat; vdata := fun _ => x |}.

(** a context pinned to [fel1] with dof value 7 in which proxy 0 is the
    active trial proxy *)
Definition ud_pinned_seeded : ProxyUserData.t :=
  ProxyUserData.set_trial (ProxyUserData.pin ProxyUserData.fresh fel1 (dofs1 7)) 0%nat 0%nat.

(** a context in which proxy 0 is the active test proxy, component 0 *)
Definition ud_test_seeded : ProxyUserData.t :=
  ProxyUserData.set_test ProxyUserData.fresh 0%nat 0%nat.

(** an [h] x [w] matrix and a vector of [n] entries holding [x] everywhere *)
Definition const_matrix (h w : nat) (x : R) : FlatMatrix :=
  {| Height := h; Width := w; mdata := fun _ _ => x |}.
Definition const_vector (n : nat) (x : R) : FlatVector :=
  {| Size := n; vdata := fun _ => x |}.

(** the tensor with every coefficient 1 *)
Definition ones : Tensor3 := fun _ _ _ => 1.

(** a finite element with two dofs *)
Definition fel2 : FiniteElement := {| GetNDof := 2%nat; Order := 1%nat |}.

(** the transformation whose rules all consist of one point of weight [w] *)
Definition one_point_trafo (w : R) : ElementTransformation :=
  {| SpaceDim := 1%nat; GetElementType := 1%nat;
     MapRule := fun _ => one_point_rule (point_of_weight w);
     MapFacetRule := fun _ _ => one_point_rule (point_of_weight w) |}.

(** the square of the proxy at address [p] *)
Definition square_of (store : ProxyPtr -> ProxyFunction.t) (p : ProxyPtr)
  : CoefficientFunction :=
  MultCF (ProxyCF store p) (ProxyCF store p).

(** the product of the trial proxy at address 0 and the test proxy at
    address 1: the integrand of the mass form *)
Definition mass_integrand : CoefficientFunction :=
  MultCF (ProxyCF mass_store 0%nat) (ProxyCF mass_store 1%nat).

Definition mass_bfi (eb : bool) : SymbolicBilinearFormIntegrator :=
  {| bfi_cf := mass_integrand; bfi_vb := VOL; element_boundary := eb;
     bfi_trial_proxies := [0%nat]; bfi_test_proxies := [1%nat] |}.

Definition square_energy (store : ProxyPtr -> ProxyFunction.t) : SymbolicEnergy :=
  {| en_cf := square_of store 0%nat; en_vb := VOL; trial_proxies := [0%nat] |}.

(** the linear form of the test proxy at address 1 *)
Definition load_lfi : SymbolicLinearFormIntegrator :=
  {| lfi_cf := ProxyCF mass_store 1%nat; lfi_vb := VOL; proxies := [1%nat] |}.

(** reference topology with one facet, unit normals and unit facet weights *)
Definition one_facet : ELEMENT_TYPE -> nat := fun _ => 1%nat.
Definition unit_normals : nat -> ELEMENT_TYPE -> nat -> Vec :=
  fun _ _ _ r => if (r =? 0)%nat then 1 else 0.
Definition unit_facet_weight : ELEMENT_TYPE -> nat -> nat -> nat -> R := fun _ _ _ _ => 1.

(** the energy density 0.5 u^2 of the scalar proxy at address 0 *)
Definition half_square : CoefficientFunction :=
  MultCF (ConstantCF 0.5) (square_of trial_store 0%nat).

Definition half_square_energy : SymbolicEnergy :=
  {| en_cf := half_square; en_vb := VOL; trial_proxies := [0%nat] |}.

(** the 1 x 1 matrix A = (1), the density u^T A u = u^2 of the scalar proxy
    at address 0, and the context pinned at the dof value 3 *)
Definition unit_A : nat -> nat -> R := fun _ _ => 1.
Definition unit_quadratic : SymbolicEnergy := quadratic_energy trial_store unit_A 1 0%nat.
Definition unit_rule : BaseMappedIntegrationRule := one_point_rule (point_of_weight 1).
Definition unit_context : ProxyUserData.t :=
  lin_context trial_store unit_quadratic fel1 unit_rule (dofs1 3).

(** the first unit vector, a reference normal *)
Definition e0 : Vec := fun r => if (r =? 0)%nat then 1 else 0.

(** the matrix an assembly returned *)
Definition returned (r : Exceptional FlatMatrix) : FlatMatrix :=
  match r with
  | Return m => m
  | Throw _ => const_matrix 0 0 0
  end.

(** the integrators of the sum of the mass integrand with itself, of the
    constant 1, and of the sum of the constant 1 and the mass integrand *)
Definition double_mass_bfi : SymbolicBilinearFormIntegrator :=
  {| bfi_cf := AddCF mass_integrand mass_integrand; bfi_vb := VOL;
     element_boundary := false;
     bfi_trial_proxies := [0%nat]; bfi_test_proxies := [1%nat] |}.

Definition constant_bfi : SymbolicBilinearFormIntegrator :=
  {| bfi_cf := ConstantCF 1; bfi_vb := VOL; element_boundary := false;
     bfi_trial_proxies := []; bfi_test_proxies := [] |}.

Definition shifted_mass_bfi : SymbolicBilinearFormIntegrator :=
  {| bfi_cf := AddCF (ConstantCF 1) mass_integrand; bfi_vb := VOL;
     element_boundary := false;
     bfi_trial_proxies := [0%nat]; bfi_test_proxies := [1%nat] |}.


(** the mass integrand with the trial proxy at address 0 and the test
    proxies listed in [tests] *)
Definition mass_bfi_with_tests (tests : list ProxyPtr) : SymbolicBilinearFormIntegrator :=
  {| bfi_cf := mass_integrand; bfi_vb := VOL; element_boundary := false;
     bfi_trial_proxies := [0%nat]; bfi_test_proxies := tests |}.

(** the context in which the test seed and the trial seed have changed
    places *)
Definition swap_seeds (ud : ProxyUserData.t) : ProxyUserData.t :=
  {| ProxyUserData.testfunction := ProxyUserData.trialfunction ud;
     ProxyUserData.test_comp := ProxyUserData.trial_comp ud;
     ProxyUserData.trialfunction := ProxyUserData.testfunction ud;
     ProxyUserData.trial_comp := ProxyUserData.test_comp ud;
     ProxyUserData.fel := ProxyUserData.fel ud;
     ProxyUserData.elx := ProxyUserData.elx ud;
     ProxyUserData.remember := ProxyUserData.remember ud |}.

(** the transposed application of the operator of [proxy] reads its
    argument only inside the buffer the callers pass: one row per point of
    the rule, one column per component of the proxy *)
Definition transpose_reads_buffer (store : ProxyPtr -> ProxyFunction.t)
           (fel : FiniteElement) (proxy : ProxyPtr) : Prop :=
  forall mir (values values' : Mat),
    (forall i k, (i < mir_Size mir)%nat -> (k < Dimension store proxy)%nat ->
                 values i k = values' i k) ->
    forall d,
      ApplyTrans (Evaluator store proxy) fel mir values d
      = ApplyTrans (Evaluator store proxy) fel mir values' d.

(** the second derivative of the expression [cf] does not change when
    the test seed and the trial seed change places *)
Definition seed_symmetric (cf : CoefficientFunction) : Prop :=
  forall ud mir i,
    snd (cf_EvaluateDDeriv cf ud mir) i 0%nat
    = snd (cf_EvaluateDDeriv cf (swap_seeds ud) mir) i 0%nat.
(** ** Properties of the proxy protocol *)

(** evaluation of the model on concrete data, the real numbers kept as they are *)
Ltac run_model :=
  cbv - [Rplus Rmult Rminus Ropp Rinv Rdiv IZR sqrt Rle Rlt Rge Rgt].


Section ProxyFacts.

Variable store : ProxyPtr -> ProxyFunction.t.

Lemma raises_Return {A : Type} (a : A) : ~ raises (Return a).
Proof. intros [what H]. discriminate H. Qed.

Lemma raises_Throw {A : Type} (what : string) : raises (@Throw A what).
Proof. exists what. reflexivity. Qed.

Lemma Evaluate_raises_iff (this : ProxyPtr) (userdata : option ProxyUserData.t)
      (mip : BaseMappedIntegrationPoint) :
  raises (Evaluate store this userdata mip) <-> userdata = None.
Proof.
  destruct userdata as [ud|]; simpl; split; intro H.
  - exfalso. exact (raises_Return H).
  - discriminate H.
  - reflexivity.
  - apply raises_Throw.
Qed.

Lemma Evaluate_ud_unseeded_unpinned (this : ProxyPtr) (ud : ProxyUserData.t)
      (mip : BaseMappedIntegrationPoint) :
  seeded this ud = false -> pinned ud = false ->
  forall c, Evaluate_ud store this ud mip c = 0.
Proof.
  unfold seeded, pinned, Evaluate_ud. intros Hs Hp c.
  apply orb_false_elim in Hs. destruct Hs as [Ht Hr].
  rewrite Ht, Hr.
  destruct (ProxyUserData.fel ud); [discriminate Hp|].
  destruct (negb (IsTestFunction store this)); reflexivity.
Qed.

Lemma Evaluate_ud_pinned (this : ProxyPtr) (ud : ProxyUserData.t)
      (mip : BaseMappedIntegrationPoint) (fel : FiniteElement) :
  IsTestFunction store this = false -> ProxyUserData.fel ud = Some fel ->
  Evaluate_ud store this ud mip
  = Apply (Evaluator store this) fel mip (ProxyUserData.elx ud).
Proof.
  unfold Evaluate_ud. intros Ht Hf. rewrite Ht, Hf. reflexivity.
Qed.

Lemma Evaluate_ud_marks (this : ProxyPtr) (ud : ProxyUserData.t)
      (mip : BaseMappedIntegrationPoint) :
  IsTestFunction store this = true \/ ProxyUserData.fel ud = None ->
  forall c,
    Evaluate_ud store this ud mip c
    = if (ptr_is (ProxyUserData.testfunction ud) this
          && (c =? ProxyUserData.test_comp ud)%nat)
         || (ptr_is (ProxyUserData.trialfunction ud) this
             && (c =? ProxyUserData.trial_comp ud)%nat)
      then 1 else 0.
Proof.
  unfold Evaluate_ud. intros H c.
  assert (E : match negb (IsTestFunction store this), ProxyUserData.fel ud with
              | true, Some _ => False
              | _, _ => True
              end).
  { destruct H as [H|H]; rewrite H; simpl; auto.
    destruct (negb (IsTestFunction store this)); auto. }
  destruct (negb (IsTestFunction store this)), (ProxyUserData.fel ud);
    try contradiction;
    destruct (ptr_is (ProxyUserData.testfunction ud) this),
             (ptr_is (ProxyUserData.trialfunction ud) this);
    unfold vset; simpl;
    destruct (c =? ProxyUserData.test_comp ud)%nat,
             (c =? ProxyUserData.trial_comp ud)%nat; reflexivity.
Qed.

End ProxyFacts.

(** ** The proxy protocol: the claims *)

(** C3, as the code has it.  [ProxyFunction::Evaluate] raises exactly
    when no context is attached to the transformation; with a context
    attached that holds neither a seed for the proxy nor a pinned
    element it returns the zero vector. *)
Theorem Evaluate_raises_iff_detached
        (store : ProxyPtr -> ProxyFunction.t) (this : ProxyPtr)
        (userdata : option ProxyUserData.t) (mip : BaseMappedIntegrationPoint) :
  (raises (Evaluate store this userdata mip) <-> userdata = None)
  /\ (forall ud, userdata = Some ud ->
                 seeded this ud = false -> pinned ud = false ->
                 exists v, Evaluate store this userdata mip = Return v
                           /\ forall c, v c = 0).
Proof.
  split.
  - apply Evaluate_raises_iff.
  - intros ud -> Hs Hp. exists (Evaluate_ud store this ud mip). split.
    + reflexivity.
    + apply Evaluate_ud_unseeded_unpinned; assumption.
Qed.

Lemma Evaluate_raises_iff_detached_witness :
  raises (Evaluate trial_store 0%nat None (point_of_weight 1))
  /\ exists v, Evaluate trial_store 0%nat (Some ProxyUserData.fresh) (point_of_weight 1)
               = Return v /\ forall c, v c = 0.
Proof.
  split.
  - apply (proj1 (Evaluate_raises_iff_detached trial_store 0%nat None (point_of_weight 1))).
    reflexivity.
  - apply (proj2 (Evaluate_raises_iff_detached
                    trial_store 0%nat (Some ProxyUserData.fresh) (point_of_weight 1))
                 ProxyUserData.fresh); reflexivity.
Defined.

(** C3 as stated fails: with a context attached that has no seed and no
    pinned element, the evaluation does not raise. *)
Lemma Evaluate_silent_without_seed_and_pin :
  no_seed_no_pin 0%nat (Some ProxyUserData.fresh)
  /\ ~ raises (Evaluate trial_store 0%nat (Some ProxyUserData.fresh) (point_of_weight 1)).
Proof.
  split.
  - split; reflexivity.
  - apply raises_Return.
Qed.

(** C4, as the code has it.  [ProxyFunction::EvaluateDDeriv] leaves the
    second-derivative array at zero and writes the marks of the active
    test and trial seed, both when the proxy is active as both, into the
    first-derivative array [deriv]. *)
Theorem EvaluateDDeriv_marks_in_deriv
        (store : ProxyPtr -> ProxyFunction.t) (this : ProxyPtr)
        (ud : ProxyUserData.t) (mir : BaseMappedIntegrationRule) :
  exists result deriv dderiv,
    EvaluateDDeriv store this (Some ud) mir = Return (result, deriv, dderiv)
    /\ (forall i c, dderiv i c = 0)
    /\ (forall i c,
           deriv i c
           = if (ptr_is (ProxyUserData.testfunction ud) this
                 && (c =? ProxyUserData.test_comp ud)%nat)
                || (ptr_is (ProxyUserData.trialfunction ud) this
                    && (c =? ProxyUserData.trial_comp ud)%nat)
             then 1 else 0).
Proof.
  unfold EvaluateDDeriv, EvaluateDDeriv_ud.
  eexists _, _, _. split; [reflexivity|]. split; [reflexivity|].
  intros i c.
  destruct (ptr_is (ProxyUserData.testfunction ud) this),
           (ptr_is (ProxyUserData.trialfunction ud) this);
    unfold set_col; simpl;
    destruct (c =? ProxyUserData.test_comp ud)%nat,
             (c =? ProxyUserData.trial_comp ud)%nat; reflexivity.
Qed.

(** C4 as stated fails: for the proxy seeded as test function, component
    0, the column 0 of [dderiv] is 0, and the mark is in [deriv]. *)
Lemma EvaluateDDeriv_dderiv_unmarked :
  exists result deriv dderiv,
    EvaluateDDeriv trial_store 0%nat (Some ud_test_seeded) (one_point_rule (point_of_weight 1))
    = Return (result, deriv, dderiv)
    /\ dderiv 0%nat 0%nat <> 1 /\ deriv 0%nat 0%nat = 1.
Proof.
  eexists _, _, _. split; [reflexivity|]. simpl. split.
  - intro H. lra.
  - reflexivity.
Qed.

(** C5, as the code has it.  With a context attached, a proxy that is
    not a test function and finds an element pinned applies its operator
    to the pinned dofs, whether it is seeded or not; any other proxy
    gets zero with a 1 at the test component if it is the active test
    proxy and a 1 at the trial component if it is the active trial
    proxy, hence zero if neither a seed nor a pin applies. *)
Theorem Evaluate_pinned_before_seed
        (store : ProxyPtr -> ProxyFunction.t) (this : ProxyPtr)
        (ud : ProxyUserData.t) (mip : BaseMappedIntegrationPoint) :
  exists v,
    Evaluate store this (Some ud) mip = Return v
    /\ (forall fel, IsTestFunction store this = false ->
                    ProxyUserData.fel ud = Some fel ->
                    v = Apply (Evaluator store this) fel mip (ProxyUserData.elx ud))
    /\ (IsTestFunction store this = true \/ ProxyUserData.fel ud = None ->
        forall c,
          v c = if (ptr_is (ProxyUserData.testfunction ud) this
                    && (c =? ProxyUserData.test_comp ud)%nat)
                   || (ptr_is (ProxyUserData.trialfunction ud) this
                       && (c =? ProxyUserData.trial_comp ud)%nat)
                then 1 else 0)
    /\ (seeded this ud = false -> pinned ud = false -> forall c, v c = 0).
Proof.
  exists (Evaluate_ud store this ud mip). split; [reflexivity|].
  split; [|split].
  - intros fel Ht Hf. apply Evaluate_ud_pinned; assumption.
  - apply Evaluate_ud_marks.
  - apply Evaluate_ud_unseeded_unpinned.
Qed.

Lemma Evaluate_pinned_before_seed_witness :
  exists v,
    Evaluate trial_store 0%nat (Some ud_pinned_seeded) (point_of_weight 1) = Return v
    /\ v = Apply id_diffop fel1 (point_of_weight 1) (dofs1 7).
Proof.
  destruct (Evaluate_pinned_before_seed trial_store 0%nat ud_pinned_seeded (point_of_weight 1))
    as [v [Hv [Hpin _]]].
  exists v. split; [exact Hv|].
  apply (Hpin fel1); reflexivity.
Defined.

(** C5 as stated fails: the active trial proxy of a context with a pinned
    element evaluates to the pinned field value 7, not to the one-hot
    vector of its seed. *)
Lemma Evaluate_seeded_proxy_not_one_hot :
  seeded 0%nat ud_pinned_seeded = true
  /\ exists v,
      Evaluate trial_store 0%nat (Some ud_pinned_seeded) (point_of_weight 1) = Return v
      /\ v 0%nat = 7
      /\ v 0%nat <> one_hot (ProxyUserData.trial_comp ud_pinned_seeded) 0%nat.
Proof.
  split; [reflexivity|].
  eexists. split; [reflexivity|]. split.
  - reflexivity.
  - run_model. lra.
Qed.

(** ** Sums *)

Lemma sum_n_ext (n : nat) (f g : nat -> R) :
  (forall i, (i < n)%nat -> f i = g i) -> sum_n n f = sum_n n g.
Proof.
  induction n as [|n IH]; intros H; simpl.
  - reflexivity.
  - rewrite IH by (intros i Hi; apply H; lia). rewrite (H n) by lia. reflexivity.
Qed.

Lemma sum_n_zero (n : nat) (f : nat -> R) :
  (forall i, (i < n)%nat -> f i = 0) -> sum_n n f = 0.
Proof.
  induction n as [|n IH]; intros H; simpl.
  - reflexivity.
  - rewrite IH by (intros i Hi; apply H; lia). rewrite (H n) by lia. lra.
Qed.

Lemma sum_n_plus (n : nat) (f g : nat -> R) :
  sum_n n (fun i => f i + g i) = sum_n n f + sum_n n g.
Proof.
  induction n as [|n IH]; simpl.
  - lra.
  - rewrite IH. lra.
Qed.

Lemma sum_n_scal_l (n : nat) (c : R) (f : nat -> R) :
  sum_n n (fun i => c * f i) = c * sum_n n f.
Proof.
  induction n as [|n IH]; simpl.
  - lra.
  - rewrite IH. lra.
Qed.

Lemma sum_n_scal_r (n : nat) (c : R) (f : nat -> R) :
  sum_n n (fun i => f i * c) = sum_n n f * c.
Proof.
  induction n as [|n IH]; simpl.
  - lra.
  - rewrite IH. lra.
Qed.

Lemma sum_n_app (n m : nat) (f : nat -> R) :
  sum_n (n + m) f = sum_n n f + sum_n m (fun l => f (n + l)%nat).
Proof.
  induction m as [|m IH]; simpl.
  - rewrite Nat.add_0_r. lra.
  - rewrite Nat.add_succ_r. simpl. rewrite IH. lra.
Qed.

Lemma sum_n_swap (n m : nat) (f : nat -> nat -> R) :
  sum_n n (fun i => sum_n m (fun j => f i j))
  = sum_n m (fun j => sum_n n (fun i => f i j)).
Proof.
  induction n as [|n IH]; simpl.
  - symmetry. apply sum_n_zero. reflexivity.
  - rewrite IH. rewrite <- sum_n_plus. reflexivity.
Qed.

(** the only non-zero term of a sum *)
Lemma sum_n_single (n k : nat) (f : nat -> R) :
  (k < n)%nat -> (forall i, (i < n)%nat -> i <> k -> f i = 0) ->
  sum_n n f = f k.
Proof.
  induction n as [|n IH]; intros Hk H.
  - lia.
  - simpl. destruct (Nat.eq_dec k n) as [->|Hne].
    + rewrite sum_n_zero; [lra|]. intros i Hi. apply H; lia.
    + rewrite IH by (try lia; intros i Hi Hik; apply H; lia).
      rewrite (H n) by lia. lra.
Qed.

(** ** Loops *)

Lemma for_S {S : Type} (n : nat) (body : nat -> S -> S) (s : S) :
  for_ (Datatypes.S n) body s = body n (for_ n body s).
Proof. reflexivity. Qed.

(** an invariant of a counted loop *)
Lemma for_invariant {S : Type} (P : nat -> S -> Prop) (n : nat)
      (body : nat -> S -> S) (s : S) :
  P 0%nat s ->
  (forall i st, (i < n)%nat -> P i st -> P (Datatypes.S i) (body i st)) ->
  P n (for_ n body s).
Proof.
  intros H0 Hstep. induction n as [|n IH].
  - exact H0.
  - simpl. apply Hstep; [lia|]. apply IH. intros i st Hi. apply Hstep. lia.
Qed.

(** an invariant of a loop over a list *)
Lemma for_each_invariant {A S : Type} (P : S -> Prop) (xs : list A)
      (body : A -> S -> S) (s : S) :
  P s -> (forall x st, In x xs -> P st -> P (body x st)) -> P (for_each xs body s).
Proof.
  unfold for_each. revert s. induction xs as [|x xs IH]; intros s H0 Hstep; simpl.
  - exact H0.
  - apply IH.
    + apply Hstep; [left; reflexivity|exact H0].
    + intros y st Hy. apply Hstep. right. exact Hy.
Qed.

(** a loop over a list that adds [g x] to a tracked value *)
Lemma for_each_accumulate {A S : Type} (I : S -> Prop) (val : S -> R) (g : A -> R)
      (xs : list A) (body : A -> S -> S) (s : S) :
  I s ->
  (forall x st, In x xs -> I st -> I (body x st) /\ val (body x st) = val st + g x) ->
  I (for_each xs body s) /\ val (for_each xs body s) = val s + sum_list xs g.
Proof.
  unfold for_each. revert s. induction xs as [|x xs IH]; intros s Hs Hstep; simpl.
  - split; [exact Hs|lra].
  - destruct (Hstep x s (or_introl eq_refl) Hs) as [Hs' Hval].
    destruct (IH (body x s) Hs') as [HI Hv].
    + intros y st Hy. apply Hstep. right. exact Hy.
    + split; [exact HI|]. rewrite Hv, Hval. lra.
Qed.

(** a counted loop that adds [g i] to a tracked value *)
Lemma for_accumulate {S : Type} (I : S -> Prop) (val : S -> R) (g : nat -> R)
      (n : nat) (body : nat -> S -> S) (s : S) :
  I s ->
  (forall i st, (i < n)%nat -> I st -> I (body i st) /\ val (body i st) = val st + g i) ->
  I (for_ n body s) /\ val (for_ n body s) = val s + sum_n n g.
Proof.
  intros Hs Hstep. induction n as [|n IH]; simpl.
  - split; [exact Hs|lra].
  - destruct IH as [HI Hv].
    + intros i st Hi. apply Hstep. lia.
    + destruct (Hstep n (for_ n body s) (Nat.lt_succ_diag_r n) HI) as [HI' Hv'].
      split; [exact HI'|]. rewrite Hv', Hv. lra.
Qed.

(** with a positive block size the loop over full blocks leaves by its
    condition: more fuel than points changes nothing *)
Lemma full_blocks_fuel {S : Type} (bs n : nat) (body : nat -> S -> S) :
  (0 < bs)%nat ->
  forall fuel fuel' i s,
    (n <= i + fuel)%nat -> (n <= i + fuel')%nat ->
    full_blocks bs n body fuel i s = full_blocks bs n body fuel' i s.
Proof.
  intros Hbs. induction fuel as [|fuel IH]; intros fuel' i s H H'.
  - destruct fuel' as [|fuel']; simpl; [reflexivity|].
    destruct (Nat.leb_spec (i + bs) n); [lia|reflexivity].
  - simpl. destruct (Nat.leb_spec (i + bs) n) as [Hle|Hgt].
    + destruct fuel' as [|fuel']; [lia|]. simpl.
      destruct (Nat.leb_spec (i + bs) n); [|lia].
      apply IH; lia.
    + destruct fuel' as [|fuel']; simpl; [reflexivity|].
      destruct (Nat.leb_spec (i + bs) n); [lia|reflexivity].
Qed.

(** where the loop over full blocks stops *)
Lemma full_blocks_index {S : Type} (bs n : nat) (body : nat -> S -> S) :
  forall fuel i s,
    (i <= n)%nat ->
    exists q, fst (full_blocks bs n body fuel i s) = (i + q * bs)%nat
              /\ (i + q * bs <= n)%nat.
Proof.
  induction fuel as [|fuel IH]; intros i s Hi; simpl.
  - exists 0%nat. simpl. split; lia.
  - destruct (Nat.leb_spec (i + bs) n) as [Hle|Hgt].
    + destruct (IH (i + bs)%nat (body i s) Hle) as [q [Hq Hn]].
      exists (Datatypes.S q). rewrite Hq. simpl. split; lia.
    + exists 0%nat. simpl. split; lia.
Qed.

(** ** Accumulation into the element matrix *)

Lemma accumulates_nothing (mask : nat -> nat -> bool) (m : FlatMatrix) (p : Mat) :
  (forall a b, p a b = 0) -> accumulates mask m m p.
Proof.
  intros H. split; [reflexivity|]. split; [reflexivity|].
  intros a b. rewrite H. destruct (mask a b); lra.
Qed.

Lemma accumulates_trans (mask : nat -> nat -> bool) (m m' m'' : FlatMatrix) (p q : Mat) :
  accumulates mask m m' p -> accumulates mask m' m'' q ->
  accumulates mask m m'' (fun a b => p a b + q a b).
Proof.
  intros [Hh [Hw Hp]] [Hh' [Hw' Hq]].
  split; [congruence|]. split; [congruence|].
  intros a b. rewrite Hq, Hp. destruct (mask a b); lra.
Qed.

Lemma accumulates_ext (mask : nat -> nat -> bool) (m m' : FlatMatrix) (p q : Mat) :
  (forall a b, mask a b = true -> p a b = q a b) ->
  accumulates mask m m' p -> accumulates mask m m' q.
Proof.
  intros E [Hh [Hw Hp]]. split; [exact Hh|]. split; [exact Hw|].
  intros a b. rewrite Hp. destruct (mask a b) eqn:Hm; [|reflexivity].
  rewrite E by exact Hm. reflexivity.
Qed.

(** a counted loop whose body adds [term i] under the mask adds the sum
    of the terms *)
Lemma for_accumulates (mask : nat -> nat -> bool) (h w : nat) (term : nat -> Mat)
      (body : nat -> FlatMatrix -> FlatMatrix) (n : nat) (m : FlatMatrix) :
  Height m = h -> Width m = w ->
  (forall i m0, Height m0 = h -> Width m0 = w ->
                accumulates mask m0 (body i m0) (term i)) ->
  accumulates mask m (for_ n body m) (fun a b => sum_n n (fun i => term i a b)).
Proof.
  intros Hh Hw Hbody. induction n as [|n IH].
  - apply accumulates_nothing. reflexivity.
  - simpl. eapply accumulates_ext; [|eapply accumulates_trans; [exact IH|]].
    + intros a b _. simpl. reflexivity.
    + destruct IH as [Hh' [Hw' _]]. apply Hbody; congruence.
Qed.

(** the loop over full blocks adds the terms of the points it covers *)
Lemma full_blocks_accumulates (mask : nat -> nat -> bool) (h w : nat)
      (term : nat -> Mat) (bs n : nat) (body : nat -> FlatMatrix -> FlatMatrix) :
  (forall i m0, Height m0 = h -> Width m0 = w ->
                accumulates mask m0 (body i m0)
                            (fun a b => sum_n bs (fun j => term (i + j)%nat a b))) ->
  forall fuel i m,
    Height m = h -> Width m = w ->
    exists q,
      fst (full_blocks bs n body fuel i m) = (i + q)%nat
      /\ accumulates mask m (snd (full_blocks bs n body fuel i m))
                     (fun a b => sum_n q (fun j => term (i + j)%nat a b)).
Proof.
  intros Hbody. induction fuel as [|fuel IH]; intros i m Hh Hw; simpl.
  - exists 0%nat. split; [simpl; lia|]. apply accumulates_nothing. reflexivity.
  - destruct (Nat.leb_spec (i + bs) n) as [Hle|Hgt].
    + pose proof (Hbody i m Hh Hw) as Hb.
      destruct Hb as [Hh' [Hw' Hb]].
      destruct (IH (i + bs)%nat (body i m)) as [q [Hq Hacc]]; try congruence.
      exists (bs + q)%nat. split; [rewrite Hq; lia|].
      eapply accumulates_ext;
        [|eapply accumulates_trans; [split; [exact Hh'|split; [exact Hw'|exact Hb]]|exact Hacc]].
      intros a b _. simpl. rewrite sum_n_app.
      f_equal. apply sum_n_ext. intros j _. f_equal. lia.
    + exists 0%nat. split; [simpl; lia|]. apply accumulates_nothing. reflexivity.
Qed.

(** ** The blocked contraction *)

Section Contraction.

Variable store : ProxyPtr -> ProxyFunction.t.
Variable fel : FiniteElement.
Variable mir : BaseMappedIntegrationRule.
Variables proxy1 proxy2 : ProxyPtr.
Variable proxyvalues : Tensor3.

Local Abbreviation dim2 := (Dimension store proxy2).
Local Abbreviation term := (point_term store fel mir proxy1 proxy2 proxyvalues).

Lemma in_range_block (d j t : nat) :
  in_range (scale_range d {| First := j; Next := j + 1 |}) t = true
  <-> (j * d <= t < j * d + d)%nat.
Proof.
  unfold in_range, scale_range. simpl.
  rewrite andb_true_iff, Nat.leb_le, Nat.ltb_lt. nia.
Qed.

(** the product of the two tall matrices of a block is the sum of the
    per-point products of its points *)
Lemma stack_block_product (i count a b : nat) :
  sum_n (count * dim2)
        (fun t => snd (stack_block store fel mir proxy1 proxy2 proxyvalues i count) t a
                  * fst (stack_block store fel mir proxy1 proxy2 proxyvalues i count) t b)
  = sum_n count (fun j => term (i + j)%nat a b).
Proof.
  induction count as [|count IH].
  - reflexivity.
  - unfold stack_block in *. rewrite for_S.
    destruct (for_ count _ _) as [bd bb] eqn:E. simpl fst in *. simpl snd in *.
    replace (Datatypes.S count * dim2)%nat with (count * dim2 + dim2)%nat by lia.
    rewrite sum_n_app. simpl sum_n at 3. rewrite <- IH. f_equal.
    + apply sum_n_ext. intros t Ht. unfold assign_rows.
      destruct (in_range _ t) eqn:Hr; [|reflexivity].
      apply in_range_block in Hr. lia.
    + unfold point_term, mat_mult at 1, Trans.
      apply sum_n_ext. intros l Hl. unfold assign_rows.
      destruct (in_range _ (count * dim2 + l)) eqn:Hr.
      * unfold scale_range. simpl First.
        replace (count * dim2 + l - dim2 * count)%nat with l by lia. reflexivity.
      * assert (H : in_range (scale_range dim2 {| First := count; Next := count + 1 |})
                             (count * dim2 + l) = true)
          by (apply in_range_block; lia).
        rewrite H in Hr. discriminate Hr.
Qed.

Lemma volume_block_accumulates (count i : nat) (elmat : FlatMatrix) :
  accumulates
    (sub_mask (UsedDofs (Evaluator store proxy2) fel) (UsedDofs (Evaluator store proxy1) fel))
    elmat
    (volume_block store fel mir proxy1 proxy2 proxyvalues count i elmat)
    (fun a b => sum_n count (fun j => term (i + j)%nat a b)).
Proof.
  unfold volume_block.
  pose proof (fun a b => stack_block_product i count a b) as P.
  destruct (stack_block store fel mir proxy1 proxy2 proxyvalues i count) as [bd bb].
  simpl fst in P. simpl snd in P.
  split; [reflexivity|]. split; [reflexivity|].
  intros a b. unfold madd_sub, sub_mask. simpl.
  destruct (in_range _ a && in_range _ b) eqn:Hm; [|reflexivity].
  f_equal. rewrite <- P. unfold mat_mult, Trans, Cols.
  apply andb_true_iff in Hm. destruct Hm as [Ha Hb].
  unfold in_range in Ha, Hb. apply andb_true_iff in Ha, Hb.
  destruct Ha as [Ha _], Hb as [Hb _]. apply Nat.leb_le in Ha, Hb.
  apply sum_n_ext. intros t _. f_equal; f_equal; lia.
Qed.

Lemma hessian_block_accumulates (count i : nat) (elmat : FlatMatrix) :
  accumulates (full_mask (Height elmat) (Width elmat)) elmat
              (hessian_block store fel mir proxy1 proxy2 proxyvalues count i elmat)
              (fun a b => sum_n count (fun j => term (i + j)%nat a b)).
Proof.
  unfold hessian_block.
  pose proof (fun a b => stack_block_product i count a b) as P.
  destruct (stack_block store fel mir proxy1 proxy2 proxyvalues i count) as [bd bb].
  simpl fst in P. simpl snd in P.
  split; [reflexivity|]. split; [reflexivity|].
  intros a b. unfold madd, full_mask. simpl.
  destruct ((a <? Height elmat)%nat && (b <? Width elmat)%nat); [|reflexivity].
  f_equal. rewrite <- P. reflexivity.
Qed.

(** blocks of [bs] points followed by the remaining points: every point
    of the rule is added once *)
Lemma blocked_accumulates (mask : nat -> nat -> bool) (bs : nat)
      (block : nat -> nat -> FlatMatrix -> FlatMatrix) (elmat : FlatMatrix) :
  (forall count i m0,
      Height m0 = Height elmat -> Width m0 = Width elmat ->
      accumulates mask m0 (block count i m0)
                  (fun a b => sum_n count (fun j => term (i + j)%nat a b))) ->
  accumulates mask elmat
    (let (i, m) := full_blocks bs (mir_Size mir) (block bs) (mir_Size mir) 0%nat elmat in
     if (i <? mir_Size mir)%nat then block (mir_Size mir - i)%nat i m else m)
    (fun a b => sum_n (mir_Size mir) (fun i => term i a b)).
Proof.
  intros Hblock.
  destruct (@full_blocks_accumulates mask (Height elmat) (Width elmat)
              term bs (mir_Size mir) (block bs)
              (fun i m0 Hh Hw => Hblock bs i m0 Hh Hw)
              (mir_Size mir) 0%nat elmat eq_refl eq_refl) as [q [Hq Hacc]].
  destruct (@full_blocks_index _ bs (mir_Size mir) (block bs) (mir_Size mir) 0%nat elmat
                               (Nat.le_0_l (mir_Size mir))) as [q' [Hq' Hle]].
  destruct (full_blocks bs (mir_Size mir) (block bs) (mir_Size mir) 0 elmat) as [i m].
  simpl fst in *. simpl snd in *.
  assert (Hqn : (q <= mir_Size mir)%nat) by lia.
  clear Hq' Hle q'. simpl in Hq. subst i.
  destruct (Nat.ltb_spec q (mir_Size mir)) as [Hlt|Hge].
  - destruct Hacc as [Hh [Hw Hacc]].
    eapply accumulates_ext;
      [|eapply accumulates_trans;
        [split; [exact Hh|split; [exact Hw|exact Hacc]]
        |apply (Hblock (mir_Size mir - q)%nat q m Hh Hw)]].
    intros a b _. simpl.
    rewrite <- sum_n_app. f_equal. lia.
  - assert (q = mir_Size mir) by lia. subst q. exact Hacc.
Qed.

Lemma volume_contract_accumulates (bs : nat) (elmat : FlatMatrix) :
  accumulates
    (sub_mask (UsedDofs (Evaluator store proxy2) fel) (UsedDofs (Evaluator store proxy1) fel))
    elmat
    (volume_contract store bs fel mir proxy1 proxy2 proxyvalues elmat)
    (fun a b => sum_n (mir_Size mir) (fun i => term i a b)).
Proof.
  unfold volume_contract.
  apply (blocked_accumulates bs
           (volume_block store fel mir proxy1 proxy2 proxyvalues) elmat).
  intros count i m0 _ _. apply volume_block_accumulates.
Qed.

Lemma hessian_contract_accumulates (bs : nat) (elmat : FlatMatrix) :
  accumulates (full_mask (Height elmat) (Width elmat)) elmat
              (hessian_contract store bs fel mir proxy1 proxy2 proxyvalues elmat)
              (fun a b => sum_n (mir_Size mir) (fun i => term i a b)).
Proof.
  unfold hessian_contract.
  apply (blocked_accumulates bs
           (hessian_block store fel mir proxy1 proxy2 proxyvalues) elmat).
  intros count i m0 Hh Hw. rewrite <- Hh, <- Hw. apply hessian_block_accumulates.
Qed.

Lemma volume_naive_accumulates (elmat : FlatMatrix) :
  accumulates
    (sub_mask (UsedDofs (Evaluator store proxy2) fel) (UsedDofs (Evaluator store proxy1) fel))
    elmat
    (volume_naive store fel mir proxy1 proxy2 proxyvalues elmat)
    (fun a b => sum_n (mir_Size mir) (fun i => term i a b)).
Proof.
  unfold volume_naive.
  apply (for_accumulates (h := Height elmat) (w := Width elmat)); try reflexivity.
  intros i m0 _ _. split; [reflexivity|]. split; [reflexivity|].
  intros a b. unfold madd_sub, sub_mask. simpl.
  destruct (in_range _ a && in_range _ b) eqn:Hm; [|reflexivity].
  f_equal. unfold point_term, mat_mult, Trans, Cols, at_point.
  apply andb_true_iff in Hm. destruct Hm as [Ha Hb].
  unfold in_range in Ha, Hb. apply andb_true_iff in Ha, Hb.
  destruct Ha as [Ha _], Hb as [Hb _]. apply Nat.leb_le in Ha, Hb.
  apply sum_n_ext. intros l _. f_equal; [f_equal; lia|].
  apply sum_n_ext. intros k _. f_equal. f_equal. lia.
Qed.

Lemma hessian_naive_accumulates (elmat : FlatMatrix) :
  accumulates (full_mask (Height elmat) (Width elmat)) elmat
              (hessian_naive store fel mir proxy1 proxy2 proxyvalues elmat)
              (fun a b => sum_n (mir_Size mir) (fun i => term i a b)).
Proof.
  unfold hessian_naive.
  apply (for_accumulates (h := Height elmat) (w := Width elmat)); try reflexivity.
  intros i m0 Hh Hw. split; [reflexivity|]. split; [reflexivity|].
  intros a b. unfold madd, full_mask. simpl. rewrite Hh, Hw. reflexivity.
Qed.

End Contraction.

Lemma accumulates_unique (mask : nat -> nat -> bool) (m m1 m2 : FlatMatrix) (p : Mat) :
  accumulates mask m m1 p -> accumulates mask m m2 p ->
  Height m1 = Height m2 /\ Width m1 = Width m2 /\ forall a b, m1 a b = m2 a b.
Proof.
  intros [Hh1 [Hw1 H1]] [Hh2 [Hw2 H2]].
  split; [congruence|]. split; [congruence|].
  intros a b. rewrite H1, H2. reflexivity.
Qed.

(** C2.  For every proxy pair, the contraction in blocks of [bs] points
    with a trailing partial block puts into the element matrix what the
    per-point contraction over all quadrature points puts there, on the
    volume path (restricted to the used dofs) and on the Hessian path
    (whole matrix), for every positive block size, the 16 of the source
    among them; the loop over the full blocks leaves by its own condition. *)
Theorem blocked_contraction_is_pointwise_sum
        (store : ProxyPtr -> ProxyFunction.t) (bs : nat)
        (fel : FiniteElement) (mir : BaseMappedIntegrationRule)
        (proxy1 proxy2 : ProxyPtr) (proxyvalues : Tensor3) (elmat : FlatMatrix) :
  (0 < bs)%nat ->
  (Height (volume_contract store bs fel mir proxy1 proxy2 proxyvalues elmat)
   = Height (volume_naive store fel mir proxy1 proxy2 proxyvalues elmat)
   /\ Width (volume_contract store bs fel mir proxy1 proxy2 proxyvalues elmat)
      = Width (volume_naive store fel mir proxy1 proxy2 proxyvalues elmat)
   /\ forall a b,
       volume_contract store bs fel mir proxy1 proxy2 proxyvalues elmat a b
       = volume_naive store fel mir proxy1 proxy2 proxyvalues elmat a b)
  /\ (Height (hessian_contract store bs fel mir proxy1 proxy2 proxyvalues elmat)
      = Height (hessian_naive store fel mir proxy1 proxy2 proxyvalues elmat)
      /\ Width (hessian_contract store bs fel mir proxy1 proxy2 proxyvalues elmat)
         = Width (hessian_naive store fel mir proxy1 proxy2 proxyvalues elmat)
      /\ forall a b,
          hessian_contract store bs fel mir proxy1 proxy2 proxyvalues elmat a b
          = hessian_naive store fel mir proxy1 proxy2 proxyvalues elmat a b)
  /\ (forall fuel,
         (mir_Size mir <= fuel)%nat ->
         full_blocks bs (mir_Size mir)
                     (volume_block store fel mir proxy1 proxy2 proxyvalues bs)
                     fuel 0%nat elmat
         = full_blocks bs (mir_Size mir)
                       (volume_block store fel mir proxy1 proxy2 proxyvalues bs)
                       (mir_Size mir) 0%nat elmat)
  /\ (forall fuel,
         (mir_Size mir <= fuel)%nat ->
         full_blocks bs (mir_Size mir)
                     (hessian_block store fel mir proxy1 proxy2 proxyvalues bs)
                     fuel 0%nat elmat
         = full_blocks bs (mir_Size mir)
                       (hessian_block store fel mir proxy1 proxy2 proxyvalues bs)
                       (mir_Size mir) 0%nat elmat).
Proof.
  intros Hbs. split; [|split; [|split]].
  - eapply accumulates_unique.
    + apply volume_contract_accumulates.
    + apply volume_naive_accumulates.
  - eapply accumulates_unique.
    + apply hessian_contract_accumulates.
    + apply hessian_naive_accumulates.
  - intros fuel Hf. apply full_blocks_fuel; [exact Hbs|lia|lia].
  - intros fuel Hf. apply full_blocks_fuel; [exact Hbs|lia|lia].
Qed.

Lemma blocked_contraction_is_pointwise_sum_witness :
  (0 < BS)%nat
  /\ forall a b,
      volume_contract trial_store BS fel1 (one_point_rule (point_of_weight 2))
                      0%nat 0%nat ones (const_matrix 1 1 0) a b
      = volume_naive trial_store fel1 (one_point_rule (point_of_weight 2))
                     0%nat 0%nat ones (const_matrix 1 1 0) a b.
Proof.
  assert (H : (0 < BS)%nat) by (unfold BS; lia).
  split; [exact H|].
  exact (proj2 (proj2 (proj1 (blocked_contraction_is_pointwise_sum
                                trial_store fel1 (one_point_rule (point_of_weight 2))
                                0%nat 0%nat ones (const_matrix 1 1 0) H)))).
Defined.

(** ** Output buffers *)

(** C10.  Every entry point that produces an output (the element
    vector, the element matrix on the volume and on the element-boundary
    path, the applied element matrix) computes from the zeroed buffer:
    two runs that differ only in the prior contents of the output buffer
    write the same result. *)
Theorem output_independent_of_prior_contents
        (store : ProxyPtr -> ProxyFunction.t)
        (GetNFacets : ELEMENT_TYPE -> nat)
        (GetNormals : nat -> ELEMENT_TYPE -> nat -> Vec)
        (FacetWeight : ELEMENT_TYPE -> nat -> nat -> nat -> R)
        (fel : FiniteElement) (trafo : ElementTransformation) :
  (forall (lfi : SymbolicLinearFormIntegrator) (n : nat) (old old' : nat -> R),
      CalcElementVector store lfi fel trafo {| Size := n; vdata := old |}
      = CalcElementVector store lfi fel trafo {| Size := n; vdata := old' |}
      /\ CalcElementVector store lfi fel trafo {| Size := n; vdata := old |}
         = CalcElementVector store lfi fel trafo (vzero {| Size := n; vdata := old |}))
  /\ (forall (bfi : SymbolicBilinearFormIntegrator) (h w : nat) (old old' : nat -> nat -> R),
         CalcElementMatrix store GetNFacets GetNormals FacetWeight bfi fel trafo
                           {| Height := h; Width := w; mdata := old |}
         = CalcElementMatrix store GetNFacets GetNormals FacetWeight bfi fel trafo
                             {| Height := h; Width := w; mdata := old' |}
         /\ CalcElementMatrix store GetNFacets GetNormals FacetWeight bfi fel trafo
                              {| Height := h; Width := w; mdata := old |}
            = CalcElementMatrix store GetNFacets GetNormals FacetWeight bfi fel trafo
                                (mzero {| Height := h; Width := w; mdata := old |}))
  /\ (forall (en : SymbolicEnergy) (elx : FlatVector) (n : nat) (old old' : nat -> R),
         ApplyElementMatrix store en fel trafo elx {| Size := n; vdata := old |}
         = ApplyElementMatrix store en fel trafo elx {| Size := n; vdata := old' |}
         /\ ApplyElementMatrix store en fel trafo elx {| Size := n; vdata := old |}
            = ApplyElementMatrix store en fel trafo elx (vzero {| Size := n; vdata := old |})).
Proof.
  split; [|split].
  - intros lfi n old old'. split; reflexivity.
  - intros bfi h w old old'.
    unfold CalcElementMatrix, T_CalcElementMatrix.
    destruct (element_boundary bfi).
    + destruct (SpaceDim trafo) as [|[|[|[|d]]]]; split; reflexivity.
    + split; reflexivity.
  - intros en elx n old old'. split; reflexivity.
Qed.

(** ** The frame of the assembly *)

Section Frame.

Variable store : ProxyPtr -> ProxyFunction.t.
Variable GetNFacets : ELEMENT_TYPE -> nat.
Variable GetNormals : nat -> ELEMENT_TYPE -> nat -> Vec.
Variable FacetWeight : ELEMENT_TYPE -> nat -> nat -> nat -> R.
Variable fel : FiniteElement.

(** the product of a pair vanishes where one of the two basis matrices does *)
Lemma pair_product_outside (proxy1 proxy2 : ProxyPtr) (mip : BaseMappedIntegrationPoint)
      (coeff : Mat) (a b : nat) :
  basis_within_used_dofs store fel proxy1 ->
  basis_within_used_dofs store fel proxy2 ->
  sub_mask (UsedDofs (Evaluator store proxy2) fel)
           (UsedDofs (Evaluator store proxy1) fel) a b = false ->
  mat_mult (Dimension store proxy2)
           (Trans (CalcMatrix (Evaluator store proxy2) fel mip))
           (mat_mult (Dimension store proxy1) coeff
                     (CalcMatrix (Evaluator store proxy1) fel mip)) a b = 0.
Proof.
  intros H1 H2 Hm. unfold mat_mult, Trans.
  unfold sub_mask in Hm. apply andb_false_iff in Hm.
  apply sum_n_zero. intros l _.
  destruct Hm as [Ha|Hb].
  - rewrite (H2 mip l a Ha). lra.
  - rewrite sum_n_zero; [lra|].
    intros k _. rewrite (H1 mip k b Hb). lra.
Qed.

Lemma point_term_outside (mir : BaseMappedIntegrationRule) (proxy1 proxy2 : ProxyPtr)
      (proxyvalues : Tensor3) (i a b : nat) :
  basis_within_used_dofs store fel proxy1 ->
  basis_within_used_dofs store fel proxy2 ->
  sub_mask (UsedDofs (Evaluator store proxy2) fel)
           (UsedDofs (Evaluator store proxy1) fel) a b = false ->
  point_term store fel mir proxy1 proxy2 proxyvalues i a b = 0.
Proof.
  intros H1 H2 Hm. unfold point_term. apply pair_product_outside; assumption.
Qed.

(** volume path: the restriction of line 379 keeps the frame *)
Lemma volume_frame (self : SymbolicBilinearFormIntegrator)
      (trafo : ElementTransformation) (elmat m : FlatMatrix) (a b : nat) :
  element_boundary self = false ->
  T_CalcElementMatrix store GetNFacets GetNormals FacetWeight self fel trafo elmat
  = Return m ->
  outside_used_dofs store fel (bfi_trial_proxies self) (bfi_test_proxies self) a b ->
  m a b = 0.
Proof.
  intros Heb Hm Hout. unfold T_CalcElementMatrix in Hm. rewrite Heb in Hm.
  injection Hm as <-.
  apply (for_each_invariant (fun st : ProxyUserData.t * FlatMatrix => snd st a b = 0)).
  - reflexivity.
  - intros proxy1 st Hp1 Hst.
    apply (for_each_invariant (fun st : ProxyUserData.t * FlatMatrix => snd st a b = 0)).
    + exact Hst.
    + intros proxy2 [ud m0] Hp2 Hst0. unfold volume_pair.
      destruct (bfi_tensor _ _ _ _ _ _) as [ud' pv].
      simpl snd in *.
      match goal with
      | |- mdata (volume_contract _ ?bs _ ?mir ?p1 ?p2 ?pv ?m) _ _ = _ =>
        destruct (volume_contract_accumulates store fel mir p1 p2 pv bs m)
          as [_ [_ Hacc]]
      end.
      rewrite Hacc, (Hout proxy1 proxy2 Hp1 Hp2). exact Hst0.
Qed.

(** element-boundary path: the whole matrix is added to *)
Lemma eb_frame (D : nat) (self : SymbolicBilinearFormIntegrator)
      (trafo : ElementTransformation) (elmat : FlatMatrix) (a b : nat) :
  (forall proxy, In proxy (bfi_trial_proxies self) -> basis_within_used_dofs store fel proxy) ->
  (forall proxy, In proxy (bfi_test_proxies self) -> basis_within_used_dofs store fel proxy) ->
  outside_used_dofs store fel (bfi_trial_proxies self) (bfi_test_proxies self) a b ->
  T_CalcElementMatrixEB store GetNFacets GetNormals FacetWeight D self fel trafo elmat a b = 0.
Proof.
  intros Htrial Htest Hout. unfold T_CalcElementMatrixEB.
  apply (for_invariant (fun _ (m : FlatMatrix) => m a b = 0)).
  - reflexivity.
  - intros k m0 _ Hm0.
    apply (for_invariant (fun _ (st : ProxyUserData.t * FlatMatrix) => snd st a b = 0)).
    + exact Hm0.
    + intros i st _ Hst.
      destruct (facet_normal D _ _) as [normal len]. unfold eb_point.
      apply (for_each_invariant (fun st : ProxyUserData.t * FlatMatrix => snd st a b = 0)).
      * exact Hst.
      * intros proxy1 st1 Hp1 Hst1.
        apply (for_each_invariant
                 (fun st : ProxyUserData.t * FlatMatrix => snd st a b = 0)).
        -- exact Hst1.
        -- intros proxy2 [ud m2] Hp2 Hst2.
           destruct (eb_proxyvalues _ _ _ _ _ _ _ _) as [ud' pv].
           simpl snd in *. unfold madd. simpl.
           rewrite pair_product_outside; auto.
           rewrite Hst2. destruct (_ && _); lra.
Qed.

(** Hessian path: the whole matrix is added to *)
Lemma hessian_frame (self : SymbolicEnergy) (trafo : ElementTransformation)
      (elveclin : FlatVector) (elmat : FlatMatrix) (a b : nat) :
  (forall proxy, In proxy (trial_proxies self) -> basis_within_used_dofs store fel proxy) ->
  outside_used_dofs store fel (trial_proxies self) (trial_proxies self) a b ->
  CalcLinearizedElementMatrix store self fel trafo elveclin elmat a b = 0.
Proof.
  intros Htrial Hout. unfold CalcLinearizedElementMatrix.
  destruct (calc_diags _ _ _ _) as [ud diags].
  apply (for_invariant (fun _ (st : ProxyUserData.t * FlatMatrix) => snd st a b = 0)).
  - reflexivity.
  - intros k1 st Hk1 Hst.
    apply (for_invariant (fun _ (st : ProxyUserData.t * FlatMatrix) => snd st a b = 0)).
    + exact Hst.
    + intros l1 [ud1 m1] Hl1 Hst1. unfold hessian_pair.
      destruct (hessian_tensor _ _ _ _ _ _ _) as [ud' pv].
      simpl snd in *.
      match goal with
      | |- mdata (hessian_contract _ ?bs _ ?mir ?p1 ?p2 ?pv ?m) _ _ = _ =>
        destruct (hessian_contract_accumulates store fel mir p1 p2 pv bs m)
          as [_ [_ Hacc]]
      end.
      rewrite Hacc, Hst1.
      rewrite sum_n_zero.
      * destruct (full_mask _ _ _ _); lra.
      * intros i _. apply point_term_outside.
        -- apply Htrial. apply nth_In. exact Hk1.
        -- apply Htrial. apply nth_In. exact Hl1.
        -- apply Hout; apply nth_In; assumption.
Qed.

(** linear form: the whole vector is added to *)
Lemma lfi_frame (self : SymbolicLinearFormIntegrator) (trafo : ElementTransformation)
      (elvec : FlatVector) (d : nat) :
  (forall proxy, In proxy (proxies self) -> transpose_within_used_dofs store fel proxy) ->
  outside_used_range store fel (proxies self) d ->
  T_CalcElementVector store self fel trafo elvec d = 0.
Proof.
  intros Hops Hout. unfold T_CalcElementVector.
  apply (for_each_invariant (fun st : ProxyUserData.t * FlatVector => snd st d = 0)).
  - reflexivity.
  - intros proxy [ud v] Hp Hst.
    destruct (lfi_proxyvalues _ _ _ _ _) as [ud' pv].
    simpl snd in *. unfold vadd. simpl.
    rewrite (Hops proxy Hp _ _ d (Hout proxy Hp)), Hst.
    destruct (d <? Size v)%nat; lra.
Qed.

(** gradient: the whole vector is added to *)
Lemma gradient_frame (self : SymbolicEnergy) (trafo : ElementTransformation)
      (elx ely : FlatVector) (d : nat) :
  (forall proxy, In proxy (trial_proxies self) -> transpose_within_used_dofs store fel proxy) ->
  outside_used_range store fel (trial_proxies self) d ->
  ApplyElementMatrix store self fel trafo elx ely d = 0.
Proof.
  intros Hops Hout. unfold ApplyElementMatrix.
  apply (for_each_invariant (fun st : ProxyUserData.t * FlatVector => snd st d = 0)).
  - reflexivity.
  - intros proxy [ud v] Hp Hst.
    destruct (gradient_proxyvalues _ _ _ _ _) as [ud' pv].
    simpl snd in *. unfold vadd. simpl.
    rewrite (Hops proxy Hp _ _ d (Hout proxy Hp)), Hst.
    destruct (d <? Size v)%nat; lra.
Qed.

End Frame.

(** C7.  In every assembly path the entries of the output outside the
    used-dof rectangles of all proxy pairs (outside the used-dof ranges of
    all proxies, for a vector) are zero after assembly, for operators
    whose basis matrices and transposed applications are zero outside the
    used dofs they declare.  The volume path adds every pair only to the
    used-dof rows of the test operator and the used-dof columns of the
    trial operator and needs nothing of the operators; the
    element-boundary and the Hessian path add the product of the basis
    matrices, the linear form and the gradient add the transposed
    application, each of which is zero outside the used dofs. *)
Theorem used_dof_frame
        (store : ProxyPtr -> ProxyFunction.t)
        (GetNFacets : ELEMENT_TYPE -> nat)
        (GetNormals : nat -> ELEMENT_TYPE -> nat -> Vec)
        (FacetWeight : ELEMENT_TYPE -> nat -> nat -> nat -> R)
        (fel : FiniteElement) (trafo : ElementTransformation) :
  (forall (self : SymbolicBilinearFormIntegrator) (elmat m : FlatMatrix) (a b : nat),
      element_boundary self = false ->
      T_CalcElementMatrix store GetNFacets GetNormals FacetWeight self fel trafo elmat
      = Return m ->
      outside_used_dofs store fel (bfi_trial_proxies self) (bfi_test_proxies self) a b ->
      m a b = 0)
  /\ (forall (D : nat) (self : SymbolicBilinearFormIntegrator) (elmat : FlatMatrix)
             (a b : nat),
         (forall proxy, In proxy (bfi_trial_proxies self) ->
                        basis_within_used_dofs store fel proxy) ->
         (forall proxy, In proxy (bfi_test_proxies self) ->
                        basis_within_used_dofs store fel proxy) ->
         outside_used_dofs store fel (bfi_trial_proxies self) (bfi_test_proxies self) a b ->
         T_CalcElementMatrixEB store GetNFacets GetNormals FacetWeight D self fel trafo
                               elmat a b = 0)
  /\ (forall (self : SymbolicEnergy) (elveclin : FlatVector) (elmat : FlatMatrix)
             (a b : nat),
         (forall proxy, In proxy (trial_proxies self) ->
                        basis_within_used_dofs store fel proxy) ->
         outside_used_dofs store fel (trial_proxies self) (trial_proxies self) a b ->
         CalcLinearizedElementMatrix store self fel trafo elveclin elmat a b = 0)
  /\ (forall (self : SymbolicLinearFormIntegrator) (elvec : FlatVector) (d : nat),
         (forall proxy, In proxy (proxies self) ->
                        transpose_within_used_dofs store fel proxy) ->
         outside_used_range store fel (proxies self) d ->
         T_CalcElementVector store self fel trafo elvec d = 0)
  /\ (forall (self : SymbolicEnergy) (elx ely : FlatVector) (d : nat),
         (forall proxy, In proxy (trial_proxies self) ->
                        transpose_within_used_dofs store fel proxy) ->
         outside_used_range store fel (trial_proxies self) d ->
         ApplyElementMatrix store self fel trafo elx ely d = 0).
Proof.
  split; [|split; [|split; [|split]]].
  - intros self elmat m a b. apply volume_frame.
  - intros D self elmat a b. apply eb_frame.
  - intros self elveclin elmat a b. apply hessian_frame.
  - intros self elvec d. apply lfi_frame.
  - intros self elx ely d. apply gradient_frame.
Qed.

Lemma id_diffop_basis_within (store : ProxyPtr -> ProxyFunction.t) (proxy : ProxyPtr) :
  Evaluator store proxy = id_diffop -> basis_within_used_dofs store fel1 proxy.
Proof.
  intros E mip k d. rewrite E. unfold in_range. simpl.
  destruct d as [|d]; [discriminate|]. intros _.
  rewrite andb_false_r. reflexivity.
Defined.

Lemma id_diffop_transpose_within (store : ProxyPtr -> ProxyFunction.t) (proxy : ProxyPtr) :
  Evaluator store proxy = id_diffop -> transpose_within_used_dofs store fel1 proxy.
Proof.
  intros E mir values d. rewrite E. unfold in_range. simpl.
  destruct d as [|d]; [discriminate|]. intros _. reflexivity.
Defined.

Lemma used_dof_frame_witness :
  (forall m,
      T_CalcElementMatrix mass_store one_facet unit_normals unit_facet_weight
                          (mass_bfi false) fel1 (one_point_trafo 1) (const_matrix 2 2 5)
      = Return m -> m 1%nat 1%nat = 0)
  /\ T_CalcElementMatrixEB mass_store one_facet unit_normals unit_facet_weight 1
                           (mass_bfi true) fel1 (one_point_trafo 1) (const_matrix 2 2 5)
                           1%nat 1%nat = 0
  /\ CalcLinearizedElementMatrix trial_store (square_energy trial_store) fel1
                                 (one_point_trafo 1) (dofs1 3) (const_matrix 2 2 5)
                                 1%nat 1%nat = 0
  /\ T_CalcElementVector mass_store load_lfi fel1 (one_point_trafo 1)
                         (const_vector 2 5) 1%nat = 0
  /\ ApplyElementMatrix trial_store (square_energy trial_store) fel1 (one_point_trafo 1)
                        (dofs1 3) (const_vector 2 5) 1%nat = 0.
Proof.
  pose proof (used_dof_frame mass_store one_facet unit_normals unit_facet_weight
                             fel1 (one_point_trafo 1)) as [Hvol [Heb [_ [Hlfi _]]]].
  pose proof (used_dof_frame trial_store one_facet unit_normals unit_facet_weight
                             fel1 (one_point_trafo 1)) as [_ [_ [Hhess [_ Hgrad]]]].
  split; [|split; [|split; [|split]]].
  - intros m Hm.
    apply (Hvol (mass_bfi false) (const_matrix 2 2 5) m 1%nat 1%nat);
      [reflexivity|exact Hm|].
    intros proxy1 proxy2 _ _. reflexivity.
  - apply Heb.
    + intros proxy _. apply id_diffop_basis_within. reflexivity.
    + intros proxy _. apply id_diffop_basis_within. reflexivity.
    + intros proxy1 proxy2 _ _. reflexivity.
  - apply Hhess.
    + intros proxy _. apply id_diffop_basis_within. reflexivity.
    + intros proxy1 proxy2 _ _. reflexivity.
  - apply Hlfi.
    + intros proxy _. apply id_diffop_transpose_within. reflexivity.
    + intros proxy _. reflexivity.
  - apply Hgrad.
    + intros proxy _. apply id_diffop_transpose_within. reflexivity.
    + intros proxy _. reflexivity.
Defined.

(** ** Seeding *)

Lemma same_pin_refl (ud : ProxyUserData.t) : same_pin ud ud.
Proof. repeat split. Qed.

Lemma seed_pair_same_pin (ud ud' : ProxyUserData.t) (proxy1 : ProxyPtr) (k : nat)
      (proxy2 : ProxyPtr) (l : nat) :
  same_pin ud ud' -> seed_pair ud proxy1 k proxy2 l = seed_pair ud' proxy1 k proxy2 l.
Proof.
  intros [Hf [Hx Hr]]. unfold seed_pair, ProxyUserData.set_test, ProxyUserData.set_trial.
  simpl. rewrite Hf, Hx, Hr. reflexivity.
Qed.

Lemma same_pin_seed_pair (ud ud' : ProxyUserData.t) (proxy1 : ProxyPtr) (k : nat)
      (proxy2 : ProxyPtr) (l : nat) :
  same_pin ud ud' -> same_pin (seed_pair ud proxy1 k proxy2 l) ud'.
Proof. intros H. exact H. Qed.

(** ** The Hessian tensor *)

Section HessianTensor.

Variable store : ProxyPtr -> ProxyFunction.t.
Variable self : SymbolicEnergy.
Variable mir : BaseMappedIntegrationRule.
Variable ud0 : ProxyUserData.t.

Local Abbreviation proxy_at := (fun k1 => nth k1 (trial_proxies self) 0%nat).
Local Abbreviation raw := (raw_dderiv (en_cf self) mir ud0).
Local Abbreviation polarized := (polarized self mir ud0).

(** the diagonal pass for one proxy: its columns are recorded, the
    other proxies are left alone *)
Lemma calc_diags_inner (n : nat) (st : ProxyUserData.t * (nat -> Mat)) :
  same_pin (fst st) ud0 ->
  let st' :=
    for_ (Dimension store (proxy_at n))
         (fun k (st : ProxyUserData.t * (nat -> Mat)) =>
            let (ud, diags) := st in
            let ud := ProxyUserData.set_trial ud (proxy_at n) k in
            let ud := ProxyUserData.set_test ud (proxy_at n) k in
            let dderiv := snd (cf_EvaluateDDeriv (en_cf self) ud mir) in
            (ud, fun k1' =>
                   if (k1' =? n)%nat
                   then assign_col (diags k1') k (Col dderiv 0)
                   else diags k1'))
         st in
  same_pin (fst st') ud0
  /\ (forall k1 k i, k1 <> n -> snd st' k1 i k = snd st k1 i k)
  /\ (forall k i, (k < Dimension store (proxy_at n))%nat ->
                  snd st' n i k = raw (proxy_at n) k (proxy_at n) k i).
Proof.
  intros Hpin. cbv zeta.
  apply (@for_invariant _
           (fun m (st' : ProxyUserData.t * (nat -> Mat)) =>
              same_pin (fst st') ud0
              /\ (forall k1 k i, k1 <> n -> snd st' k1 i k = snd st k1 i k)
              /\ (forall k i, (k < m)%nat ->
                              snd st' n i k = raw (proxy_at n) k (proxy_at n) k i))).
  - split; [exact Hpin|]. split; [reflexivity|]. intros k i Hk. lia.
  - intros m [ud diags] Hm [Hud [Hother Hdone]]. simpl fst in *. simpl snd in *.
    split; [exact Hud|]. split.
    + intros k1 k i Hk1. apply Nat.eqb_neq in Hk1. rewrite Hk1. apply Hother.
      apply Nat.eqb_neq. exact Hk1.
    + intros k i Hk. rewrite Nat.eqb_refl. unfold assign_col, Col.
      destruct (Nat.eqb_spec k m) as [->|Hne].
      * unfold raw_dderiv.
        rewrite <- (seed_pair_same_pin (proxy_at n) m (proxy_at n) m Hud).
        reflexivity.
      * apply Hdone. lia.
Qed.

(** the diagonal pass records, for every proxy and component, the second
    derivative with this one slot seeded as test and as trial *)
Lemma calc_diags_spec (ud : ProxyUserData.t) :
  same_pin ud ud0 ->
  same_pin (fst (calc_diags store self mir ud)) ud0
  /\ forall k1 k i,
      (k1 < List.length (trial_proxies self))%nat ->
      (k < Dimension store (proxy_at k1))%nat ->
      snd (calc_diags store self mir ud) k1 i k
      = raw (proxy_at k1) k (proxy_at k1) k i.
Proof.
  intros Hpin. unfold calc_diags.
  apply (@for_invariant _
           (fun n (st : ProxyUserData.t * (nat -> Mat)) =>
              same_pin (fst st) ud0
              /\ forall k1 k i,
                  (k1 < n)%nat -> (k < Dimension store (proxy_at k1))%nat ->
                  snd st k1 i k = raw (proxy_at k1) k (proxy_at k1) k i)).
  - split; [exact Hpin|]. intros k1 k i Hk1. lia.
  - intros n st Hn [Hst Hdone].
    destruct (calc_diags_inner n st Hst) as [Hud [Hother Hnew]].
    split; [exact Hud|].
    intros k1 k i Hk1 Hk. destruct (Nat.eq_dec k1 n) as [->|Hne].
    + apply Hnew. exact Hk.
    + rewrite Hother by exact Hne. apply Hdone; [lia|exact Hk].
Qed.

(** the inner loop of the tensor: the row [k] of second derivatives *)
Lemma hessian_tensor_inner (diags : nat -> Mat) (k1 l1 k : nat)
      (st : ProxyUserData.t * Tensor3) :
  same_pin (fst st) ud0 ->
  let st' :=
    for_ (Dimension store (proxy_at l1))
         (fun l (st : ProxyUserData.t * Tensor3) =>
            let (ud, proxyvalues) := st in
            let ud := ProxyUserData.set_trial ud (proxy_at k1) k in
            let ud := ProxyUserData.set_test ud (proxy_at l1) l in
            let dderiv := snd (cf_EvaluateDDeriv (en_cf self) ud mir) in
            let proxyvalues := assign_slice proxyvalues l k (Col dderiv 0) in
            let proxyvalues :=
              if negb (proxy_at k1 =? proxy_at l1)%nat || negb (k =? l)%nat
              then
                let proxyvalues := sub_slice proxyvalues l k (Col (diags k1) k) in
                let proxyvalues := sub_slice proxyvalues l k (Col (diags l1) l) in
                scale_slice proxyvalues l k 0.5
              else proxyvalues in
            (ud, proxyvalues))
         st in
  same_pin (fst st') ud0
  /\ (forall i l k', k' <> k -> snd st' i l k' = snd st i l k')
  /\ (forall i l, (l < Dimension store (proxy_at l1))%nat ->
                  snd st' i l k = polarized diags k1 l1 k l i).
Proof.
  intros Hpin. cbv zeta.
  apply (@for_invariant _
           (fun m (st' : ProxyUserData.t * Tensor3) =>
              same_pin (fst st') ud0
              /\ (forall i l k', k' <> k -> snd st' i l k' = snd st i l k')
              /\ (forall i l, (l < m)%nat ->
                              snd st' i l k = polarized diags k1 l1 k l i))).
  - split; [exact Hpin|]. split; [reflexivity|]. intros i l Hl. lia.
  - intros m [ud pv] Hm [Hud [Hother Hdone]]. simpl fst in *. simpl snd in *.
    split; [exact Hud|]. split.
    + intros i l k' Hk'. apply Nat.eqb_neq in Hk'.
      destruct (negb (proxy_at k1 =? proxy_at l1)%nat || negb (k =? m)%nat);
        unfold scale_slice, sub_slice, assign_slice; cbv beta;
        rewrite Hk', andb_false_r; apply Hother; apply Nat.eqb_neq; exact Hk'.
    + intros i l Hl.
      assert (Hraw : snd (cf_EvaluateDDeriv
                            (en_cf self)
                            (ProxyUserData.set_test
                               (ProxyUserData.set_trial ud (proxy_at k1) k)
                               (proxy_at l1) m) mir) i 0%nat
                     = raw (proxy_at k1) k (proxy_at l1) m i).
      { unfold raw_dderiv.
        rewrite <- (seed_pair_same_pin (proxy_at k1) k (proxy_at l1) m Hud).
        reflexivity. }
      destruct (Nat.eqb_spec l m) as [->|Hne].
      * unfold polarized.
        destruct ((proxy_at k1 =? proxy_at l1)%nat) eqn:Ep, ((k =? m)%nat) eqn:Ek;
          cbn [negb orb andb];
          unfold scale_slice, sub_slice, assign_slice, Col; cbv beta;
          rewrite !Nat.eqb_refl; cbn [andb]; rewrite Hraw; lra.
      * assert (El : (l =? m)%nat = false) by (apply Nat.eqb_neq; exact Hne).
        destruct (negb (proxy_at k1 =? proxy_at l1)%nat || negb (k =? m)%nat);
          unfold scale_slice, sub_slice, assign_slice; cbv beta;
          rewrite El; cbn [andb]; apply Hdone; lia.
Qed.

(** C1, the tensor: every entry of the Hessian tensor of a pair is the
    raw second derivative on the diagonal and the polarised one off it *)
Lemma hessian_tensor_spec (diags : nat -> Mat) (k1 l1 : nat) (ud : ProxyUserData.t) :
  same_pin ud ud0 ->
  same_pin (fst (hessian_tensor store self mir diags k1 l1 ud)) ud0
  /\ forall i l k,
      (k < Dimension store (proxy_at k1))%nat ->
      (l < Dimension store (proxy_at l1))%nat ->
      snd (hessian_tensor store self mir diags k1 l1 ud) i l k
      = polarized diags k1 l1 k l i.
Proof.
  intros Hpin. unfold hessian_tensor.
  apply (@for_invariant _
           (fun n (st : ProxyUserData.t * Tensor3) =>
              same_pin (fst st) ud0
              /\ forall i l k,
                  (k < n)%nat -> (l < Dimension store (proxy_at l1))%nat ->
                  snd st i l k = polarized diags k1 l1 k l i)).
  - split; [exact Hpin|]. intros i l k Hk. lia.
  - intros n st Hn [Hst Hdone].
    destruct (hessian_tensor_inner diags k1 l1 n st Hst) as [Hud [Hother Hnew]].
    split; [exact Hud|].
    intros i l k Hk Hl. destruct (Nat.eq_dec k n) as [->|Hne].
    + apply Hnew. exact Hl.
    + rewrite Hother by exact Hne. apply Hdone; [lia|exact Hl].
Qed.

End HessianTensor.

Lemma apply_weights_spec (mir : BaseMappedIntegrationRule) (proxyvalues : Tensor3)
      (i l k : nat) :
  (i < mir_Size mir)%nat ->
  apply_weights mir proxyvalues i l k = proxyvalues i l k * GetWeight (mir_at mir i).
Proof.
  intros Hi. unfold apply_weights.
  assert (H : forall n pv,
             for_ n (fun i pv => scale_point pv i (GetWeight (mir_at mir i))) pv i l k
             = if (i <? n)%nat then pv i l k * GetWeight (mir_at mir i) else pv i l k).
  { induction n as [|n IH]; intros pv.
    - reflexivity.
    - simpl for_. unfold scale_point at 1. rewrite IH.
      destruct (Nat.eqb_spec i n) as [->|Hne].
      + rewrite Nat.ltb_irrefl.
        destruct (Nat.ltb_spec n (Datatypes.S n)); [reflexivity|lia].
      + destruct (Nat.ltb_spec i n), (Nat.ltb_spec i (Datatypes.S n));
          try reflexivity; lia. }
  rewrite H. destruct (Nat.ltb_spec i (mir_Size mir)); [reflexivity|lia].
Qed.

(** ** Polarisation *)

Section Polarization.

Variable B : nat -> Direction -> Direction -> R.
Hypothesis HB : SymmetricBilinear B.

Lemma bilinear_add_r (i : nat) (d1 d2 d2' : Direction) :
  B i d1 (fun p c => d2 p c + d2' p c) = B i d1 d2 + B i d1 d2'.
Proof.
  rewrite (bilinear_sym HB). rewrite (bilinear_add HB).
  rewrite (bilinear_sym HB i d2 d1), (bilinear_sym HB i d2' d1). reflexivity.
Qed.

(** the quadratic form of a sum of two directions *)
Lemma bilinear_square_of_sum (i : nat) (d1 d2 : Direction) :
  B i (fun p c => d1 p c + d2 p c) (fun p c => d1 p c + d2 p c)
  = B i d1 d1 + 2 * B i d1 d2 + B i d2 d2.
Proof.
  rewrite (bilinear_add HB), !bilinear_add_r.
  rewrite (bilinear_sym HB i d2 d1). lra.
Qed.

Lemma seed_dir_same_slot (ud : ProxyUserData.t) (proxy : ProxyPtr) (k : nat) :
  forall p c, seed_dir (seed_pair ud proxy k proxy k) p c = unit_dir proxy k p c.
Proof.
  intros p c. unfold seed_dir, seed_pair, unit_dir, ptr_is. simpl.
  rewrite (Nat.eqb_sym proxy p).
  destruct ((p =? proxy)%nat && (c =? k)%nat); reflexivity.
Qed.

Lemma seed_dir_two_slots (ud : ProxyUserData.t) (proxy1 : ProxyPtr) (k : nat)
      (proxy2 : ProxyPtr) (l : nat) :
  (proxy1 =? proxy2)%nat && (k =? l)%nat = false ->
  forall p c,
    seed_dir (seed_pair ud proxy1 k proxy2 l) p c
    = unit_dir proxy1 k p c + unit_dir proxy2 l p c.
Proof.
  intros Hne p c. unfold seed_dir, seed_pair, unit_dir, ptr_is. simpl.
  rewrite (Nat.eqb_sym proxy1 p), (Nat.eqb_sym proxy2 p).
  destruct (Nat.eqb_spec p proxy1) as [E1|H1], (Nat.eqb_spec p proxy2) as [E2|H2],
           (Nat.eqb_spec c k) as [Ek|Hk], (Nat.eqb_spec c l) as [El|Hl];
    simpl; try lra.
  subst. rewrite !Nat.eqb_refl in Hne. discriminate Hne.
Qed.

Variable cf : CoefficientFunction.
Variable mir : BaseMappedIntegrationRule.
Variable ud0 : ProxyUserData.t.

(** the second-derivative primitive is the quadratic form of [B] in the
    seed direction *)
Hypothesis Hprimitive :
  forall proxy1 k proxy2 l i,
    raw_dderiv cf mir ud0 proxy1 k proxy2 l i
    = B i (seed_dir (seed_pair ud0 proxy1 k proxy2 l))
          (seed_dir (seed_pair ud0 proxy1 k proxy2 l)).

Lemma raw_dderiv_diagonal (proxy : ProxyPtr) (k i : nat) :
  raw_dderiv cf mir ud0 proxy k proxy k i = B i (unit_dir proxy k) (unit_dir proxy k).
Proof.
  rewrite Hprimitive. apply (bilinear_ext HB); apply seed_dir_same_slot.
Qed.

Lemma raw_dderiv_combined (proxy1 : ProxyPtr) (k : nat) (proxy2 : ProxyPtr) (l i : nat) :
  (proxy1 =? proxy2)%nat && (k =? l)%nat = false ->
  raw_dderiv cf mir ud0 proxy1 k proxy2 l i
  = B i (unit_dir proxy1 k) (unit_dir proxy1 k)
    + 2 * B i (unit_dir proxy1 k) (unit_dir proxy2 l)
    + B i (unit_dir proxy2 l) (unit_dir proxy2 l).
Proof.
  intros Hne. rewrite Hprimitive. rewrite <- bilinear_square_of_sum.
  apply (bilinear_ext HB); apply seed_dir_two_slots; exact Hne.
Qed.

End Polarization.

(** the polarised entry is the value of the bilinear form on the two
    unit directions: the mixed second partial *)
Lemma polarized_is_mixed_partial (self : SymbolicEnergy)
      (mir : BaseMappedIntegrationRule) (ud0 : ProxyUserData.t)
      (B : nat -> Direction -> Direction -> R) (diags : nat -> Mat)
      (k1 l1 k l i : nat) :
  SymmetricBilinear B ->
  (forall proxy1 k proxy2 l i,
      raw_dderiv (en_cf self) mir ud0 proxy1 k proxy2 l i
      = B i (seed_dir (seed_pair ud0 proxy1 k proxy2 l))
            (seed_dir (seed_pair ud0 proxy1 k proxy2 l))) ->
  diags k1 i k
  = raw_dderiv (en_cf self) mir ud0 (nth k1 (trial_proxies self) 0%nat) k
               (nth k1 (trial_proxies self) 0%nat) k i ->
  diags l1 i l
  = raw_dderiv (en_cf self) mir ud0 (nth l1 (trial_proxies self) 0%nat) l
               (nth l1 (trial_proxies self) 0%nat) l i ->
  polarized self mir ud0 diags k1 l1 k l i
  = B i (unit_dir (nth k1 (trial_proxies self) 0%nat) k)
        (unit_dir (nth l1 (trial_proxies self) 0%nat) l).
Proof.
  intros HB Hprim Hd1 Hd2. unfold polarized. cbv zeta.
  destruct ((nth k1 (trial_proxies self) 0 =? nth l1 (trial_proxies self) 0)%nat
            && (k =? l)%nat) eqn:Hsame.
  - apply andb_true_iff in Hsame. destruct Hsame as [Hp Hk].
    apply Nat.eqb_eq in Hp, Hk. rewrite <- Hp, <- Hk.
    apply (@raw_dderiv_diagonal B HB (en_cf self) mir ud0 Hprim).
  - rewrite Hd1, Hd2.
    rewrite (@raw_dderiv_combined B HB (en_cf self) mir ud0 Hprim _ _ _ _ i Hsame).
    rewrite !(@raw_dderiv_diagonal B HB (en_cf self) mir ud0 Hprim).
    lra.
Qed.

(** ** The quadratic density *)

Lemma EvaluateDDeriv_ud_deriv (store : ProxyPtr -> ProxyFunction.t) (this : ProxyPtr)
      (ud : ProxyUserData.t) (mir : BaseMappedIntegrationRule) (i c : nat) :
  snd (fst (EvaluateDDeriv_ud store this ud mir)) i c = seed_dir ud this c.
Proof.
  unfold EvaluateDDeriv_ud, seed_dir. simpl.
  destruct (ptr_is (ProxyUserData.testfunction ud) this),
           (ptr_is (ProxyUserData.trialfunction ud) this);
    unfold set_col; simpl;
    destruct (c =? ProxyUserData.test_comp ud)%nat,
             (c =? ProxyUserData.trial_comp ud)%nat; reflexivity.
Qed.

Lemma EvaluateDDeriv_ud_dderiv (store : ProxyPtr -> ProxyFunction.t) (this : ProxyPtr)
      (ud : ProxyUserData.t) (mir : BaseMappedIntegrationRule) (i c : nat) :
  snd (EvaluateDDeriv_ud store this ud mir) i c = 0.
Proof. reflexivity. Qed.

Lemma SumCF_dderiv (n : nat) (f : nat -> CoefficientFunction)
      (ud : ProxyUserData.t) (mir : BaseMappedIntegrationRule) (i c : nat) :
  snd (cf_EvaluateDDeriv (SumCF n f) ud mir) i c
  = sum_n n (fun m => snd (cf_EvaluateDDeriv (f m) ud mir) i c).
Proof.
  induction n as [|n IH].
  - reflexivity.
  - simpl. rewrite <- IH.
    destruct (cf_EvaluateDDeriv (SumCF n f) ud mir) as [[va da] dda].
    destruct (cf_EvaluateDDeriv (f n) ud mir) as [[vb db] ddb].
    reflexivity.
Qed.

Lemma quadratic_term_dderiv (store : ProxyPtr -> ProxyFunction.t) (a : R)
      (p : ProxyPtr) (k l : nat) (ud : ProxyUserData.t)
      (mir : BaseMappedIntegrationRule) (i c : nat) :
  snd (cf_EvaluateDDeriv
         (MultCF (ConstantCF a)
                 (MultCF (ComponentCF (ProxyCF store p) k)
                         (ComponentCF (ProxyCF store p) l))) ud mir) i c
  = a * (2 * (seed_dir ud p k * seed_dir ud p l)).
Proof.
  pose proof (EvaluateDDeriv_ud_deriv store p ud mir) as Hd.
  pose proof (EvaluateDDeriv_ud_dderiv store p ud mir) as Hdd.
  unfold MultCF, ComponentCF, ConstantCF, ProxyCF. cbn [cf_EvaluateDDeriv].
  destruct (EvaluateDDeriv_ud store p ud mir) as [[v d] dd].
  cbn [fst snd] in *. rewrite !Hd, !Hdd. lra.
Qed.

(** the second-derivative primitive of u^T A u is the quadratic form of
    its Hessian in the seed direction *)
Lemma quadratic_density_primitive (store : ProxyPtr -> ProxyFunction.t)
      (A : nat -> nat -> R) (n : nat) (p : ProxyPtr)
      (mir : BaseMappedIntegrationRule) (ud0 : ProxyUserData.t)
      (proxy1 : ProxyPtr) (k : nat) (proxy2 : ProxyPtr) (l i : nat) :
  raw_dderiv (quadratic_density store A n p) mir ud0 proxy1 k proxy2 l i
  = quadratic_hessian A n p i (seed_dir (seed_pair ud0 proxy1 k proxy2 l))
                      (seed_dir (seed_pair ud0 proxy1 k proxy2 l)).
Proof.
  unfold raw_dderiv, quadratic_density, quadratic_hessian.
  rewrite SumCF_dderiv. apply sum_n_ext. intros k' _.
  rewrite SumCF_dderiv. apply sum_n_ext. intros l' _.
  rewrite quadratic_term_dderiv. lra.
Qed.

Lemma quadratic_hessian_bilinear (A : nat -> nat -> R) (n : nat) (p : ProxyPtr) :
  SymmetricBilinear (quadratic_hessian A n p).
Proof.
  split; unfold quadratic_hessian.
  - intros i d1 d1' d2 d2' H1 H2.
    apply sum_n_ext. intros k _. apply sum_n_ext. intros l _.
    rewrite !H1, !H2. reflexivity.
  - intros i d1 d2.
    apply sum_n_ext. intros k _. apply sum_n_ext. intros l _. lra.
  - intros i d1 d1' d2.
    rewrite <- sum_n_plus. apply sum_n_ext. intros k _.
    rewrite <- sum_n_plus. apply sum_n_ext. intros l _. lra.
Qed.

(** on unit directions the Hessian form of u^T A u is A + A^T *)
Lemma quadratic_hessian_unit (A : nat -> nat -> R) (n : nat) (p : ProxyPtr)
      (i k l : nat) :
  (k < n)%nat -> (l < n)%nat ->
  quadratic_hessian A n p i (unit_dir p k) (unit_dir p l) = A k l + A l k.
Proof.
  intros Hk Hl. unfold quadratic_hessian, unit_dir. rewrite Nat.eqb_refl. simpl andb.
  rewrite (@sum_n_ext _ _ (fun k' =>
             (if (k' =? k)%nat then A k' l else 0)
             + (if (k' =? l)%nat then A k' k else 0))).
  - rewrite sum_n_plus.
    rewrite (@sum_n_single _ k), (@sum_n_single _ l); try assumption.
    + rewrite !Nat.eqb_refl. reflexivity.
    + intros j _ Hj. apply Nat.eqb_neq in Hj. rewrite Hj. reflexivity.
    + intros j _ Hj. apply Nat.eqb_neq in Hj. rewrite Hj. reflexivity.
  - intros k' _.
    rewrite (@sum_n_ext _ _ (fun l' =>
               (if (l' =? l)%nat then (if (k' =? k)%nat then A k' l' else 0) else 0)
               + (if (l' =? k)%nat then (if (k' =? l)%nat then A k' l' else 0) else 0))).
    + rewrite sum_n_plus.
      rewrite (@sum_n_single _ l), (@sum_n_single _ k); try assumption.
      * rewrite !Nat.eqb_refl. reflexivity.
      * intros j _ Hj. apply Nat.eqb_neq in Hj. rewrite Hj. reflexivity.
      * intros j _ Hj. apply Nat.eqb_neq in Hj. rewrite Hj. reflexivity.
    + intros l' _.
      destruct (k' =? k)%nat, (l' =? l)%nat, (l' =? k)%nat, (k' =? l)%nat; lra.
Qed.

(** the context threaded through the pairs of the Hessian keeps its pin *)
Lemma hessian_pair_same_pin (store : ProxyPtr -> ProxyFunction.t) (self : SymbolicEnergy)
      (fel : FiniteElement) (mir : BaseMappedIntegrationRule) (ud0 : ProxyUserData.t)
      (diags : nat -> Mat) (k1 l1 : nat) (st : ProxyUserData.t * FlatMatrix) :
  same_pin (fst st) ud0 ->
  same_pin (fst (hessian_pair store self fel mir diags k1 l1 st)) ud0.
Proof.
  destruct st as [ud elmat]. simpl fst. intros Hpin. unfold hessian_pair.
  pose proof (proj1 (hessian_tensor_spec store self mir diags k1 l1 Hpin)) as H.
  destruct (hessian_tensor store self mir diags k1 l1 ud) as [ud' pv].
  exact H.
Qed.

(** the per-point product of a pair with the weighted Hessian tensor *)
Lemma point_term_polarized (store : ProxyPtr -> ProxyFunction.t) (self : SymbolicEnergy)
      (fel : FiniteElement) (mir : BaseMappedIntegrationRule) (ud0 ud : ProxyUserData.t)
      (diags : nat -> Mat) (k1 l1 i a b : nat) :
  same_pin ud ud0 -> (i < mir_Size mir)%nat ->
  point_term store fel mir (nth k1 (trial_proxies self) 0%nat)
             (nth l1 (trial_proxies self) 0%nat)
             (apply_weights mir (snd (hessian_tensor store self mir diags k1 l1 ud)))
             i a b
  = sum_n (Dimension store (nth l1 (trial_proxies self) 0%nat))
          (fun l =>
             CalcMatrix (Evaluator store (nth l1 (trial_proxies self) 0%nat)) fel
                        (mir_at mir i) l a
             * sum_n (Dimension store (nth k1 (trial_proxies self) 0%nat))
                     (fun k =>
                        polarized self mir ud0 diags k1 l1 k l i
                        * GetWeight (mir_at mir i)
                        * CalcMatrix (Evaluator store (nth k1 (trial_proxies self) 0%nat))
                                     fel (mir_at mir i) k b)).
Proof.
  intros Hpin Hi. unfold point_term, mat_mult, Trans, at_point.
  apply sum_n_ext. intros l Hl. f_equal.
  apply sum_n_ext. intros k Hk.
  rewrite apply_weights_spec by exact Hi.
  rewrite (proj2 (hessian_tensor_spec store self mir diags k1 l1 Hpin) i l k Hk Hl).
  reflexivity.
Qed.

(** the linearised element matrix, entry by entry: the contraction of the
    polarised tensors of all ordered pairs *)
Lemma hessian_closed_form (store : ProxyPtr -> ProxyFunction.t) (self : SymbolicEnergy)
      (fel : FiniteElement) (trafo : ElementTransformation)
      (elveclin : FlatVector) (elmat : FlatMatrix) (a b : nat) :
  let mir := MapRule trafo (2 * Order fel) in
  let ud0 := lin_context store self fel mir elveclin in
  let diags := snd (calc_diags store self mir ud0) in
  CalcLinearizedElementMatrix store self fel trafo elveclin elmat a b
  = sum_n (List.length (trial_proxies self))
          (fun k1 =>
             sum_n (List.length (trial_proxies self))
                   (fun l1 =>
                      if full_mask (Height elmat) (Width elmat) a b
                      then hessian_pair_entry store self fel mir ud0 diags k1 l1 a b
                      else 0)).
Proof.
  cbv zeta. unfold CalcLinearizedElementMatrix.
  generalize (MapRule trafo (2 * Order fel)). intros mir.
  pose proof (proj1 (calc_diags_spec
                       store self mir
                       (same_pin_refl (lin_context store self fel mir elveclin))))
    as Hud1.
  destruct (calc_diags store self mir (lin_context store self fel mir elveclin))
    as [ud1 diags].
  simpl fst in Hud1. simpl snd.
  pose (I := fun st : ProxyUserData.t * FlatMatrix =>
               same_pin (fst st) (lin_context store self fel mir elveclin)
               /\ Height (snd st) = Height elmat /\ Width (snd st) = Width elmat).
  match goal with
  | |- mdata (snd (for_ ?n ?body ?s)) a b = sum_n _ ?g =>
    destruct (@for_accumulate _ I (fun st => snd st a b) g n body s) as [_ Hv]
  end.
  - unfold I. split; [exact Hud1|split; reflexivity].
  - intros k1 st _ Hst.
    apply (@for_accumulate _ I (fun st => snd st a b)).
    + exact Hst.
    + intros l1 [ud m] _ [Hud [Hh Hw]]. simpl fst in *. simpl snd in *.
      unfold hessian_pair.
      pose proof (proj1 (hessian_tensor_spec store self mir diags k1 l1 Hud)) as Hud'.
      pose proof (fun i Hi =>
                    @point_term_polarized store self fel mir _ ud diags k1 l1 i a b
                                          Hud Hi) as Hterm.
      destruct (hessian_tensor store self mir diags k1 l1 ud) as [ud' pv].
      unfold I. simpl fst in *. simpl snd in *.
      match goal with
      | |- _ /\ mdata (hessian_contract _ ?bs _ _ ?p1 ?p2 ?pv' ?m') _ _ = _ =>
        destruct (hessian_contract_accumulates store fel mir p1 p2 pv' bs m')
          as [Hh' [Hw' Hacc]]
      end.
      split; [split; [exact Hud'|split; congruence]|].
      rewrite Hacc, Hh, Hw. unfold hessian_pair_entry.
      destruct (full_mask _ _ a b); [|lra].
      f_equal. apply sum_n_ext. intros i Hi. apply Hterm. exact Hi.
  - rewrite Hv. simpl. lra.
Qed.

(** C1, as the code has it.  For every ordered pair of trial proxies and
    every pair of components the tensor entry is the raw second
    derivative when the two seeded slots coincide and
    0.5 * (combined - diagonal - diagonal) otherwise, the diagonals being
    those of the diagonal pass; when the second-derivative primitive is
    a symmetric bilinear form in the seed direction the entry is the
    value of the form on the two unit directions, the mixed second
    partial; for the quadratic density u^T A u the weighted entry is
    (A + A^T) times the quadrature weight, that is 2 A for symmetric A;
    and the linearised element matrix is the contraction of exactly these
    entries, weighted, with the basis matrices of the two operators. *)
Theorem hessian_tensor_polarization
        (store : ProxyPtr -> ProxyFunction.t) (self : SymbolicEnergy)
        (mir : BaseMappedIntegrationRule) (ud0 ud : ProxyUserData.t) :
  same_pin ud ud0 ->
  (forall k1 l1 k l i,
      (k1 < List.length (trial_proxies self))%nat ->
      (l1 < List.length (trial_proxies self))%nat ->
      (k < Dimension store (nth k1 (trial_proxies self) 0%nat))%nat ->
      (l < Dimension store (nth l1 (trial_proxies self) 0%nat))%nat ->
      let proxy1 := nth k1 (trial_proxies self) 0%nat in
      let proxy2 := nth l1 (trial_proxies self) 0%nat in
      let diags := snd (calc_diags store self mir ud0) in
      let combined := raw_dderiv (en_cf self) mir ud0 proxy1 k proxy2 l i in
      diags k1 i k = raw_dderiv (en_cf self) mir ud0 proxy1 k proxy1 k i
      /\ diags l1 i l = raw_dderiv (en_cf self) mir ud0 proxy2 l proxy2 l i
      /\ snd (hessian_tensor store self mir diags k1 l1 ud) i l k
         = if (proxy1 =? proxy2)%nat && (k =? l)%nat
           then combined
           else 0.5 * (combined - diags k1 i k - diags l1 i l))
  /\ (forall B : nat -> Direction -> Direction -> R,
         SymmetricBilinear B ->
         (forall proxy1 k proxy2 l i,
             raw_dderiv (en_cf self) mir ud0 proxy1 k proxy2 l i
             = B i (seed_dir (seed_pair ud0 proxy1 k proxy2 l))
                   (seed_dir (seed_pair ud0 proxy1 k proxy2 l))) ->
         forall k1 l1 k l i,
           (k1 < List.length (trial_proxies self))%nat ->
           (l1 < List.length (trial_proxies self))%nat ->
           (k < Dimension store (nth k1 (trial_proxies self) 0%nat))%nat ->
           (l < Dimension store (nth l1 (trial_proxies self) 0%nat))%nat ->
           snd (hessian_tensor store self mir (snd (calc_diags store self mir ud0))
                               k1 l1 ud) i l k
           = B i (unit_dir (nth k1 (trial_proxies self) 0%nat) k)
                 (unit_dir (nth l1 (trial_proxies self) 0%nat) l))
  /\ (forall (A : nat -> nat -> R) (n : nat) (p : ProxyPtr) (i l k : nat),
         Dimension store p = n ->
         (k < n)%nat -> (l < n)%nat -> (i < mir_Size mir)%nat ->
         apply_weights
           mir
           (snd (hessian_tensor
                   store (quadratic_energy store A n p) mir
                   (snd (calc_diags store (quadratic_energy store A n p) mir ud0))
                   0 0 ud)) i l k
         = (A k l + A l k) * GetWeight (mir_at mir i))
  /\ (forall (fel : FiniteElement) (trafo : ElementTransformation)
             (elveclin : FlatVector) (elmat : FlatMatrix) (a b : nat),
         let rule := MapRule trafo (2 * Order fel) in
         let pinned_context := lin_context store self fel rule elveclin in
         let diags := snd (calc_diags store self rule pinned_context) in
         CalcLinearizedElementMatrix store self fel trafo elveclin elmat a b
         = sum_n (List.length (trial_proxies self))
                 (fun k1 =>
                    sum_n (List.length (trial_proxies self))
                          (fun l1 =>
                             if full_mask (Height elmat) (Width elmat) a b
                             then hessian_pair_entry store self fel rule pinned_context
                                                     diags k1 l1 a b
                             else 0))).
Proof.
  intros Hpin. split; [|split; [|split]].
  4: { intros fel trafo elveclin elmat a b. apply hessian_closed_form. }
  - intros k1 l1 k l i Hk1 Hl1 Hk Hl. cbv zeta.
    destruct (calc_diags_spec store self mir (same_pin_refl ud0)) as [_ Hdiag].
    split; [apply Hdiag; assumption|]. split; [apply Hdiag; assumption|].
    rewrite (proj2 (hessian_tensor_spec store self mir _ k1 l1 Hpin) i l k Hk Hl).
    reflexivity.
  - intros B HB Hprim k1 l1 k l i Hk1 Hl1 Hk Hl.
    destruct (calc_diags_spec store self mir (same_pin_refl ud0)) as [_ Hdiag].
    rewrite (proj2 (hessian_tensor_spec store self mir _ k1 l1 Hpin) i l k Hk Hl).
    apply polarized_is_mixed_partial; auto.
  - intros A n p i l k Hn Hk Hl Hi.
    rewrite apply_weights_spec by exact Hi. f_equal.
    pose (q := quadratic_energy store A n p).
    assert (Hk' : (k < Dimension store (nth 0 (trial_proxies q) 0%nat))%nat)
      by (simpl; lia).
    assert (Hl' : (l < Dimension store (nth 0 (trial_proxies q) 0%nat))%nat)
      by (simpl; lia).
    destruct (calc_diags_spec store q mir (same_pin_refl ud0)) as [_ Hdiag].
    rewrite (proj2 (hessian_tensor_spec store q mir _ 0 0 Hpin) i l k Hk' Hl').
    rewrite (@polarized_is_mixed_partial q mir ud0 (quadratic_hessian A n p)).
    + simpl. apply quadratic_hessian_unit; assumption.
    + apply quadratic_hessian_bilinear.
    + intros. apply quadratic_density_primitive.
    + apply Hdiag; [simpl; lia|exact Hk'].
    + apply Hdiag; [simpl; lia|exact Hl'].
Qed.

Lemma hessian_tensor_polarization_witness :
  snd (hessian_tensor trial_store unit_quadratic unit_rule
                      (snd (calc_diags trial_store unit_quadratic unit_rule unit_context))
                      0 0 unit_context) 0%nat 0%nat 0%nat
  = raw_dderiv (en_cf unit_quadratic) unit_rule unit_context 0%nat 0%nat 0%nat 0%nat 0%nat
  /\ snd (hessian_tensor trial_store unit_quadratic unit_rule
                         (snd (calc_diags trial_store unit_quadratic unit_rule unit_context))
                         0 0 unit_context) 0%nat 0%nat 0%nat
     = quadratic_hessian unit_A 1 0%nat 0%nat (unit_dir 0%nat 0%nat) (unit_dir 0%nat 0%nat)
  /\ apply_weights
       unit_rule
       (snd (hessian_tensor trial_store unit_quadratic unit_rule
                            (snd (calc_diags trial_store unit_quadratic unit_rule
                                             unit_context))
                            0 0 unit_context)) 0%nat 0%nat 0%nat
     = (unit_A 0%nat 0%nat + unit_A 0%nat 0%nat) * GetWeight (mir_at unit_rule 0%nat).
Proof.
  assert (Hpin : same_pin unit_context unit_context) by (repeat split; reflexivity).
  destruct (hessian_tensor_polarization trial_store unit_quadratic unit_rule Hpin)
    as [Ha [Hb [Hc _]]].
  assert (H01 : (0 < 1)%nat) by lia.
  split; [|split].
  - exact (proj2 (proj2 (Ha 0%nat 0%nat 0%nat 0%nat 0%nat H01 H01 H01 H01))).
  - apply (Hb (quadratic_hessian unit_A 1 0%nat)).
    + apply quadratic_hessian_bilinear.
    + intros. apply quadratic_density_primitive.
    + exact H01.
    + exact H01.
    + exact H01.
    + exact H01.
  - apply (Hc unit_A 1%nat 0%nat 0%nat 0%nat 0%nat); [reflexivity|lia|lia|simpl; lia].
Defined.

(** C1 as stated fails in its last part: for u^T A u with A = (1), weight
    1 and the identity operator the weighted tensor entry and the
    assembled Hessian are 2, not A times the weight. *)
Lemma quadratic_density_hessian_is_twice_A :
  mkSymbolicEnergy trial_store (quadratic_density trial_store unit_A 1 0%nat) VOL
  = Return unit_quadratic
  /\ apply_weights
       unit_rule
       (snd (hessian_tensor trial_store unit_quadratic unit_rule
                            (snd (calc_diags trial_store unit_quadratic unit_rule
                                             unit_context))
                            0 0 (fst (calc_diags trial_store unit_quadratic unit_rule
                                                 unit_context)))) 0%nat 0%nat 0%nat
     = 2
  /\ unit_A 0%nat 0%nat * GetWeight (mir_at unit_rule 0%nat) = 1
  /\ CalcLinearizedElementMatrix trial_store unit_quadratic fel1 (one_point_trafo 1)
                                 (dofs1 3) (const_matrix 1 1 0) 0%nat 0%nat = 2.
Proof.
  split; [reflexivity|]. split; [|split].
  - run_model. lra.
  - run_model. lra.
  - run_model. lra.
Qed.

(** ** Scenario B *)

(** C6.  For the density 0.5 u^2 of one scalar trial proxy bound to the
    identity operator on one dof and a rule of one point of weight M,
    the energy at the dof value u is 0.5 M u^2, the applied element
    matrix is the gradient (M u) and the linearised element matrix is
    the Hessian (M), whatever the output buffers held before. *)
Theorem half_square_energy_gradient_hessian (M u : R) :
  mkSymbolicEnergy trial_store half_square VOL = Return half_square_energy
  /\ Energy half_square_energy fel1 (one_point_trafo M) (dofs1 u) = 0.5 * M * (u * u)
  /\ (forall old : nat -> R,
         let ely := ApplyElementMatrix trial_store half_square_energy fel1
                                       (one_point_trafo M) (dofs1 u)
                                       {| Size := 1; vdata := old |} in
         Size ely = 1%nat /\ ely 0%nat = M * u)
  /\ (forall old : nat -> nat -> R,
         let elmat := CalcLinearizedElementMatrix
                        trial_store half_square_energy fel1 (one_point_trafo M) (dofs1 u)
                        {| Height := 1; Width := 1; mdata := old |} in
         Height elmat = 1%nat /\ Width elmat = 1%nat /\ elmat 0%nat 0%nat = M).
Proof.
  split; [reflexivity|]. split; [|split].
  - run_model. lra.
  - intros old. split; [reflexivity|]. run_model. lra.
  - intros old. split; [reflexivity|]. split; [reflexivity|]. run_model. lra.
Qed.

(** ** Element boundary: normals and weights *)

Lemma sum_squares_nonneg (D : nat) (v : Vec) : 0 <= sum_n D (fun j => v j * v j).
Proof.
  induction D as [|D IH]; simpl.
  - lra.
  - pose proof (Rle_0_sqr (v D)) as H. unfold Rsqr in H. lra.
Qed.

(** a vector divided by its non-zero length has length 1 *)
Lemma normalized_has_unit_length (D : nat) (v : Vec) :
  L2Norm D v <> 0 -> L2Norm D (fun r => v r / L2Norm D v) = 1.
Proof.
  intros Hlen. unfold L2Norm at 1.
  rewrite (@sum_n_ext _ _ (fun j => v j * v j * (/ L2Norm D v * / L2Norm D v)))
    by (intros j _; unfold Rdiv; ring).
  rewrite sum_n_scal_r.
  assert (Hsq : L2Norm D v * L2Norm D v = sum_n D (fun j => v j * v j))
    by (unfold L2Norm; apply sqrt_sqrt, sum_squares_nonneg).
  rewrite <- Hsq.
  replace (L2Norm D v * L2Norm D v * (/ L2Norm D v * / L2Norm D v)) with 1
    by (field; exact Hlen).
  apply sqrt_1.
Qed.

(** the coefficients of one pair at one facet point (lines 460-472) *)
Lemma eb_proxyvalues_spec (store : ProxyPtr -> ProxyFunction.t)
      (cf : CoefficientFunction) (weight len : R) (mip : BaseMappedIntegrationPoint)
      (proxy1 proxy2 : ProxyPtr) (ud0 ud : ProxyUserData.t) :
  same_pin ud ud0 ->
  same_pin (fst (eb_proxyvalues store cf weight len mip proxy1 proxy2 ud)) ud0
  /\ forall l k,
      (k < Dimension store proxy1)%nat -> (l < Dimension store proxy2)%nat ->
      snd (eb_proxyvalues store cf weight len mip proxy1 proxy2 ud) l k
      = weight * len * cf_Evaluate cf (seed_pair ud0 proxy1 k proxy2 l) mip 0%nat.
Proof.
  intros Hpin. unfold eb_proxyvalues.
  apply (@for_invariant _
           (fun n (st : ProxyUserData.t * Mat) =>
              same_pin (fst st) ud0
              /\ forall l k,
                  (k < n)%nat -> (l < Dimension store proxy2)%nat ->
                  snd st l k
                  = weight * len * cf_Evaluate cf (seed_pair ud0 proxy1 k proxy2 l) mip 0%nat)).
  - split; [exact Hpin|]. intros l k Hk. lia.
  - intros n st Hn [Hst Hdone].
    cbv beta.
    pose (Pinner :=
            fun m (st' : ProxyUserData.t * Mat) =>
              same_pin (fst st') ud0
              /\ (forall l k,
                     (k < n)%nat -> (l < Dimension store proxy2)%nat ->
                     snd st' l k
                     = weight * len
                       * cf_Evaluate cf (seed_pair ud0 proxy1 k proxy2 l) mip 0%nat)
              /\ (forall l,
                     (l < m)%nat ->
                     snd st' l n
                     = weight * len
                       * cf_Evaluate cf (seed_pair ud0 proxy1 n proxy2 l) mip 0%nat)).
    match goal with
    | |- context [for_ ?cnt ?bdy st] =>
      assert (Hinner : Pinner cnt (for_ cnt bdy st));
        [apply (@for_invariant _ Pinner); unfold Pinner|unfold Pinner in Hinner]
    end.
    3: { cbv beta in Hinner.
         destruct Hinner as [Hud [Hold Hnew]]. split; [exact Hud|].
         intros l k Hk Hl. destruct (Nat.eq_dec k n) as [->|Hne].
         - apply Hnew. exact Hl.
         - apply Hold; [lia|exact Hl]. }
    + split; [exact Hst|]. split; [exact Hdone|]. intros l Hl. lia.
    + intros m [ud' pv] Hm [Hud [Hold Hnew]]. simpl fst in *. simpl snd in *.
      split; [exact Hud|]. split.
      * intros l k Hk Hl.
        assert (E : (k =? n)%nat = false) by (apply Nat.eqb_neq; lia).
        rewrite E, andb_false_r. apply Hold; assumption.
      * intros l Hl. rewrite Nat.eqb_refl, andb_true_r.
        destruct (Nat.eqb_spec l m) as [->|Hne].
        -- fold (seed_pair ud' proxy1 n proxy2 m).
           rewrite (seed_pair_same_pin proxy1 n proxy2 m Hud). reflexivity.
        -- apply Hnew. lia.
Qed.

(** ** Sums over lists *)

Lemma sum_list_ext {A : Type} (xs : list A) (f g : A -> R) :
  (forall x, In x xs -> f x = g x) -> sum_list xs f = sum_list xs g.
Proof.
  induction xs as [|x xs IH]; intros H; simpl.
  - reflexivity.
  - rewrite (H x) by (left; reflexivity).
    rewrite IH by (intros y Hy; apply H; right; exact Hy). reflexivity.
Qed.

Lemma sum_list_plus {A : Type} (xs : list A) (f g : A -> R) :
  sum_list xs (fun x => f x + g x) = sum_list xs f + sum_list xs g.
Proof.
  induction xs as [|x xs IH]; simpl.
  - lra.
  - rewrite IH. lra.
Qed.

Lemma sum_list_zero {A : Type} (xs : list A) (f : A -> R) :
  (forall x, In x xs -> f x = 0) -> sum_list xs f = 0.
Proof.
  induction xs as [|x xs IH]; intros H; simpl.
  - reflexivity.
  - rewrite (H x) by (left; reflexivity).
    rewrite IH by (intros y Hy; apply H; right; exact Hy). lra.
Qed.

Lemma sum_n_sum_list_swap {A : Type} (n : nat) (xs : list A) (f : nat -> A -> R) :
  sum_n n (fun i => sum_list xs (f i)) = sum_list xs (fun x => sum_n n (fun i => f i x)).
Proof.
  induction xs as [|x xs IH]; simpl.
  - apply sum_n_zero. reflexivity.
  - rewrite sum_n_plus, IH. reflexivity.
Qed.

Lemma sum_list_remove (ys : list nat) (x : nat) (f : nat -> R) :
  NoDup ys -> In x ys ->
  sum_list ys f = f x + sum_list (remove Nat.eq_dec x ys) f.
Proof.
  induction ys as [|y ys IH]; intros Hnd Hin.
  - contradiction.
  - inversion Hnd as [|y' ys' Hy Hnd']; subst. simpl.
    destruct (Nat.eq_dec x y) as [->|Hne].
    + rewrite notin_remove by exact Hy. reflexivity.
    + simpl. destruct Hin as [E|Hin]; [congruence|].
      rewrite (IH Hnd' Hin). lra.
Qed.

Lemma NoDup_remove_nat (ys : list nat) (x : nat) :
  NoDup ys -> NoDup (remove Nat.eq_dec x ys).
Proof.
  induction ys as [|y ys IH]; intros Hnd; simpl.
  - constructor.
  - inversion Hnd as [|y' ys' Hy Hnd']; subst.
    destruct (Nat.eq_dec x y) as [->|Hne].
    + apply IH. exact Hnd'.
    + constructor.
      * intros Hin. apply in_remove in Hin. destruct Hin as [Hin _]. contradiction.
      * apply IH. exact Hnd'.
Qed.

(** a sum over a duplicate-free list only sees the entries of a
    duplicate-free sublist outside of which the summand vanishes *)
Lemma sum_list_restrict (xs ys : list nat) (f : nat -> R) :
  NoDup xs -> NoDup ys -> incl ys xs ->
  (forall x, In x xs -> ~ In x ys -> f x = 0) ->
  sum_list xs f = sum_list ys f.
Proof.
  revert ys. induction xs as [|x xs IH]; intros ys Hxs Hys Hincl Hzero.
  - destruct ys as [|y ys]; [reflexivity|].
    exfalso. apply (Hincl y). left. reflexivity.
  - inversion Hxs as [|x' xs' Hx Hxs']; subst. simpl.
    destruct (in_dec Nat.eq_dec x ys) as [Hin|Hnin].
    + rewrite (@sum_list_remove ys x f Hys Hin). f_equal.
      apply IH.
      * exact Hxs'.
      * apply NoDup_remove_nat. exact Hys.
      * intros y Hy. apply in_remove in Hy. destruct Hy as [Hy Hne].
        destruct (Hincl y Hy) as [E|H]; [congruence|exact H].
      * intros y Hy Hny. apply Hzero; [right; exact Hy|].
        intros Hyy. apply Hny. apply in_in_remove; [|exact Hyy].
        intros ->. contradiction.
    + rewrite (Hzero x) by (try (left; reflexivity); exact Hnin).
      rewrite (IH ys); try assumption.
      * lra.
      * intros y Hy. destruct (Hincl y Hy) as [E|H]; [subst; contradiction|exact H].
      * intros y Hy Hny. apply Hzero; [right; exact Hy|exact Hny].
Qed.

(** ** The closed form of bilinear assembly *)

Section BilinearClosedForm.

Variable store : ProxyPtr -> ProxyFunction.t.
Variable cf : CoefficientFunction.
Variable fel : FiniteElement.

(** the sample tensor of a pair (lines 335-345) *)
Lemma bfi_tensor_spec (mir : BaseMappedIntegrationRule) (proxy1 proxy2 : ProxyPtr)
      (ud : ProxyUserData.t) :
  same_pin ud ProxyUserData.fresh ->
  same_pin (fst (bfi_tensor store cf mir proxy1 proxy2 ud)) ProxyUserData.fresh
  /\ forall i l k,
      (k < Dimension store proxy1)%nat -> (l < Dimension store proxy2)%nat ->
      snd (bfi_tensor store cf mir proxy1 proxy2 ud) i l k
      = pair_value cf mir proxy1 k proxy2 l i.
Proof.
  intros Hpin. unfold bfi_tensor.
  apply (@for_invariant _
           (fun n (st : ProxyUserData.t * Tensor3) =>
              same_pin (fst st) ProxyUserData.fresh
              /\ forall i l k,
                  (k < n)%nat -> (l < Dimension store proxy2)%nat ->
                  snd st i l k = pair_value cf mir proxy1 k proxy2 l i)).
  - split; [exact Hpin|]. intros i l k Hk. lia.
  - intros n st Hn [Hst Hdone]. cbv beta.
    pose (Pinner :=
            fun m (st' : ProxyUserData.t * Tensor3) =>
              same_pin (fst st') ProxyUserData.fresh
              /\ (forall i l k,
                     (k < n)%nat -> (l < Dimension store proxy2)%nat ->
                     snd st' i l k = pair_value cf mir proxy1 k proxy2 l i)
              /\ (forall i l,
                     (l < m)%nat ->
                     snd st' i l n = pair_value cf mir proxy1 n proxy2 l i)).
    match goal with
    | |- context [for_ ?cnt ?bdy st] =>
      assert (Hinner : Pinner cnt (for_ cnt bdy st));
        [apply (@for_invariant _ Pinner); unfold Pinner|unfold Pinner in Hinner]
    end.
    3: { destruct Hinner as [Hud [Hold Hnew]]. split; [exact Hud|].
         intros i l k Hk Hl. destruct (Nat.eq_dec k n) as [->|Hne].
         - apply Hnew. exact Hl.
         - apply Hold; [lia|exact Hl]. }
    + split; [exact Hst|]. split; [exact Hdone|]. intros i l Hl. lia.
    + intros m [ud' pv] Hm [Hud [Hold Hnew]]. simpl fst in *. simpl snd in *.
      split; [exact Hud|]. split.
      * intros i l k Hk Hl. unfold assign_slice.
        assert (E : (k =? n)%nat = false) by (apply Nat.eqb_neq; lia).
        rewrite E, andb_false_r. apply Hold; assumption.
      * intros i l Hl. unfold assign_slice, Col.
        rewrite Nat.eqb_refl, andb_true_r.
        destruct (Nat.eqb_spec l m) as [->|Hne].
        -- unfold pair_value.
           rewrite <- (seed_pair_same_pin proxy1 n proxy2 m Hud). reflexivity.
        -- apply Hnew. lia.
Qed.

(** the per-point product of a pair with the weighted sample tensor *)
Lemma point_term_weighted (mir : BaseMappedIntegrationRule) (proxy1 proxy2 : ProxyPtr)
      (ud : ProxyUserData.t) (i a b : nat) :
  same_pin ud ProxyUserData.fresh -> (i < mir_Size mir)%nat ->
  point_term store fel mir proxy1 proxy2
             (apply_weights mir (snd (bfi_tensor store cf mir proxy1 proxy2 ud))) i a b
  = sum_n (Dimension store proxy2)
          (fun l =>
             CalcMatrix (Evaluator store proxy2) fel (mir_at mir i) l a
             * sum_n (Dimension store proxy1)
                     (fun k =>
                        pair_value cf mir proxy1 k proxy2 l i
                        * GetWeight (mir_at mir i)
                        * CalcMatrix (Evaluator store proxy1) fel (mir_at mir i) k b)).
Proof.
  intros Hpin Hi. unfold point_term, mat_mult, Trans, at_point.
  apply sum_n_ext. intros l Hl. f_equal.
  apply sum_n_ext. intros k Hk.
  rewrite apply_weights_spec by exact Hi.
  rewrite (proj2 (bfi_tensor_spec mir proxy1 proxy2 Hpin) i l k Hk Hl). reflexivity.
Qed.

(** one pair of the volume path adds its entry *)
Lemma volume_pair_spec (self : SymbolicBilinearFormIntegrator)
      (mir : BaseMappedIntegrationRule) (proxy1 proxy2 : ProxyPtr)
      (st : ProxyUserData.t * FlatMatrix) (a b : nat) :
  bfi_cf self = cf ->
  same_pin (fst st) ProxyUserData.fresh ->
  same_pin (fst (volume_pair store self fel mir proxy1 proxy2 st)) ProxyUserData.fresh
  /\ snd (volume_pair store self fel mir proxy1 proxy2 st) a b
     = snd st a b + volume_pair_entry store cf fel mir proxy1 proxy2 a b.
Proof.
  intros Hcf. destruct st as [ud elmat]. simpl fst. simpl snd. intros Hpin.
  unfold volume_pair. rewrite Hcf.
  pose proof (bfi_tensor_spec mir proxy1 proxy2 Hpin) as [Hud _].
  pose proof (fun i Hi => @point_term_weighted mir proxy1 proxy2 ud i a b Hpin Hi) as Hterm.
  destruct (bfi_tensor store cf mir proxy1 proxy2 ud) as [ud' pv].
  simpl fst in *. simpl snd in *. split; [exact Hud|].
  destruct (volume_contract_accumulates store fel mir proxy1 proxy2
                                        (apply_weights mir pv) BS elmat)
    as [_ [_ Hacc]].
  rewrite Hacc. unfold volume_pair_entry.
  destruct (sub_mask _ _ a b); [|lra].
  f_equal. apply sum_n_ext. intros i Hi. apply Hterm. exact Hi.
Qed.

(** the element matrix of the volume path, entry by entry *)
Lemma volume_closed_form (GetNFacets : ELEMENT_TYPE -> nat)
      (GetNormals : nat -> ELEMENT_TYPE -> nat -> Vec)
      (FacetWeight : ELEMENT_TYPE -> nat -> nat -> nat -> R)
      (self : SymbolicBilinearFormIntegrator) (trafo : ElementTransformation)
      (elmat : FlatMatrix) :
  bfi_cf self = cf -> element_boundary self = false ->
  exists m,
    T_CalcElementMatrix store GetNFacets GetNormals FacetWeight self fel trafo elmat
    = Return m
    /\ forall a b,
      m a b
      = sum_list (bfi_trial_proxies self)
                 (fun proxy1 =>
                    sum_list (bfi_test_proxies self)
                             (fun proxy2 =>
                                volume_pair_entry store cf fel
                                                  (MapRule trafo (2 * Order fel))
                                                  proxy1 proxy2 a b)).
Proof.
  intros Hcf Heb. unfold T_CalcElementMatrix. rewrite Heb.
  eexists. split; [reflexivity|]. intros a b.
  match goal with
  | |- mdata (snd (for_each ?xs ?body ?s)) a b = _ =>
    destruct (@for_each_accumulate
                _ _
                (fun st : ProxyUserData.t * FlatMatrix =>
                   same_pin (fst st) ProxyUserData.fresh)
                (fun st => snd st a b)
                (fun proxy1 =>
                   sum_list (bfi_test_proxies self)
                            (fun proxy2 =>
                               volume_pair_entry store cf fel
                                                 (MapRule trafo (2 * Order fel))
                                                 proxy1 proxy2 a b))
                xs body s) as [_ Hv]
  end.
  - apply same_pin_refl.
  - intros proxy1 st _ Hst.
    apply (@for_each_accumulate
             _ _
             (fun st : ProxyUserData.t * FlatMatrix =>
                same_pin (fst st) ProxyUserData.fresh)
             (fun st => snd st a b)).
    + exact Hst.
    + intros proxy2 st' _ Hst'. apply volume_pair_spec; assumption.
  - rewrite Hv. simpl. lra.
Qed.

End BilinearClosedForm.

Section BoundaryClosedForm.

Variable store : ProxyPtr -> ProxyFunction.t.
Variable GetNFacets : ELEMENT_TYPE -> nat.
Variable GetNormals : nat -> ELEMENT_TYPE -> nat -> Vec.
Variable FacetWeight : ELEMENT_TYPE -> nat -> nat -> nat -> R.
Variable cf : CoefficientFunction.
Variable fel : FiniteElement.
Variables h w : nat.
Variables a b : nat.

Local Abbreviation eb_state := (eb_state h w).

(** all pairs at one facet point (lines 456-483) *)
Lemma eb_point_spec (self : SymbolicBilinearFormIntegrator) (weight len : R)
      (mip : BaseMappedIntegrationPoint) (st : ProxyUserData.t * FlatMatrix) :
  bfi_cf self = cf -> eb_state st ->
  eb_state (eb_point store self fel weight len mip st)
  /\ snd (eb_point store self fel weight len mip st) a b
     = snd st a b
       + sum_list (bfi_trial_proxies self)
                  (fun proxy1 =>
                     sum_list (bfi_test_proxies self)
                              (fun proxy2 =>
                                 if full_mask h w a b
                                 then eb_pair_entry store cf fel weight len mip
                                                    proxy1 proxy2 a b
                                 else 0)).
Proof.
  intros Hcf Hst. unfold eb_point.
  apply (@for_each_accumulate _ _ eb_state (fun st => snd st a b)).
  - exact Hst.
  - intros proxy1 st1 _ Hst1.
    apply (@for_each_accumulate _ _ eb_state (fun st => snd st a b)).
    + exact Hst1.
    + intros proxy2 [ud elmat] _ [Hud [Hh Hw]]. simpl fst in *. simpl snd in *.
      rewrite Hcf.
      pose proof (eb_proxyvalues_spec store cf weight len mip proxy1 proxy2 Hud)
        as [Hud' Hpv].
      destruct (eb_proxyvalues store cf weight len mip proxy1 proxy2 ud) as [ud' pv].
      simpl fst in *. simpl snd in *.
      split; [split; [exact Hud'|split; assumption]|].
      unfold madd, full_mask. simpl. rewrite Hh, Hw.
      destruct ((a <? h)%nat && (b <? w)%nat); [|lra].
      f_equal. unfold eb_pair_entry, mat_mult, Trans.
      apply sum_n_ext. intros l Hl. f_equal.
      apply sum_n_ext. intros k Hk. rewrite (Hpv l k Hk Hl). reflexivity.
Qed.

(** the element matrix of the element-boundary path, entry by entry *)
Lemma eb_closed_form (D : nat) (self : SymbolicBilinearFormIntegrator)
      (trafo : ElementTransformation) (elmat : FlatMatrix) :
  bfi_cf self = cf -> Height elmat = h -> Width elmat = w ->
  T_CalcElementMatrixEB store GetNFacets GetNormals FacetWeight D self fel trafo elmat a b
  = sum_n (GetNFacets (GetElementType trafo))
          (fun kf =>
             sum_n (mir_Size (MapFacetRule trafo kf (2 * Order fel)))
                   (fun i =>
                      let mip := mir_at (MapFacetRule trafo kf (2 * Order fel)) i in
                      let nl := facet_normal D mip (GetNormals D (GetElementType trafo) kf) in
                      sum_list
                        (bfi_trial_proxies self)
                        (fun proxy1 =>
                           sum_list
                             (bfi_test_proxies self)
                             (fun proxy2 =>
                                if full_mask h w a b
                                then eb_pair_entry
                                       store cf fel
                                       (FacetWeight (GetElementType trafo) kf
                                                    (2 * Order fel) i)
                                       (snd nl) (SetNV mip (fst nl)) proxy1 proxy2 a b
                                else 0)))).
Proof.
  intros Hcf Hh Hw. unfold T_CalcElementMatrixEB.
  match goal with
  | |- mdata (for_ ?n ?body ?s) a b = sum_n _ ?g =>
    destruct (@for_accumulate
                _ (fun m : FlatMatrix => Height m = h /\ Width m = w)
                (fun m => m a b) g n body s) as [_ Hv]
  end.
  - split; assumption.
  - intros kf m _ [Hmh Hmw].
    match goal with
    | |- (Height (snd (for_ ?n ?body ?s)) = _ /\ _) /\ _ = _ + sum_n _ ?g =>
      destruct (@for_accumulate _ eb_state (fun st => snd st a b) g n body s)
        as [[_ Hshape] Hv]
    end.
    + split; [apply same_pin_refl|split; assumption].
    + intros i st _ Hst.
      destruct (facet_normal D _ _) as [normal len] eqn:E. cbv zeta.
      simpl fst. simpl snd.
      apply eb_point_spec; assumption.
    + split; [exact Hshape|exact Hv].
  - rewrite Hv. simpl. lra.
Qed.

End BoundaryClosedForm.

(** C8.  At every facet point the normal handed to the expression tree
    is (measure * Trans (inverse Jacobian) * reference normal) divided by
    its Euclidean length; for a non-zero length it has length 1; every
    coefficient of every pair is the value of the expression scaled by
    (facet weight * length); and the element matrix of the
    element-boundary path is the contraction of these coefficients over
    all facets, points and pairs. *)
Theorem facet_normal_unit_and_weight
        (store : ProxyPtr -> ProxyFunction.t)
        (GetNFacets : ELEMENT_TYPE -> nat)
        (GetNormals : nat -> ELEMENT_TYPE -> nat -> Vec)
        (FacetWeight : ELEMENT_TYPE -> nat -> nat -> nat -> R) (D : nat) :
  (forall (mip : BaseMappedIntegrationPoint) (normal_ref : Vec),
      let unnormalized : Vec :=
        fun r => GetMeasure mip
                 * sum_n D (fun c => GetJacobianInverse mip c r * normal_ref c) in
      let normal := fst (facet_normal D mip normal_ref) in
      let len := snd (facet_normal D mip normal_ref) in
      len = L2Norm D unnormalized
      /\ (forall r, normal r = unnormalized r / len)
      /\ GetNV (SetNV mip normal) = normal
      /\ (len <> 0 -> L2Norm D (GetNV (SetNV mip normal)) = 1)
      /\ (forall (cf : CoefficientFunction) (weight : R) (proxy1 proxy2 : ProxyPtr)
                 (ud : ProxyUserData.t) (l k : nat),
             (k < Dimension store proxy1)%nat -> (l < Dimension store proxy2)%nat ->
             snd (eb_proxyvalues store cf weight len (SetNV mip normal) proxy1 proxy2 ud)
                 l k
             = weight * len
               * cf_Evaluate cf (seed_pair ud proxy1 k proxy2 l) (SetNV mip normal) 0%nat))
  /\ (forall (self : SymbolicBilinearFormIntegrator) (fel : FiniteElement)
             (trafo : ElementTransformation) (elmat : FlatMatrix) (a b : nat),
         T_CalcElementMatrixEB store GetNFacets GetNormals FacetWeight D self fel trafo
                               elmat a b
         = sum_n (GetNFacets (GetElementType trafo))
                 (fun kf =>
                    sum_n (mir_Size (MapFacetRule trafo kf (2 * Order fel)))
                          (fun i =>
                             let mip := mir_at (MapFacetRule trafo kf (2 * Order fel)) i in
                             let nl :=
                               facet_normal D mip
                                            (GetNormals D (GetElementType trafo) kf) in
                             sum_list
                               (bfi_trial_proxies self)
                               (fun proxy1 =>
                                  sum_list
                                    (bfi_test_proxies self)
                                    (fun proxy2 =>
                                       if full_mask (Height elmat) (Width elmat) a b
                                       then eb_pair_entry
                                              store (bfi_cf self) fel
                                              (FacetWeight (GetElementType trafo) kf
                                                           (2 * Order fel)%nat i)
                                              (snd nl) (SetNV mip (fst nl))
                                              proxy1 proxy2 a b
                                       else 0))))).
Proof.
  split.
  - intros mip normal_ref. cbv zeta. unfold facet_normal. simpl fst. simpl snd.
    split; [reflexivity|]. split; [reflexivity|]. split; [reflexivity|]. split.
    + intros Hlen. simpl GetNV. apply normalized_has_unit_length. exact Hlen.
    + intros cf weight proxy1 proxy2 ud l k Hk Hl.
      apply (proj2 (eb_proxyvalues_spec store cf weight _ _ proxy1 proxy2
                                        (same_pin_refl ud)) l k Hk Hl).
  - intros self fel trafo elmat a b.
    apply (@eb_closed_form store GetNFacets GetNormals FacetWeight (bfi_cf self) fel
                           (Height elmat) (Width elmat) a b D self trafo elmat);
      reflexivity.
Qed.

Lemma facet_normal_unit_and_weight_witness :
  snd (facet_normal 2 (point_of_weight 2) e0) <> 0
  /\ L2Norm 2 (GetNV (SetNV (point_of_weight 2)
                            (fst (facet_normal 2 (point_of_weight 2) e0)))) = 1
  /\ snd (eb_proxyvalues mass_store mass_integrand 3
                         (snd (facet_normal 2 (point_of_weight 2) e0))
                         (SetNV (point_of_weight 2)
                                (fst (facet_normal 2 (point_of_weight 2) e0)))
                         0%nat 1%nat ProxyUserData.fresh) 0%nat 0%nat
     = 3 * snd (facet_normal 2 (point_of_weight 2) e0)
       * cf_Evaluate mass_integrand
                     (seed_pair ProxyUserData.fresh 0%nat 0%nat 1%nat 0%nat)
                     (SetNV (point_of_weight 2)
                            (fst (facet_normal 2 (point_of_weight 2) e0))) 0%nat.
Proof.
  assert (Hlen : snd (facet_normal 2 (point_of_weight 2) e0) <> 0).
  { unfold facet_normal, L2Norm. simpl snd.
    apply Rgt_not_eq, Rlt_gt, sqrt_lt_R0. run_model. lra. }
  destruct (proj1 (facet_normal_unit_and_weight
                     mass_store one_facet unit_normals unit_facet_weight 2)
                  (point_of_weight 2) e0)
    as [_ [_ [_ [Hunit Hcoeff]]]].
  split; [exact Hlen|]. split.
  - exact (Hunit Hlen).
  - apply Hcoeff; vm_compute; lia.
Defined.

(** ** The proxies collected by the constructors *)

Lemma Contains_In (a : list ProxyPtr) (p : ProxyPtr) : Contains a p = true <-> In p a.
Proof.
  unfold Contains. rewrite existsb_exists. split.
  - intros [q [Hq E]]. apply Nat.eqb_eq in E. subst. exact Hq.
  - intros H. exists p. split; [exact H|apply Nat.eqb_refl].
Qed.

Lemma NoDup_Append (a : list ProxyPtr) (p : ProxyPtr) :
  NoDup a -> Contains a p = false -> NoDup (Append a p).
Proof.
  intros Hnd Hc. unfold Append.
  assert (Hp : ~ In p a).
  { intros H. apply Contains_In in H. congruence. }
  clear Hc. induction a as [|x a IH]; simpl.
  - constructor; [intros []|constructor].
  - inversion Hnd as [|x' a' Hx Hnd']; subst. constructor.
    + rewrite in_app_iff. intros [H|[H|[]]]; [contradiction|].
      apply Hp. left. symmetry. exact H.
    + apply IH; [exact Hnd'|]. intros H. apply Hp. right. exact H.
Qed.

Lemma In_Append (a : list ProxyPtr) (p q : ProxyPtr) :
  In q (Append a p) <-> In q a \/ q = p.
Proof.
  unfold Append. rewrite in_app_iff. simpl. intuition.
Qed.

(** the traversal of lines 231-248 collects, without duplicates, the
    trial proxies and the test proxies among the visited nodes *)
Lemma bfi_visit_fold (store : ProxyPtr -> ProxyFunction.t) (ns : list NodeRef) :
  forall tr te,
    NoDup tr -> NoDup te ->
    NoDup (fst (for_each ns (bfi_visit store) (tr, te)))
    /\ NoDup (snd (for_each ns (bfi_visit store) (tr, te)))
    /\ (forall p, In p (fst (for_each ns (bfi_visit store) (tr, te)))
                  <-> In p tr
                      \/ (In (ProxyNode p) ns /\ IsTestFunction store p = false))
    /\ (forall p, In p (snd (for_each ns (bfi_visit store) (tr, te)))
                  <-> In p te
                      \/ (In (ProxyNode p) ns /\ IsTestFunction store p = true)).
Proof.
  unfold for_each. induction ns as [|n ns IH]; intros tr te Htr Hte.
  - simpl. repeat split; auto; intros [H|[[] _]]; exact H.
  - assert (Hcons : forall s,
               fold_left (fun st x => bfi_visit store x st) (n :: ns) s
               = fold_left (fun st x => bfi_visit store x st) ns (bfi_visit store n s))
      by reflexivity.
    rewrite !Hcons. clear Hcons.
    assert (Hstep :
              exists tr' te',
                bfi_visit store n (tr, te) = (tr', te')
                /\ NoDup tr' /\ NoDup te'
                /\ (forall p, In p tr'
                              <-> In p tr \/ (n = ProxyNode p
                                              /\ IsTestFunction store p = false))
                /\ (forall p, In p te'
                              <-> In p te \/ (n = ProxyNode p
                                              /\ IsTestFunction store p = true))).
    { destruct n as [q|]; simpl.
      - destruct (IsTestFunction store q) eqn:Hq.
        + destruct (Contains te q) eqn:Hc; simpl;
            eexists _, _; (split; [reflexivity|]); (split; [exact Htr|]).
          * split; [exact Hte|]. split.
            -- intros p. split; [auto|]. intros [H|[E Hf]]; [exact H|].
               injection E as E'. subst p. congruence.
            -- intros p. split; [auto|]. intros [H|[E Hf]]; [exact H|].
               injection E as E'. subst p. apply Contains_In. exact Hc.
          * split; [apply NoDup_Append; assumption|]. split.
            -- intros p. split; [auto|]. intros [H|[E Hf]]; [exact H|].
               injection E as E'. subst p. congruence.
            -- intros p. rewrite In_Append. split.
               ++ intros [H| ->]; [left; exact H|right; split; [reflexivity|exact Hq]].
               ++ intros [H|[E Hf]]; [left; exact H|]. injection E as E'. subst p. right. reflexivity.
        + destruct (Contains tr q) eqn:Hc; simpl;
            eexists _, _; (split; [reflexivity|]).
          * split; [exact Htr|]. split; [exact Hte|]. split.
            -- intros p. split; [auto|]. intros [H|[E Hf]]; [exact H|].
               injection E as E'. subst p. apply Contains_In. exact Hc.
            -- intros p. split; [auto|]. intros [H|[E Hf]]; [exact H|].
               injection E as E'. subst p. congruence.
          * split; [apply NoDup_Append; assumption|]. split; [exact Hte|]. split.
            -- intros p. rewrite In_Append. split.
               ++ intros [H| ->]; [left; exact H|right; split; [reflexivity|exact Hq]].
               ++ intros [H|[E Hf]]; [left; exact H|]. injection E as E'. subst p. right. reflexivity.
            -- intros p. split; [auto|]. intros [H|[E Hf]]; [exact H|].
               injection E as E'. subst p. congruence.
      - eexists _, _. split; [reflexivity|]. split; [exact Htr|]. split; [exact Hte|].
        split; intros p; (split; [auto|]); intros [H|[E _]]; try exact H; discriminate E. }
    destruct Hstep as [tr' [te' [E [Htr' [Hte' [Hin1 Hin2]]]]]].
    rewrite E. destruct (IH tr' te' Htr' Hte') as [H1 [H2 [H3 H4]]].
    split; [exact H1|]. split; [exact H2|]. split.
    + intros p. rewrite H3, Hin1. simpl. intuition (subst; auto; try congruence).
    + intros p. rewrite H4, Hin2. simpl. intuition (subst; auto; try congruence).
Qed.

Lemma mkSymbolicBilinearFormIntegrator_spec (store : ProxyPtr -> ProxyFunction.t)
      (acf : CoefficientFunction) (avb : VorB) (aeb : bool)
      (self : SymbolicBilinearFormIntegrator) :
  mkSymbolicBilinearFormIntegrator store acf avb aeb = Return self ->
  bfi_cf self = acf /\ element_boundary self = aeb
  /\ NoDup (bfi_trial_proxies self) /\ NoDup (bfi_test_proxies self)
  /\ (forall p, In p (bfi_trial_proxies self)
                <-> In (ProxyNode p) (TraverseTree acf) /\ IsTestFunction store p = false)
  /\ (forall p, In p (bfi_test_proxies self)
                <-> In (ProxyNode p) (TraverseTree acf) /\ IsTestFunction store p = true).
Proof.
  unfold mkSymbolicBilinearFormIntegrator.
  destruct (negb (cf_Dimension acf =? 1)%nat); [discriminate|].
  pose proof (@bfi_visit_fold store (TraverseTree acf) [] [] (NoDup_nil _) (NoDup_nil _))
    as [H1 [H2 [H3 H4]]].
  destruct (for_each (TraverseTree acf) (bfi_visit store) ([], [])) as [trial test].
  simpl fst in *. simpl snd in *.
  intros E. injection E as <-. simpl.
  split; [reflexivity|]. split; [reflexivity|]. split; [exact H1|]. split; [exact H2|].
  split; intros p; [rewrite H3|rewrite H4]; simpl; intuition.
Qed.

(** a double sum over proxy pairs only sees the pairs of the sublists
    outside of which the summand vanishes *)
Lemma pair_sum_restrict (T12 S12 T1 S1 : list ProxyPtr) (E : ProxyPtr -> ProxyPtr -> R) :
  NoDup T12 -> NoDup S12 -> NoDup T1 -> NoDup S1 ->
  incl T1 T12 -> incl S1 S12 ->
  (forall p1 p2, In p1 T12 -> In p2 S12 -> ~ In p1 T1 \/ ~ In p2 S1 -> E p1 p2 = 0) ->
  sum_list T12 (fun p1 => sum_list S12 (E p1))
  = sum_list T1 (fun p1 => sum_list S1 (E p1)).
Proof.
  intros HT12 HS12 HT1 HS1 HiT HiS Hzero.
  rewrite (@sum_list_restrict T12 T1 _ HT12 HT1 HiT).
  - apply sum_list_ext. intros p1 Hp1.
    apply (@sum_list_restrict S12 S1 _ HS12 HS1 HiS).
    intros p2 Hp2 Hn. apply Hzero; auto.
  - intros p1 Hp1 Hn. apply sum_list_zero. intros p2 Hp2. apply Hzero; auto.
Qed.

Section Superposition.

Variable store : ProxyPtr -> ProxyFunction.t.
Variables cf1 cf2 : CoefficientFunction.
Variable avb : VorB.
Variable aeb : bool.
Variables bfi1 bfi2 bfi12 : SymbolicBilinearFormIntegrator.

Hypothesis Hmk1 : mkSymbolicBilinearFormIntegrator store cf1 avb aeb = Return bfi1.
Hypothesis Hmk2 : mkSymbolicBilinearFormIntegrator store cf2 avb aeb = Return bfi2.
Hypothesis Hmk12 :
  mkSymbolicBilinearFormIntegrator store (AddCF cf1 cf2) avb aeb = Return bfi12.
Hypothesis Hvanish1 :
  vanishes_off_proxies store cf1 (bfi_trial_proxies bfi1) (bfi_test_proxies bfi1).
Hypothesis Hvanish2 :
  vanishes_off_proxies store cf2 (bfi_trial_proxies bfi2) (bfi_test_proxies bfi2).

Lemma In_ProxyNode_AddCF (p : ProxyPtr) :
  In (ProxyNode p) (TraverseTree (AddCF cf1 cf2))
  <-> In (ProxyNode p) (TraverseTree cf1) \/ In (ProxyNode p) (TraverseTree cf2).
Proof.
  simpl. rewrite !in_app_iff. simpl. intuition discriminate.
Qed.

(** the sum over the pairs of the sum expression splits into the sums
    over the pairs of the operands *)
Lemma pair_sum_superposition (E1 E2 E12 : ProxyPtr -> ProxyPtr -> R) :
  (forall p1 p2, E12 p1 p2 = E1 p1 p2 + E2 p1 p2) ->
  (forall p1 p2,
      IsTestFunction store p1 = false -> IsTestFunction store p2 = true ->
      ~ In p1 (bfi_trial_proxies bfi1) \/ ~ In p2 (bfi_test_proxies bfi1) ->
      E1 p1 p2 = 0) ->
  (forall p1 p2,
      IsTestFunction store p1 = false -> IsTestFunction store p2 = true ->
      ~ In p1 (bfi_trial_proxies bfi2) \/ ~ In p2 (bfi_test_proxies bfi2) ->
      E2 p1 p2 = 0) ->
  sum_list (bfi_trial_proxies bfi12) (fun p1 => sum_list (bfi_test_proxies bfi12) (E12 p1))
  = sum_list (bfi_trial_proxies bfi1) (fun p1 => sum_list (bfi_test_proxies bfi1) (E1 p1))
    + sum_list (bfi_trial_proxies bfi2) (fun p1 => sum_list (bfi_test_proxies bfi2) (E2 p1)).
Proof.
  intros Hadd Hz1 Hz2.
  destruct (mkSymbolicBilinearFormIntegrator_spec _ _ _ _ Hmk1)
    as [_ [_ [HT1 [HS1 [HinT1 HinS1]]]]].
  destruct (mkSymbolicBilinearFormIntegrator_spec _ _ _ _ Hmk2)
    as [_ [_ [HT2 [HS2 [HinT2 HinS2]]]]].
  destruct (mkSymbolicBilinearFormIntegrator_spec _ _ _ _ Hmk12)
    as [_ [_ [HT12 [HS12 [HinT12 HinS12]]]]].
  rewrite (@sum_list_ext _ _ _
             (fun p1 => sum_list (bfi_test_proxies bfi12) (E1 p1)
                        + sum_list (bfi_test_proxies bfi12) (E2 p1))).
  2: { intros p1 _. rewrite <- sum_list_plus. apply sum_list_ext. intros p2 _. apply Hadd. }
  rewrite sum_list_plus. f_equal.
  - apply pair_sum_restrict; try assumption.
    + intros p Hp. apply HinT12. apply HinT1 in Hp. rewrite In_ProxyNode_AddCF. tauto.
    + intros p Hp. apply HinS12. apply HinS1 in Hp. rewrite In_ProxyNode_AddCF. tauto.
    + intros p1 p2 Hp1 Hp2 Hn. apply Hz1; [apply HinT12, Hp1|apply HinS12, Hp2|exact Hn].
  - apply pair_sum_restrict; try assumption.
    + intros p Hp. apply HinT12. apply HinT2 in Hp. rewrite In_ProxyNode_AddCF. tauto.
    + intros p Hp. apply HinS12. apply HinS2 in Hp. rewrite In_ProxyNode_AddCF. tauto.
    + intros p1 p2 Hp1 Hp2 Hn. apply Hz2; [apply HinT12, Hp1|apply HinS12, Hp2|exact Hn].
Qed.

Variable fel : FiniteElement.

Lemma volume_pair_entry_add (mir : BaseMappedIntegrationRule) (p1 p2 : ProxyPtr)
      (a b : nat) :
  volume_pair_entry store (AddCF cf1 cf2) fel mir p1 p2 a b
  = volume_pair_entry store cf1 fel mir p1 p2 a b
    + volume_pair_entry store cf2 fel mir p1 p2 a b.
Proof.
  unfold volume_pair_entry. destruct (sub_mask _ _ a b); [|lra].
  rewrite <- sum_n_plus. apply sum_n_ext. intros i _.
  rewrite <- sum_n_plus. apply sum_n_ext. intros l _.
  rewrite <- Rmult_plus_distr_l. f_equal.
  rewrite <- sum_n_plus. apply sum_n_ext. intros k _.
  unfold pair_value. simpl. lra.
Qed.

Lemma volume_pair_entry_vanishes (cf : CoefficientFunction) (trial test : list ProxyPtr)
      (mir : BaseMappedIntegrationRule) (p1 p2 : ProxyPtr) (a b : nat) :
  vanishes_off_proxies store cf trial test ->
  IsTestFunction store p1 = false -> IsTestFunction store p2 = true ->
  ~ In p1 trial \/ ~ In p2 test ->
  volume_pair_entry store cf fel mir p1 p2 a b = 0.
Proof.
  intros Hv H1 H2 Hn. unfold volume_pair_entry.
  destruct (sub_mask _ _ a b); [|reflexivity].
  apply sum_n_zero. intros i _. apply sum_n_zero. intros l _.
  rewrite sum_n_zero; [lra|]. intros k _. unfold pair_value.
  rewrite (proj2 (Hv p1 k p2 l H1 H2 Hn)). lra.
Qed.

Lemma eb_pair_entry_add (weight len : R) (mip : BaseMappedIntegrationPoint)
      (p1 p2 : ProxyPtr) (a b : nat) :
  eb_pair_entry store (AddCF cf1 cf2) fel weight len mip p1 p2 a b
  = eb_pair_entry store cf1 fel weight len mip p1 p2 a b
    + eb_pair_entry store cf2 fel weight len mip p1 p2 a b.
Proof.
  unfold eb_pair_entry.
  rewrite <- sum_n_plus. apply sum_n_ext. intros l _.
  rewrite <- Rmult_plus_distr_l. f_equal.
  rewrite <- sum_n_plus. apply sum_n_ext. intros k _.
  simpl. lra.
Qed.

Lemma eb_pair_entry_vanishes (cf : CoefficientFunction) (trial test : list ProxyPtr)
      (weight len : R) (mip : BaseMappedIntegrationPoint) (p1 p2 : ProxyPtr) (a b : nat) :
  vanishes_off_proxies store cf trial test ->
  IsTestFunction store p1 = false -> IsTestFunction store p2 = true ->
  ~ In p1 trial \/ ~ In p2 test ->
  eb_pair_entry store cf fel weight len mip p1 p2 a b = 0.
Proof.
  intros Hv H1 H2 Hn. unfold eb_pair_entry.
  apply sum_n_zero. intros l _.
  rewrite sum_n_zero; [lra|]. intros k _.
  rewrite (proj1 (Hv p1 k p2 l H1 H2 Hn)). lra.
Qed.

Variable GetNFacets : ELEMENT_TYPE -> nat.
Variable GetNormals : nat -> ELEMENT_TYPE -> nat -> Vec.
Variable FacetWeight : ELEMENT_TYPE -> nat -> nat -> nat -> R.
Variable trafo : ElementTransformation.
Variable elmat : FlatMatrix.

Lemma eb_superposition (D : nat) (a b : nat) :
  T_CalcElementMatrixEB store GetNFacets GetNormals FacetWeight D bfi12 fel trafo elmat a b
  = T_CalcElementMatrixEB store GetNFacets GetNormals FacetWeight D bfi1 fel trafo elmat a b
    + T_CalcElementMatrixEB store GetNFacets GetNormals FacetWeight D bfi2 fel trafo elmat
                            a b.
Proof.
  destruct (mkSymbolicBilinearFormIntegrator_spec _ _ _ _ Hmk1) as [Hcf1 _].
  destruct (mkSymbolicBilinearFormIntegrator_spec _ _ _ _ Hmk2) as [Hcf2 _].
  destruct (mkSymbolicBilinearFormIntegrator_spec _ _ _ _ Hmk12) as [Hcf12 _].
  rewrite (@eb_closed_form store GetNFacets GetNormals FacetWeight _ fel _ _ a b D
                           bfi12 trafo elmat Hcf12 eq_refl eq_refl).
  rewrite (@eb_closed_form store GetNFacets GetNormals FacetWeight _ fel _ _ a b D
                           bfi1 trafo elmat Hcf1 eq_refl eq_refl).
  rewrite (@eb_closed_form store GetNFacets GetNormals FacetWeight _ fel _ _ a b D
                           bfi2 trafo elmat Hcf2 eq_refl eq_refl).
  rewrite <- sum_n_plus. apply sum_n_ext. intros kf _.
  rewrite <- sum_n_plus. apply sum_n_ext. intros i _. cbv zeta.
  apply pair_sum_superposition.
  - intros p1 p2. rewrite eb_pair_entry_add. destruct (full_mask _ _ a b); lra.
  - intros p1 p2 H1 H2 Hn.
    rewrite (@eb_pair_entry_vanishes cf1 _ _ _ _ _ p1 p2 a b Hvanish1 H1 H2 Hn).
    destruct (full_mask _ _ a b); reflexivity.
  - intros p1 p2 H1 H2 Hn.
    rewrite (@eb_pair_entry_vanishes cf2 _ _ _ _ _ p1 p2 a b Hvanish2 H1 H2 Hn).
    destruct (full_mask _ _ a b); reflexivity.
Qed.

Lemma superposition (m1 m2 : FlatMatrix) :
  T_CalcElementMatrix store GetNFacets GetNormals FacetWeight bfi1 fel trafo elmat
  = Return m1 ->
  T_CalcElementMatrix store GetNFacets GetNormals FacetWeight bfi2 fel trafo elmat
  = Return m2 ->
  exists m12,
    T_CalcElementMatrix store GetNFacets GetNormals FacetWeight bfi12 fel trafo elmat
    = Return m12
    /\ forall a b, m12 a b = m1 a b + m2 a b.
Proof.
  destruct (mkSymbolicBilinearFormIntegrator_spec _ _ _ _ Hmk1) as [Hcf1 [Heb1 _]].
  destruct (mkSymbolicBilinearFormIntegrator_spec _ _ _ _ Hmk2) as [Hcf2 [Heb2 _]].
  destruct (mkSymbolicBilinearFormIntegrator_spec _ _ _ _ Hmk12) as [Hcf12 [Heb12 _]].
  assert (Hcase : aeb = true \/ aeb = false) by (destruct aeb; auto).
  destruct Hcase as [Hb|Hb]; rewrite Hb in Heb1, Heb2, Heb12.
  - unfold T_CalcElementMatrix. rewrite Heb1, Heb2, Heb12.
    destruct (SpaceDim trafo) as [|[|[|[|d]]]]; try discriminate;
      intros E1 E2; injection E1 as <-; injection E2 as <-;
        (eexists; split; [reflexivity|]); intros a b; apply eb_superposition.
  - intros E1 E2.
    destruct (@volume_closed_form store cf1 fel GetNFacets GetNormals FacetWeight
                                  bfi1 trafo elmat Hcf1 Heb1) as [m1' [E1' Hm1]].
    destruct (@volume_closed_form store cf2 fel GetNFacets GetNormals FacetWeight
                                  bfi2 trafo elmat Hcf2 Heb2) as [m2' [E2' Hm2]].
    destruct (@volume_closed_form store (AddCF cf1 cf2) fel GetNFacets GetNormals
                                  FacetWeight bfi12 trafo elmat Hcf12 Heb12)
      as [m12 [E12 Hm12]].
    rewrite E1 in E1'. injection E1' as <-.
    rewrite E2 in E2'. injection E2' as <-.
    exists m12. split; [exact E12|]. intros a b.
    rewrite Hm12, Hm1, Hm2.
    apply pair_sum_superposition.
    + intros p1 p2. apply volume_pair_entry_add.
    + intros p1 p2 H1 H2 Hn.
      apply (@volume_pair_entry_vanishes cf1 _ _ _ p1 p2 a b Hvanish1 H1 H2 Hn).
    + intros p1 p2 H1 H2 Hn.
      apply (@volume_pair_entry_vanishes cf2 _ _ _ p1 p2 a b Hvanish2 H1 H2 Hn).
Qed.

End Superposition.

(** C9, as the code has it.  For two scalar expressions each of which
    evaluates to zero whenever the seeded trial proxy or the seeded test
    proxy is not one of its own (as bilinear expressions do), the
    element matrix of their sum is the sum of their element matrices,
    on the volume path and on the element-boundary path. *)
Theorem bilinear_assembly_superposition
        (store : ProxyPtr -> ProxyFunction.t)
        (GetNFacets : ELEMENT_TYPE -> nat)
        (GetNormals : nat -> ELEMENT_TYPE -> nat -> Vec)
        (FacetWeight : ELEMENT_TYPE -> nat -> nat -> nat -> R)
        (cf1 cf2 : CoefficientFunction) (avb : VorB) (aeb : bool)
        (bfi1 bfi2 bfi12 : SymbolicBilinearFormIntegrator)
        (fel : FiniteElement) (trafo : ElementTransformation)
        (elmat m1 m2 : FlatMatrix) :
  mkSymbolicBilinearFormIntegrator store cf1 avb aeb = Return bfi1 ->
  mkSymbolicBilinearFormIntegrator store cf2 avb aeb = Return bfi2 ->
  mkSymbolicBilinearFormIntegrator store (AddCF cf1 cf2) avb aeb = Return bfi12 ->
  vanishes_off_proxies store cf1 (bfi_trial_proxies bfi1) (bfi_test_proxies bfi1) ->
  vanishes_off_proxies store cf2 (bfi_trial_proxies bfi2) (bfi_test_proxies bfi2) ->
  CalcElementMatrix store GetNFacets GetNormals FacetWeight bfi1 fel trafo elmat
  = Return m1 ->
  CalcElementMatrix store GetNFacets GetNormals FacetWeight bfi2 fel trafo elmat
  = Return m2 ->
  exists m12,
    CalcElementMatrix store GetNFacets GetNormals FacetWeight bfi12 fel trafo elmat
    = Return m12
    /\ forall a b, m12 a b = m1 a b + m2 a b.
Proof.
  intros Hmk1 Hmk2 Hmk12 Hv1 Hv2 E1 E2.
  exact (@superposition store cf1 cf2 avb aeb bfi1 bfi2 bfi12 Hmk1 Hmk2 Hmk12 Hv1 Hv2
                        fel GetNFacets GetNormals FacetWeight trafo elmat m1 m2 E1 E2).
Qed.

Lemma mass_integrand_vanishes :
  vanishes_off_proxies mass_store mass_integrand [0%nat] [1%nat].
Proof.
  intros p1 k p2 l H1 H2 Hn.
  assert (E1 : p1 = 0%nat).
  { destruct p1; [reflexivity|discriminate H1]. }
  subst p1.
  assert (E2 : (p2 =? 1)%nat = false /\ (p2 =? 0)%nat = false).
  { destruct Hn as [Hn|Hn]; [exfalso; apply Hn; left; reflexivity|].
    destruct p2 as [|[|p2]]; [discriminate H2|exfalso; apply Hn; left; reflexivity|].
    split; reflexivity. }
  destruct E2 as [E21 E20].
  assert (Hzero : forall mip,
             Evaluate_ud mass_store 1%nat (seed_pair ProxyUserData.fresh 0%nat k p2 l) mip 0%nat
             = 0).
  { intros mip. unfold Evaluate_ud, seed_pair, ptr_is. simpl. rewrite E21. reflexivity. }
  split.
  - intros mip. simpl. rewrite Hzero. lra.
  - intros mir i. simpl. unfold EvaluateIR_ud. rewrite Hzero. lra.
Defined.

Lemma bilinear_assembly_superposition_witness :
  exists m12,
    CalcElementMatrix mass_store one_facet unit_normals unit_facet_weight
                      double_mass_bfi fel1 (one_point_trafo 1) (const_matrix 1 1 0)
    = Return m12
    /\ forall a b,
      m12 a b
      = returned (CalcElementMatrix mass_store one_facet unit_normals unit_facet_weight
                                    (mass_bfi false) fel1 (one_point_trafo 1)
                                    (const_matrix 1 1 0)) a b
        + returned (CalcElementMatrix mass_store one_facet unit_normals unit_facet_weight
                                      (mass_bfi false) fel1 (one_point_trafo 1)
                                      (const_matrix 1 1 0)) a b.
Proof.
  apply (@bilinear_assembly_superposition
           mass_store one_facet unit_normals unit_facet_weight
           mass_integrand mass_integrand VOL false
           (mass_bfi false) (mass_bfi false) double_mass_bfi
           fel1 (one_point_trafo 1) (const_matrix 1 1 0)).
  - reflexivity.
  - reflexivity.
  - reflexivity.
  - exact mass_integrand_vanishes.
  - exact mass_integrand_vanishes.
  - reflexivity.
  - reflexivity.
Defined.

(** C9 as stated fails for expressions that are not bilinear in their
    proxies: the constant 1 assembles to the zero matrix, the mass
    integrand to (1), their sum to (2). *)
Lemma superposition_fails_for_constant_summand :
  mkSymbolicBilinearFormIntegrator mass_store (ConstantCF 1) VOL false
  = Return constant_bfi
  /\ mkSymbolicBilinearFormIntegrator mass_store mass_integrand VOL false
     = Return (mass_bfi false)
  /\ mkSymbolicBilinearFormIntegrator mass_store (AddCF (ConstantCF 1) mass_integrand)
                                      VOL false
     = Return shifted_mass_bfi
  /\ exists m1 m2 m12,
      CalcElementMatrix mass_store one_facet unit_normals unit_facet_weight
                        constant_bfi fel1 (one_point_trafo 1) (const_matrix 1 1 0)
      = Return m1
      /\ CalcElementMatrix mass_store one_facet unit_normals unit_facet_weight
                           (mass_bfi false) fel1 (one_point_trafo 1) (const_matrix 1 1 0)
         = Return m2
      /\ CalcElementMatrix mass_store one_facet unit_normals unit_facet_weight
                           shifted_mass_bfi fel1 (one_point_trafo 1) (const_matrix 1 1 0)
         = Return m12
      /\ m1 0%nat 0%nat = 0 /\ m2 0%nat 0%nat = 1 /\ m12 0%nat 0%nat = 2
      /\ m12 0%nat 0%nat <> m1 0%nat 0%nat + m2 0%nat 0%nat.
Proof.
  split; [reflexivity|]. split; [reflexivity|]. split; [reflexivity|].
  eexists _, _, _.
  split; [reflexivity|]. split; [reflexivity|]. split; [reflexivity|].
  assert (H1 : mdata (returned (CalcElementMatrix
                                  mass_store one_facet unit_normals unit_facet_weight
                                  constant_bfi fel1 (one_point_trafo 1)
                                  (const_matrix 1 1 0))) 0%nat 0%nat = 0)
    by (run_model; lra).
  assert (H2 : mdata (returned (CalcElementMatrix
                                  mass_store one_facet unit_normals unit_facet_weight
                                  (mass_bfi false) fel1 (one_point_trafo 1)
                                  (const_matrix 1 1 0))) 0%nat 0%nat = 1)
    by (run_model; lra).
  assert (H12 : mdata (returned (CalcElementMatrix
                                   mass_store one_facet unit_normals unit_facet_weight
                                   shifted_mass_bfi fel1 (one_point_trafo 1)
                                   (const_matrix 1 1 0))) 0%nat 0%nat = 2)
    by (run_model; lra).
  split; [exact H1|]. split; [exact H2|]. split; [exact H12|].
  change (mdata (returned (CalcElementMatrix
                             mass_store one_facet unit_normals unit_facet_weight
                             shifted_mass_bfi fel1 (one_point_trafo 1)
                             (const_matrix 1 1 0))) 0%nat 0%nat
          <> mdata (returned (CalcElementMatrix
                                mass_store one_facet unit_normals unit_facet_weight
                                constant_bfi fel1 (one_point_trafo 1)
                                (const_matrix 1 1 0))) 0%nat 0%nat
             + mdata (returned (CalcElementMatrix
                                  mass_store one_facet unit_normals unit_facet_weight
                                  (mass_bfi false) fel1 (one_point_trafo 1)
                                  (const_matrix 1 1 0))) 0%nat 0%nat).
  rewrite H1, H2, H12. lra.
Qed.

(** * Further properties of the source *)

(** ** The constructors *)

Lemma lfi_visit_fold (ns : list NodeRef) :
  forall ps,
    NoDup ps ->
    NoDup (for_each ns lfi_visit ps)
    /\ forall p, In p (for_each ns lfi_visit ps) <-> In p ps \/ In (ProxyNode p) ns.
Proof.
  unfold for_each. induction ns as [|n ns IH]; intros ps Hps.
  - simpl. split; [exact Hps|]. intros p. tauto.
  - assert (Hcons : forall s,
               fold_left (fun st x => lfi_visit x st) (n :: ns) s
               = fold_left (fun st x => lfi_visit x st) ns (lfi_visit n s))
      by reflexivity.
    rewrite !Hcons. clear Hcons.
    assert (Hstep : NoDup (lfi_visit n ps)
                    /\ forall p, In p (lfi_visit n ps) <-> In p ps \/ n = ProxyNode p).
    { destruct n as [q|]; unfold lfi_visit; simpl.
      - destruct (Contains ps q) eqn:Hc; simpl.
        + split; [exact Hps|]. intros p. split; [auto|].
          intros [H|E]; [exact H|]. injection E as E'. subst p.
          apply Contains_In. exact Hc.
        + split; [apply NoDup_Append; assumption|].
          intros p. rewrite In_Append. split.
          * intros [H| ->]; [left; exact H|right; reflexivity].
          * intros [H|E]; [left; exact H|]. injection E as E'. subst p. right. reflexivity.
      - split; [exact Hps|]. intros p. split; [auto|].
        intros [H|E]; [exact H|discriminate E]. }
    destruct Hstep as [Hnd Hin].
    destruct (IH (lfi_visit n ps) Hnd) as [H1 H2].
    split; [exact H1|]. intros p. rewrite H2, Hin. simpl.
    intuition (subst; auto; try congruence).
Qed.

Lemma en_visit_fold (store : ProxyPtr -> ProxyFunction.t) (ns : list NodeRef) :
  forall ps,
    NoDup ps ->
    NoDup (for_each ns (en_visit store) ps)
    /\ forall p, In p (for_each ns (en_visit store) ps)
                 <-> In p ps \/ (In (ProxyNode p) ns /\ IsTestFunction store p = false).
Proof.
  unfold for_each. induction ns as [|n ns IH]; intros ps Hps.
  - simpl. split; [exact Hps|]. intros p. tauto.
  - assert (Hcons : forall s,
               fold_left (fun st x => en_visit store x st) (n :: ns) s
               = fold_left (fun st x => en_visit store x st) ns (en_visit store n s))
      by reflexivity.
    rewrite !Hcons. clear Hcons.
    assert (Hstep : NoDup (en_visit store n ps)
                    /\ forall p, In p (en_visit store n ps)
                                 <-> In p ps \/ (n = ProxyNode p
                                                 /\ IsTestFunction store p = false)).
    { destruct n as [q|]; unfold en_visit; simpl.
      - destruct (IsTestFunction store q) eqn:Hq; simpl.
        + split; [exact Hps|]. intros p. split; [auto|].
          intros [H|[E Hf]]; [exact H|]. injection E as E'. subst p. congruence.
        + destruct (Contains ps q) eqn:Hc; simpl.
          * split; [exact Hps|]. intros p. split; [auto|].
            intros [H|[E Hf]]; [exact H|]. injection E as E'. subst p.
            apply Contains_In. exact Hc.
          * split; [apply NoDup_Append; assumption|].
            intros p. rewrite In_Append. split.
            -- intros [H| ->]; [left; exact H|right; split; [reflexivity|exact Hq]].
            -- intros [H|[E Hf]]; [left; exact H|]. injection E as E'. subst p.
               right. reflexivity.
      - split; [exact Hps|]. intros p. split; [auto|].
        intros [H|[E _]]; [exact H|discriminate E]. }
    destruct Hstep as [Hnd Hin].
    destruct (IH (en_visit store n ps) Hnd) as [H1 H2].
    split; [exact H1|]. intros p. rewrite H2, Hin. simpl.
    intuition (subst; auto; try congruence).
Qed.

Lemma Dimension_test (n : nat) :
  (n <> 1%nat -> negb (n =? 1)%nat = true) /\ (n = 1%nat -> negb (n =? 1)%nat = false).
Proof.
  split; intros H.
  - apply Nat.eqb_neq in H. rewrite H. reflexivity.
  - subst. reflexivity.
Qed.

(** X1.  The constructor of the bilinear-form integrator refuses an
    expression whose dimension is not 1; otherwise it keeps the
    expression and the flag and collects, each once, the trial proxies and
    the test proxies visited by the traversal: no proxy is in both lists. *)
Theorem bilinear_constructor_collects_proxies
        (store : ProxyPtr -> ProxyFunction.t) (acf : CoefficientFunction)
        (avb : VorB) (aeb : bool) :
  (cf_Dimension acf <> 1%nat ->
   mkSymbolicBilinearFormIntegrator store acf avb aeb
   = Throw "SymblicBFI needs scalar-valued CoefficientFunction")
  /\ (cf_Dimension acf = 1%nat ->
      exists self,
        mkSymbolicBilinearFormIntegrator store acf avb aeb = Return self
        /\ bfi_cf self = acf /\ bfi_vb self = avb /\ element_boundary self = aeb
        /\ NoDup (bfi_trial_proxies self) /\ NoDup (bfi_test_proxies self)
        /\ (forall p, In p (bfi_trial_proxies self)
                      <-> In (ProxyNode p) (TraverseTree acf)
                          /\ IsTestFunction store p = false)
        /\ (forall p, In p (bfi_test_proxies self)
                      <-> In (ProxyNode p) (TraverseTree acf)
                          /\ IsTestFunction store p = true)
        /\ (forall p, In p (bfi_trial_proxies self) -> ~ In p (bfi_test_proxies self))).
Proof.
  destruct (Dimension_test (cf_Dimension acf)) as [Hne Heq]. split; intros H.
  - unfold mkSymbolicBilinearFormIntegrator. rewrite (Hne H). reflexivity.
  - unfold mkSymbolicBilinearFormIntegrator. rewrite (Heq H).
    pose proof (@bfi_visit_fold store (TraverseTree acf) [] [] (NoDup_nil _) (NoDup_nil _))
      as [H1 [H2 [H3 H4]]].
    destruct (for_each (TraverseTree acf) (bfi_visit store) ([], [])) as [trial test].
    simpl fst in *. simpl snd in *.
    eexists. split; [reflexivity|]. simpl.
    split; [reflexivity|]. split; [reflexivity|]. split; [reflexivity|].
    split; [exact H1|]. split; [exact H2|].
    assert (Ht : forall p, In p trial
                           <-> In (ProxyNode p) (TraverseTree acf)
                               /\ IsTestFunction store p = false)
      by (intros p; rewrite H3; simpl; tauto).
    assert (Hs : forall p, In p test
                           <-> In (ProxyNode p) (TraverseTree acf)
                               /\ IsTestFunction store p = true)
      by (intros p; rewrite H4; simpl; tauto).
    split; [exact Ht|]. split; [exact Hs|].
    intros p Hp Hq. apply Ht in Hp. apply Hs in Hq.
    destruct Hp as [_ Hp], Hq as [_ Hq]. congruence.
Qed.

Lemma bilinear_constructor_collects_proxies_witness :
  exists self,
    mkSymbolicBilinearFormIntegrator mass_store mass_integrand VOL false = Return self
    /\ NoDup (bfi_trial_proxies self) /\ NoDup (bfi_test_proxies self).
Proof.
  destruct (proj2 (bilinear_constructor_collects_proxies
                     mass_store mass_integrand VOL false) eq_refl)
    as [self [E [_ [_ [_ [H1 [H2 _]]]]]]].
  exists self. split; [exact E|]. split; [exact H1|exact H2].
Defined.

(** X2.  The constructor of the linear-form integrator refuses an
    expression whose dimension is not 1; otherwise it collects, each
    once, every proxy visited by the traversal, trial proxies as well as
    test proxies. *)
Theorem linear_form_constructor_collects_proxies
        (acf : CoefficientFunction) (avb : VorB) :
  (cf_Dimension acf <> 1%nat ->
   mkSymbolicLinearFormIntegrator acf avb
   = Throw "SymbolicLFI needs scalar-valued CoefficientFunction")
  /\ (cf_Dimension acf = 1%nat ->
      exists self,
        mkSymbolicLinearFormIntegrator acf avb = Return self
        /\ lfi_cf self = acf /\ lfi_vb self = avb
        /\ NoDup (proxies self)
        /\ forall p, In p (proxies self) <-> In (ProxyNode p) (TraverseTree acf)).
Proof.
  destruct (Dimension_test (cf_Dimension acf)) as [Hne Heq]. split; intros H.
  - unfold mkSymbolicLinearFormIntegrator. rewrite (Hne H). reflexivity.
  - unfold mkSymbolicLinearFormIntegrator. rewrite (Heq H).
    destruct (@lfi_visit_fold (TraverseTree acf) [] (NoDup_nil _)) as [H1 H2].
    eexists. split; [reflexivity|]. simpl.
    split; [reflexivity|]. split; [reflexivity|]. split; [exact H1|].
    intros p. rewrite H2. simpl. tauto.
Qed.

Lemma linear_form_constructor_collects_proxies_witness :
  exists self,
    mkSymbolicLinearFormIntegrator mass_integrand VOL = Return self
    /\ forall p, In p (proxies self) <-> In (ProxyNode p) (TraverseTree mass_integrand).
Proof.
  destruct (proj2 (linear_form_constructor_collects_proxies mass_integrand VOL) eq_refl)
    as [self [E [_ [_ [_ H]]]]].
  exists self. split; [exact E|exact H].
Defined.

(** X3.  The constructor of the energy integrator refuses an expression
    whose dimension is not 1; otherwise it collects, each once, the
    proxies of the traversal that are not test functions and leaves the
    test proxies out. *)
Theorem energy_constructor_collects_trial_proxies
        (store : ProxyPtr -> ProxyFunction.t) (acf : CoefficientFunction) (avb : VorB) :
  (cf_Dimension acf <> 1%nat ->
   mkSymbolicEnergy store acf avb
   = Throw "SymblicEnergy needs scalar-valued CoefficientFunction")
  /\ (cf_Dimension acf = 1%nat ->
      exists self,
        mkSymbolicEnergy store acf avb = Return self
        /\ en_cf self = acf /\ en_vb self = avb
        /\ NoDup (trial_proxies self)
        /\ (forall p, In p (trial_proxies self)
                      <-> In (ProxyNode p) (TraverseTree acf)
                          /\ IsTestFunction store p = false)).
Proof.
  destruct (Dimension_test (cf_Dimension acf)) as [Hne Heq]. split; intros H.
  - unfold mkSymbolicEnergy. rewrite (Hne H). reflexivity.
  - unfold mkSymbolicEnergy. rewrite (Heq H).
    destruct (@en_visit_fold store (TraverseTree acf) [] (NoDup_nil _)) as [H1 H2].
    eexists. split; [reflexivity|]. simpl.
    split; [reflexivity|]. split; [reflexivity|]. split; [exact H1|].
    intros p. rewrite H2. simpl. tauto.
Qed.

Lemma energy_constructor_collects_trial_proxies_witness :
  exists self,
    mkSymbolicEnergy mass_store mass_integrand VOL = Return self
    /\ forall p, In p (trial_proxies self)
                 <-> In (ProxyNode p) (TraverseTree mass_integrand)
                     /\ IsTestFunction mass_store p = false.
Proof.
  destruct (proj2 (energy_constructor_collects_trial_proxies
                     mass_store mass_integrand VOL) eq_refl)
    as [self [E [_ [_ [_ H]]]]].
  exists self. split; [exact E|exact H].
Defined.

(** ** Dispatch on the space dimension *)

(** X4.  [CalcElementMatrix] throws exactly when the integrator is an
    element-boundary integrator and the space dimension is not 1, 2 or 3;
    the message then ends with that dimension.  On the element-boundary
    path it otherwise returns the matrix of [T_CalcElementMatrixEB] at the
    space dimension. *)
Theorem CalcElementMatrix_raises_iff_illegal_dimension
        (store : ProxyPtr -> ProxyFunction.t) (GetNFacets : ELEMENT_TYPE -> nat)
        (GetNormals : nat -> ELEMENT_TYPE -> nat -> Vec)
        (FacetWeight : ELEMENT_TYPE -> nat -> nat -> nat -> R)
        (self : SymbolicBilinearFormIntegrator) (fel : FiniteElement)
        (trafo : ElementTransformation) (elmat : FlatMatrix) :
  let run := CalcElementMatrix store GetNFacets GetNormals FacetWeight
                               self fel trafo elmat in
  (raises run
   <-> element_boundary self = true
       /\ (SpaceDim trafo = 0 \/ 3 < SpaceDim trafo)%nat)
  /\ (raises run ->
      run = Throw ("Illegal space dimension" ++ ToString (SpaceDim trafo)))
  /\ (element_boundary self = true -> (1 <= SpaceDim trafo <= 3)%nat ->
      run = Return (T_CalcElementMatrixEB store GetNFacets GetNormals FacetWeight
                                          (SpaceDim trafo) self fel trafo elmat)).
Proof.
  unfold CalcElementMatrix, T_CalcElementMatrix. cbv zeta.
  destruct (element_boundary self) eqn:Heb.
  - destruct (SpaceDim trafo) as [|[|[|[|d]]]] eqn:Hd.
    + split; [|split].
      * split; [intros _; split; [reflexivity|left; reflexivity]|].
        intros _. apply raises_Throw.
      * intros _. reflexivity.
      * intros _ H. lia.
    + split; [|split].
      * split; [intros H; apply raises_Return in H; contradiction|].
        intros [_ [H|H]]; [discriminate H|lia].
      * intros H. apply raises_Return in H. contradiction.
      * intros _ _. reflexivity.
    + split; [|split].
      * split; [intros H; apply raises_Return in H; contradiction|].
        intros [_ [H|H]]; [discriminate H|lia].
      * intros H. apply raises_Return in H. contradiction.
      * intros _ _. reflexivity.
    + split; [|split].
      * split; [intros H; apply raises_Return in H; contradiction|].
        intros [_ [H|H]]; [discriminate H|lia].
      * intros H. apply raises_Return in H. contradiction.
      * intros _ _. reflexivity.
    + split; [|split].
      * split; [intros _; split; [reflexivity|right; lia]|].
        intros _. apply raises_Throw.
      * intros _. reflexivity.
      * intros _ H. lia.
  - split; [|split].
    + split; [intros H; apply raises_Return in H; contradiction|].
      intros [H _]. discriminate H.
    + intros H. apply raises_Return in H. contradiction.
    + intros H. discriminate H.
Qed.

(** ** The schedule of the blocked loops *)

Lemma for_ext {S : Type} (n : nat) (body body' : nat -> S -> S) (s : S) :
  (forall i st, (i < n)%nat -> body i st = body' i st) ->
  for_ n body s = for_ n body' s.
Proof.
  intros H. induction n as [|n IH].
  - reflexivity.
  - rewrite !for_S. rewrite IH by (intros i st Hi; apply H; lia).
    apply H. lia.
Qed.

Lemma for_shift {S : Type} (n : nat) (body : nat -> S -> S) (s : S) :
  for_ (Datatypes.S n) body s
  = for_ n (fun i => body (Datatypes.S i)) (body 0%nat s).
Proof.
  induction n as [|n IH].
  - reflexivity.
  - rewrite (for_S (Datatypes.S n)), IH. reflexivity.
Qed.

(** the loop over the full blocks stops after the last full block and has
    run the body once at each multiple of the block size before it *)
Lemma full_blocks_schedule {S : Type} (bs n : nat) (body : nat -> S -> S) :
  (0 < bs)%nat ->
  forall d q0 fuel s,
    (q0 + d = n / bs)%nat -> (n <= q0 * bs + fuel)%nat ->
    full_blocks bs n body fuel (q0 * bs)%nat s
    = ((n / bs * bs)%nat, for_ d (fun k => body ((q0 + k) * bs)%nat) s).
Proof.
  intros Hbs. induction d as [|d IH]; intros q0 fuel s Hq Hfuel.
  - rewrite Nat.add_0_r in Hq. subst q0. simpl for_.
    assert (Hgt : (n < n / bs * bs + bs)%nat).
    { pose proof (Nat.div_mod_eq n bs) as E.
      pose proof (Nat.mod_upper_bound n bs ltac:(lia)) as U. nia. }
    destruct fuel as [|fuel]; simpl; [reflexivity|].
    destruct (Nat.leb_spec (n / bs * bs + bs) n); [lia|reflexivity].
  - assert (Hle : (q0 * bs + bs <= n)%nat).
    { pose proof (Nat.div_mod_eq n bs) as E. nia. }
    destruct fuel as [|fuel]; [lia|]. simpl full_blocks.
    destruct (Nat.leb_spec (q0 * bs + bs) n); [|lia].
    replace (q0 * bs + bs)%nat with (Datatypes.S q0 * bs)%nat by lia.
    rewrite (IH (Datatypes.S q0) fuel (body (q0 * bs)%nat s)) by lia.
    rewrite for_shift. rewrite Nat.add_0_r. f_equal.
    apply for_ext. intros k st _. f_equal. lia.
Qed.

Lemma full_blocks_remainder (bs n : nat) :
  (0 < bs)%nat ->
  ((n / bs * bs <? n)%nat = negb (n mod bs =? 0)%nat)
  /\ (n - n / bs * bs = n mod bs)%nat.
Proof.
  intros Hbs. pose proof (Nat.div_mod_eq n bs) as E. split.
  - destruct (Nat.ltb_spec (n / bs * bs) n), (Nat.eqb_spec (n mod bs) 0);
      simpl; try reflexivity; nia.
  - nia.
Qed.

(** X5.  The blocked contraction of the volume path and of the Hessian
    visits the quadrature points in [size / bs] full blocks that start at
    the multiples of the block size, followed by one trailing block of
    [size mod bs] points when the block size does not divide the number of
    points; no block is empty and none has more than [bs] points. *)
Theorem blocked_loops_schedule
        (store : ProxyPtr -> ProxyFunction.t) (bs : nat) (fel : FiniteElement)
        (mir : BaseMappedIntegrationRule) (proxy1 proxy2 : ProxyPtr)
        (proxyvalues : Tensor3) (elmat : FlatMatrix) :
  (0 < bs)%nat ->
  let q := (mir_Size mir / bs)%nat in
  let r := (mir_Size mir mod bs)%nat in
  (r < bs)%nat
  /\ (q * bs + r = mir_Size mir)%nat
  /\ volume_contract store bs fel mir proxy1 proxy2 proxyvalues elmat
     = (let m := for_ q (fun k => volume_block store fel mir proxy1 proxy2
                                               proxyvalues bs (k * bs)) elmat in
        if (r =? 0)%nat then m
        else volume_block store fel mir proxy1 proxy2 proxyvalues r (q * bs) m)
  /\ hessian_contract store bs fel mir proxy1 proxy2 proxyvalues elmat
     = (let m := for_ q (fun k => hessian_block store fel mir proxy1 proxy2
                                                proxyvalues bs (k * bs)) elmat in
        if (r =? 0)%nat then m
        else hessian_block store fel mir proxy1 proxy2 proxyvalues r (q * bs) m).
Proof.
  intros Hbs q r. subst q r.
  destruct (full_blocks_remainder (mir_Size mir) Hbs) as [Hlt Hrest].
  split; [apply Nat.mod_upper_bound; lia|].
  split; [pose proof (Nat.div_mod_eq (mir_Size mir) bs); nia|].
  split.
  - unfold volume_contract.
    rewrite (@full_blocks_schedule _ bs (mir_Size mir) _ Hbs (mir_Size mir / bs) 0)
      by (simpl; lia).
    rewrite Hlt, Hrest. cbv zeta.
    destruct (mir_Size mir mod bs =? 0)%nat; reflexivity.
  - unfold hessian_contract.
    rewrite (@full_blocks_schedule _ bs (mir_Size mir) _ Hbs (mir_Size mir / bs) 0)
      by (simpl; lia).
    rewrite Hlt, Hrest. cbv zeta.
    destruct (mir_Size mir mod bs =? 0)%nat; reflexivity.
Qed.

Lemma blocked_loops_schedule_witness :
  (0 < BS)%nat
  /\ volume_contract mass_store BS fel1 unit_rule 0%nat 1%nat ones (const_matrix 1 1 0)
     = volume_block mass_store fel1 unit_rule 0%nat 1%nat ones 1 0 (const_matrix 1 1 0).
Proof.
  assert (H : (0 < BS)%nat) by (unfold BS; lia).
  split; [exact H|].
  exact (proj1 (proj2 (proj2 (blocked_loops_schedule
                                mass_store fel1 unit_rule 0%nat 1%nat ones
                                (const_matrix 1 1 0) H)))).
Defined.

(** ** The element matrix of the volume path *)

Lemma pair_sum_same_members (T T' S S' : list ProxyPtr) (E : ProxyPtr -> ProxyPtr -> R) :
  NoDup T -> NoDup T' -> NoDup S -> NoDup S' ->
  (forall p, In p T <-> In p T') -> (forall p, In p S <-> In p S') ->
  sum_list T (fun p1 => sum_list S (E p1)) = sum_list T' (fun p1 => sum_list S' (E p1)).
Proof.
  intros HT HT' HS HS' HTT HSS.
  apply pair_sum_restrict; try assumption.
  - intros p Hp. apply HTT. exact Hp.
  - intros p Hp. apply HSS. exact Hp.
  - intros p1 p2 H1 H2 [H|H]; exfalso; apply H; [apply HTT|apply HSS]; assumption.
Qed.

Lemma CalcElementMatrix_returns
      (store : ProxyPtr -> ProxyFunction.t) (GetNFacets : ELEMENT_TYPE -> nat)
      (GetNormals : nat -> ELEMENT_TYPE -> nat -> Vec)
      (FacetWeight : ELEMENT_TYPE -> nat -> nat -> nat -> R)
      (self : SymbolicBilinearFormIntegrator) (fel : FiniteElement)
      (trafo : ElementTransformation) (elmat m : FlatMatrix) :
  element_boundary self = true ->
  T_CalcElementMatrix store GetNFacets GetNormals FacetWeight self fel trafo elmat
  = Return m ->
  m = T_CalcElementMatrixEB store GetNFacets GetNormals FacetWeight
                            (SpaceDim trafo) self fel trafo elmat.
Proof.
  intros Heb. unfold T_CalcElementMatrix. rewrite Heb.
  destruct (SpaceDim trafo) as [|[|[|[|d]]]]; intros H;
    try discriminate H; injection H as H; subst m; reflexivity.
Qed.

(** X6.  Without the element-boundary flag [CalcElementMatrix] returns,
    and each entry of the returned matrix is the sum over the pairs of a
    trial and a test proxy, restricted to the used dofs of the two
    operators, of the quadrature sum of test basis times weighted integrand
    value, seeded with the pair of components, times trial basis.  The
    prior contents of the matrix do not enter. *)
Theorem volume_element_matrix_entries
        (store : ProxyPtr -> ProxyFunction.t) (GetNFacets : ELEMENT_TYPE -> nat)
        (GetNormals : nat -> ELEMENT_TYPE -> nat -> Vec)
        (FacetWeight : ELEMENT_TYPE -> nat -> nat -> nat -> R)
        (self : SymbolicBilinearFormIntegrator) (fel : FiniteElement)
        (trafo : ElementTransformation) (elmat : FlatMatrix) :
  element_boundary self = false ->
  let mir := MapRule trafo (2 * Order fel) in
  exists m,
    CalcElementMatrix store GetNFacets GetNormals FacetWeight self fel trafo elmat
    = Return m
    /\ forall a b,
      m a b
      = sum_list
          (bfi_trial_proxies self)
          (fun proxy1 =>
             sum_list
               (bfi_test_proxies self)
               (fun proxy2 =>
                  if in_range (UsedDofs (Evaluator store proxy2) fel) a
                     && in_range (UsedDofs (Evaluator store proxy1) fel) b
                  then
                    sum_n (mir_Size mir)
                          (fun i =>
                             sum_n (Dimension store proxy2)
                                   (fun l =>
                                      CalcMatrix (Evaluator store proxy2) fel
                                                 (mir_at mir i) l a
                                      * sum_n (Dimension store proxy1)
                                              (fun k =>
                                                 cf_EvaluateIR
                                                   (bfi_cf self)
                                                   (seed_pair ProxyUserData.fresh
                                                              proxy1 k proxy2 l)
                                                   mir i 0%nat
                                                 * GetWeight (mir_at mir i)
                                                 * CalcMatrix (Evaluator store proxy1)
                                                              fel (mir_at mir i) k b)))
                  else 0)).
Proof.
  intros Heb mir. unfold CalcElementMatrix.
  destruct (@volume_closed_form store (bfi_cf self) fel GetNFacets GetNormals
                                FacetWeight self trafo elmat eq_refl Heb)
    as [m [Hm Hentries]].
  exists m. split; [exact Hm|]. intros a b. rewrite Hentries.
  apply sum_list_ext. intros proxy1 _. apply sum_list_ext. intros proxy2 _.
  unfold volume_pair_entry, sub_mask, pair_value. fold mir. reflexivity.
Qed.

Lemma volume_element_matrix_entries_witness :
  element_boundary (mass_bfi false) = false
  /\ exists m,
    CalcElementMatrix mass_store one_facet unit_normals unit_facet_weight
                      (mass_bfi false) fel1 (one_point_trafo 2) (const_matrix 1 1 5)
    = Return m
    /\ m 0%nat 0%nat = 2.
Proof.
  split; [reflexivity|].
  destruct (volume_element_matrix_entries
              mass_store one_facet unit_normals unit_facet_weight
              (mass_bfi false) fel1 (one_point_trafo 2) (const_matrix 1 1 5) eq_refl)
    as [m [Hm Hentries]].
  exists m. split; [exact Hm|]. rewrite Hentries.
  unfold mass_integrand, EvaluateIR_ud. run_model. lra.
Defined.

(** X7.  The element matrix does not depend on the order in which the
    proxies were collected: two integrators of the same expression and
    flag whose duplicate-free proxy lists have the same members either
    both throw or return matrices with equal entries. *)
Theorem element_matrix_independent_of_proxy_order
        (store : ProxyPtr -> ProxyFunction.t) (GetNFacets : ELEMENT_TYPE -> nat)
        (GetNormals : nat -> ELEMENT_TYPE -> nat -> Vec)
        (FacetWeight : ELEMENT_TYPE -> nat -> nat -> nat -> R)
        (self self' : SymbolicBilinearFormIntegrator) (fel : FiniteElement)
        (trafo : ElementTransformation) (elmat : FlatMatrix) :
  bfi_cf self = bfi_cf self' ->
  element_boundary self = element_boundary self' ->
  NoDup (bfi_trial_proxies self) -> NoDup (bfi_trial_proxies self') ->
  NoDup (bfi_test_proxies self) -> NoDup (bfi_test_proxies self') ->
  (forall p, In p (bfi_trial_proxies self) <-> In p (bfi_trial_proxies self')) ->
  (forall p, In p (bfi_test_proxies self) <-> In p (bfi_test_proxies self')) ->
  let run := CalcElementMatrix store GetNFacets GetNormals FacetWeight in
  (raises (run self fel trafo elmat) <-> raises (run self' fel trafo elmat))
  /\ forall m m',
      run self fel trafo elmat = Return m ->
      run self' fel trafo elmat = Return m' ->
      forall a b, m a b = m' a b.
Proof.
  intros Hcf Heb HT HT' HS HS' HTT HSS run. subst run. unfold CalcElementMatrix.
  split.
  - unfold T_CalcElementMatrix. rewrite <- Heb.
    destruct (element_boundary self).
    + destruct (SpaceDim trafo) as [|[|[|[|d]]]];
        split; intros H; try (apply raises_Return in H; contradiction);
          apply raises_Throw.
    + split; intros H; apply raises_Return in H; contradiction.
  - intros m m' Hm Hm' a b.
    destruct (element_boundary self) eqn:Hself.
    + apply CalcElementMatrix_returns in Hm; [|exact Hself].
      apply CalcElementMatrix_returns in Hm'; [|congruence]. subst m m'.
      rewrite (@eb_closed_form store GetNFacets GetNormals FacetWeight (bfi_cf self) fel
                               (Height elmat) (Width elmat) a b (SpaceDim trafo)
                               self trafo elmat eq_refl eq_refl eq_refl).
      rewrite (@eb_closed_form store GetNFacets GetNormals FacetWeight (bfi_cf self) fel
                               (Height elmat) (Width elmat) a b (SpaceDim trafo)
                               self' trafo elmat (eq_sym Hcf) eq_refl eq_refl).
      apply sum_n_ext. intros kf _. apply sum_n_ext. intros i _. cbv zeta.
      apply pair_sum_same_members; assumption.
    + destruct (@volume_closed_form store (bfi_cf self) fel GetNFacets GetNormals
                                    FacetWeight self trafo elmat eq_refl Hself)
        as [m0 [E0 F0]].
      destruct (@volume_closed_form store (bfi_cf self) fel GetNFacets GetNormals
                                    FacetWeight self' trafo elmat (eq_sym Hcf)
                                    ltac:(congruence))
        as [m1 [E1 F1]].
      rewrite E0 in Hm. rewrite E1 in Hm'.
      injection Hm as Hm. injection Hm' as Hm'. subst m0 m1.
      rewrite F0, F1. apply pair_sum_same_members; assumption.
Qed.

Lemma element_matrix_independent_of_proxy_order_witness :
  returned (CalcElementMatrix mass_store one_facet unit_normals unit_facet_weight
                              (mass_bfi_with_tests [1%nat; 2%nat]) fel1
                              (one_point_trafo 2) (const_matrix 1 1 5)) 0%nat 0%nat
  = returned (CalcElementMatrix mass_store one_facet unit_normals unit_facet_weight
                                (mass_bfi_with_tests [2%nat; 1%nat]) fel1
                                (one_point_trafo 2) (const_matrix 1 1 5)) 0%nat 0%nat.
Proof.
  assert (N1 : NoDup [0%nat]) by (repeat constructor; simpl; tauto).
  assert (N12 : NoDup [1%nat; 2%nat])
    by (repeat constructor; simpl; intuition discriminate).
  assert (N21 : NoDup [2%nat; 1%nat])
    by (repeat constructor; simpl; intuition discriminate).
  apply (proj2 (element_matrix_independent_of_proxy_order
                  mass_store one_facet unit_normals unit_facet_weight
                  (mass_bfi_with_tests [1%nat; 2%nat])
                  (mass_bfi_with_tests [2%nat; 1%nat])
                  fel1 (one_point_trafo 2) (const_matrix 1 1 5)
                  eq_refl eq_refl N1 N1 N12 N21
                  (fun p => conj (fun H => H) (fun H => H))
                  ltac:(intros p; simpl; tauto)));
    reflexivity.
Defined.

(** X8.  An integrator that has no trial proxy or no test proxy
    assembles the zero matrix, on the volume path and on the
    element-boundary path alike, whatever the expression and whatever the
    matrix held before. *)
Theorem element_matrix_without_pairs_is_zero
        (store : ProxyPtr -> ProxyFunction.t) (GetNFacets : ELEMENT_TYPE -> nat)
        (GetNormals : nat -> ELEMENT_TYPE -> nat -> Vec)
        (FacetWeight : ELEMENT_TYPE -> nat -> nat -> nat -> R)
        (self : SymbolicBilinearFormIntegrator) (fel : FiniteElement)
        (trafo : ElementTransformation) (elmat m : FlatMatrix) :
  bfi_trial_proxies self = [] \/ bfi_test_proxies self = [] ->
  CalcElementMatrix store GetNFacets GetNormals FacetWeight self fel trafo elmat
  = Return m ->
  forall a b, m a b = 0.
Proof.
  intros Hempty Hm a b. unfold CalcElementMatrix in Hm.
  assert (Hsum : forall E : ProxyPtr -> ProxyPtr -> R,
             sum_list (bfi_trial_proxies self)
                      (fun p1 => sum_list (bfi_test_proxies self) (E p1)) = 0).
  { intros E. destruct Hempty as [H|H]; rewrite H.
    - reflexivity.
    - apply sum_list_zero. intros p1 _. reflexivity. }
  destruct (element_boundary self) eqn:Heb.
  - apply CalcElementMatrix_returns in Hm; [|exact Heb]. subst m.
    rewrite (@eb_closed_form store GetNFacets GetNormals FacetWeight (bfi_cf self) fel
                             (Height elmat) (Width elmat) a b (SpaceDim trafo)
                             self trafo elmat eq_refl eq_refl eq_refl).
    apply sum_n_zero. intros kf _. apply sum_n_zero. intros i _. cbv zeta.
    apply Hsum.
  - destruct (@volume_closed_form store (bfi_cf self) fel GetNFacets GetNormals
                                  FacetWeight self trafo elmat eq_refl Heb)
      as [m0 [E0 F0]].
    rewrite E0 in Hm. injection Hm as Hm. subst m0.
    rewrite F0. apply Hsum.
Qed.

Lemma element_matrix_without_pairs_is_zero_witness :
  returned (CalcElementMatrix mass_store one_facet unit_normals unit_facet_weight
                              constant_bfi fel1 (one_point_trafo 2)
                              (const_matrix 1 1 5)) 0%nat 0%nat = 0.
Proof.
  apply (element_matrix_without_pairs_is_zero
           mass_store one_facet unit_normals unit_facet_weight
           constant_bfi fel1 (one_point_trafo 2) (const_matrix 1 1 5)).
  - left. reflexivity.
  - reflexivity.
Defined.

(** ** The proxy under derivative evaluation *)

Lemma set_col_commute (m : Mat) (c c' : nat) (i j : nat) :
  set_col (set_col m c 1) c' 1 i j = set_col (set_col m c' 1) c 1 i j.
Proof.
  unfold set_col.
  destruct (Nat.eqb_spec j c), (Nat.eqb_spec j c'); reflexivity.
Qed.

(** X9.  [EvaluateDDeriv] treats the two seeds alike: exchanging the
    test seed with the trial seed in the context changes none of the
    entries of the value, the first derivative and the second derivative
    that a proxy returns. *)
Theorem EvaluateDDeriv_symmetric_in_seeds
        (store : ProxyPtr -> ProxyFunction.t) (this : ProxyPtr)
        (ud : ProxyUserData.t) (mir : BaseMappedIntegrationRule) (i c : nat) :
  let out := EvaluateDDeriv_ud store this ud mir in
  let out' := EvaluateDDeriv_ud store this (swap_seeds ud) mir in
  fst (fst out) i c = fst (fst out') i c
  /\ snd (fst out) i c = snd (fst out') i c
  /\ snd out i c = snd out' i c.
Proof.
  unfold EvaluateDDeriv_ud, swap_seeds, ProxyUserData.lookup. simpl.
  split; [reflexivity|]. split; [|reflexivity].
  destruct (ptr_is (ProxyUserData.testfunction ud) this),
           (ptr_is (ProxyUserData.trialfunction ud) this);
    try reflexivity.
  apply set_col_commute.
Qed.

Lemma find_filter_other (p q : ProxyPtr) (xs : list (ProxyPtr * Mat)) :
  q <> p ->
  find (fun e => (fst e =? q)%nat) (filter (fun e => negb (fst e =? p)%nat) xs)
  = find (fun e => (fst e =? q)%nat) xs.
Proof.
  intros Hne. induction xs as [|[r m] xs IH]; simpl; [reflexivity|].
  destruct (Nat.eqb_spec r p) as [Hrp|Hrp]; simpl.
  - destruct (Nat.eqb_spec r q) as [Hrq|Hrq]; [congruence|exact IH].
  - destruct (Nat.eqb_spec r q); [reflexivity|exact IH].
Qed.

(** what a lookup finds after an assignment to the memo *)
Lemma lookup_set_remember (ud : ProxyUserData.t) (p q : ProxyPtr) (m : Mat) :
  ProxyUserData.lookup (ProxyUserData.set_remember ud p m) q
  = if (p =? q)%nat then Some m else ProxyUserData.lookup ud q.
Proof.
  unfold ProxyUserData.lookup, ProxyUserData.set_remember. simpl.
  destruct (Nat.eqb_spec p q) as [E|E]; [reflexivity|].
  rewrite find_filter_other by congruence. reflexivity.
Qed.

Lemma lookup_remember_loop (A : ProxyPtr -> Mat) (xs : list ProxyPtr) :
  forall ud q,
    ProxyUserData.lookup
      (for_each xs (fun proxy ud => ProxyUserData.set_remember ud proxy (A proxy)) ud) q
    = if Contains xs q then Some (A q) else ProxyUserData.lookup ud q.
Proof.
  unfold for_each. induction xs as [|p xs IH]; intros ud q; [reflexivity|].
  simpl fold_left. rewrite IH, lookup_set_remember.
  unfold Contains. simpl existsb. fold (Contains xs q).
  destruct (Contains xs q), (Nat.eqb_spec p q); subst; reflexivity.
Qed.

Lemma lin_context_pinned (store : ProxyPtr -> ProxyFunction.t) (self : SymbolicEnergy)
      (fel : FiniteElement) (mir : BaseMappedIntegrationRule) (elveclin : FlatVector) :
  ProxyUserData.fel (lin_context store self fel mir elveclin) = Some fel
  /\ ProxyUserData.elx (lin_context store self fel mir elveclin) = elveclin.
Proof.
  unfold lin_context.
  apply (for_each_invariant
           (fun ud => ProxyUserData.fel ud = Some fel /\ ProxyUserData.elx ud = elveclin)).
  - split; reflexivity.
  - intros proxy ud _ H. exact H.
Qed.

(** X10.  The linearisation remembers, for every trial proxy of the
    integrator and for no other proxy, the values of its operator at the
    linearisation point, and the remembered values are transparent: under
    every seeding of that context [EvaluateDDeriv] returns for a proxy
    that is not a test function the values its operator gives at the
    linearisation point, remembered or not. *)
Theorem linearization_memo_is_transparent
        (store : ProxyPtr -> ProxyFunction.t) (self : SymbolicEnergy)
        (fel : FiniteElement) (mir : BaseMappedIntegrationRule) (elveclin : FlatVector) :
  let ud0 := lin_context store self fel mir elveclin in
  (forall q,
      ProxyUserData.lookup ud0 q
      = if Contains (trial_proxies self) q
        then Some (ApplyIR (Evaluator store q) fel mir elveclin)
        else None)
  /\ forall this proxy1 k proxy2 l,
      fst (fst (EvaluateDDeriv_ud store this (seed_pair ud0 proxy1 k proxy2 l) mir))
      = if IsTestFunction store this
        then fun _ _ => 0
        else ApplyIR (Evaluator store this) fel mir elveclin.
Proof.
  intros ud0.
  assert (Hlookup : forall q,
             ProxyUserData.lookup ud0 q
             = if Contains (trial_proxies self) q
               then Some (ApplyIR (Evaluator store q) fel mir elveclin)
               else None).
  { intros q. unfold ud0, lin_context.
    rewrite (lookup_remember_loop
               (fun proxy => ApplyIR (Evaluator store proxy) fel mir elveclin)).
    reflexivity. }
  split; [exact Hlookup|].
  intros this proxy1 k proxy2 l.
  destruct (lin_context_pinned store self fel mir elveclin) as [Hfel Helx].
  fold ud0 in Hfel, Helx.
  unfold EvaluateDDeriv_ud. cbv zeta. simpl fst.
  destruct (IsTestFunction store this); simpl negb; cbv iota; [reflexivity|].
  change (ProxyUserData.fel (seed_pair ud0 proxy1 k proxy2 l))
    with (ProxyUserData.fel ud0).
  change (ProxyUserData.elx (seed_pair ud0 proxy1 k proxy2 l))
    with (ProxyUserData.elx ud0).
  change (ProxyUserData.lookup (seed_pair ud0 proxy1 k proxy2 l) this)
    with (ProxyUserData.lookup ud0 this).
  rewrite Hfel, Helx, Hlookup.
  destruct (Contains (trial_proxies self) this); reflexivity.
Qed.

(** X11.  [EvaluateDeriv] throws exactly when no user data is attached.
    Otherwise the derivative it returns is 1 in the column of the trial
    seed when the proxy is the seeded trial proxy and 0 elsewhere, and the
    value is 1 in the column of the test seed when the proxy is the seeded
    test proxy and elsewhere the value of the operator for a pinned proxy
    that is not a test function, 0 for any other proxy: the test seed
    never reaches the derivative, the trial seed and the memo never reach
    the value. *)
Theorem EvaluateDeriv_outputs
        (store : ProxyPtr -> ProxyFunction.t) (this : ProxyPtr)
        (userdata : option ProxyUserData.t) (mir : BaseMappedIntegrationRule) :
  (raises (EvaluateDeriv store this userdata mir) <-> userdata = None)
  /\ forall ud,
      userdata = Some ud ->
      exists result deriv,
        EvaluateDeriv store this userdata mir = Return (result, deriv)
        /\ forall i c,
          deriv i c
          = (if ptr_is (ProxyUserData.trialfunction ud) this
                && (c =? ProxyUserData.trial_comp ud)%nat
             then 1 else 0)
          /\ result i c
             = (if ptr_is (ProxyUserData.testfunction ud) this
                   && (c =? ProxyUserData.test_comp ud)%nat
                then 1
                else if IsTestFunction store this then 0
                     else match ProxyUserData.fel ud with
                          | Some fel =>
                            ApplyIR (Evaluator store this) fel mir
                                    (ProxyUserData.elx ud) i c
                          | None => 0
                          end).
Proof.
  split.
  - destruct userdata as [ud|]; simpl.
    + split; [intros H; apply raises_Return in H; contradiction|discriminate].
    + split; [reflexivity|]. intros _. apply raises_Throw.
  - intros ud ->. simpl. eexists. eexists. split; [reflexivity|].
    intros i c. split.
    + destruct (ptr_is (ProxyUserData.trialfunction ud) this); simpl; [|reflexivity].
      unfold set_col. destruct (c =? ProxyUserData.trial_comp ud)%nat; reflexivity.
    + destruct (ptr_is (ProxyUserData.testfunction ud) this); simpl.
      * unfold set_col. destruct (c =? ProxyUserData.test_comp ud)%nat; [reflexivity|].
        destruct (IsTestFunction store this); simpl; [reflexivity|].
        destruct (ProxyUserData.fel ud); reflexivity.
      * destruct (IsTestFunction store this); simpl; [reflexivity|].
        destruct (ProxyUserData.fel ud); reflexivity.
Qed.

Lemma EvaluateDeriv_outputs_witness :
  exists result deriv,
    EvaluateDeriv trial_store 0%nat (Some ud_pinned_seeded) unit_rule
    = Return (result, deriv)
    /\ deriv 0%nat 0%nat = 1 /\ result 0%nat 0%nat = 7.
Proof.
  destruct (proj2 (EvaluateDeriv_outputs trial_store 0%nat (Some ud_pinned_seeded)
                                         unit_rule)
                  ud_pinned_seeded eq_refl)
    as [result [deriv [E H]]].
  exists result, deriv. split; [exact E|].
  destruct (H 0%nat 0%nat) as [Hd Hr]. rewrite Hd, Hr. split; reflexivity.
Defined.

(** X12.  [Dimensions] returns a one-entry shape for a block dimension
    of 1 and a two-entry shape otherwise, and the product of its entries
    is the dimension of the proxy rounded down to a multiple of the block
    dimension: the shape describes all components exactly when the block
    dimension divides the dimension. *)
Theorem Dimensions_product
        (store : ProxyPtr -> ProxyFunction.t) (this : ProxyPtr) :
  BlockDim (Evaluator store this) <> 0%nat ->
  let dim := Dimension store this in
  let blockdim := BlockDim (Evaluator store this) in
  length (Dimensions store this) = (if (blockdim =? 1)%nat then 1 else 2)%nat
  /\ fold_right Nat.mul 1%nat (Dimensions store this) = (dim - dim mod blockdim)%nat
  /\ (fold_right Nat.mul 1%nat (Dimensions store this) = dim
      <-> dim mod blockdim = 0%nat).
Proof.
  intros Hb dim blockdim. unfold Dimensions. cbv zeta.
  fold blockdim. fold (Dimension store this). fold dim.
  pose proof (Nat.div_mod_eq dim blockdim) as E.
  pose proof (Nat.mod_upper_bound dim blockdim Hb) as U.
  destruct (Nat.eqb_spec blockdim 1) as [H1|H1]; simpl fold_right; simpl length.
  - rewrite H1 in *. rewrite Nat.mod_1_r. split; [reflexivity|]. split; [lia|].
    split; [reflexivity|lia].
  - split; [reflexivity|]. split; [nia|]. split; intros H; nia.
Qed.

Lemma Dimensions_product_witness :
  fold_right Nat.mul 1%nat (Dimensions mass_store 0%nat) = 1%nat.
Proof.
  assert (H : BlockDim (Evaluator mass_store 0%nat) <> 0%nat) by (simpl; lia).
  exact (proj1 (proj2 (Dimensions_product mass_store 0%nat H))).
Defined.

(** ** The element vectors *)

(** the loop [for i: m.Row(i) *= w(i)] scales every row once *)
Lemma scale_rows_spec (n : nat) (w : nat -> R) (values : Mat) (i j : nat) :
  for_ n (fun i values => scale_row values i (w i)) values i j
  = if (i <? n)%nat then values i j * w i else values i j.
Proof.
  induction n as [|n IH]; [reflexivity|].
  rewrite for_S. unfold scale_row at 1. rewrite IH.
  destruct (Nat.eqb_spec i n) as [E|E].
  - subst i. rewrite Nat.ltb_irrefl.
    destruct (Nat.ltb_spec n (Datatypes.S n)); [reflexivity|lia].
  - destruct (Nat.ltb_spec i n), (Nat.ltb_spec i (Datatypes.S n));
      try reflexivity; lia.
Qed.

Lemma id_diffop_reads_buffer (store : ProxyPtr -> ProxyFunction.t) (fel : FiniteElement)
      (proxy : ProxyPtr) :
  Evaluator store proxy = id_diffop -> transpose_reads_buffer store fel proxy.
Proof.
  intros E mir values values' H d. unfold Dimension in H. rewrite E in *. simpl in *.
  destruct (d =? 0)%nat; [|reflexivity].
  apply sum_n_ext. intros i Hi. apply H; [exact Hi|lia].
Qed.

(** the weighted values of one proxy of the linear form *)
Lemma lfi_proxyvalues_spec (store : ProxyPtr -> ProxyFunction.t)
      (cf : CoefficientFunction) (mir : BaseMappedIntegrationRule)
      (proxy : ProxyPtr) (ud : ProxyUserData.t) :
  (forall p k, ProxyUserData.set_test ud p k
               = ProxyUserData.set_test ProxyUserData.fresh p k) ->
  (forall p k,
      ProxyUserData.set_test (fst (lfi_proxyvalues store cf mir proxy ud)) p k
      = ProxyUserData.set_test ProxyUserData.fresh p k)
  /\ forall i k,
      (i < mir_Size mir)%nat -> (k < Dimension store proxy)%nat ->
      snd (lfi_proxyvalues store cf mir proxy ud) i k
      = cf_EvaluateIR cf (ProxyUserData.set_test ProxyUserData.fresh proxy k) mir i 0%nat
        * GetWeight (mir_at mir i).
Proof.
  intros HJ. unfold lfi_proxyvalues.
  pose (P := fun (n : nat) (st : ProxyUserData.t * Mat) =>
               (forall p k, ProxyUserData.set_test (fst st) p k
                            = ProxyUserData.set_test ProxyUserData.fresh p k)
               /\ forall i k,
                   (i < mir_Size mir)%nat -> (k < n)%nat ->
                   snd st i k
                   = cf_EvaluateIR cf (ProxyUserData.set_test ProxyUserData.fresh proxy k)
                                   mir i 0%nat
                     * GetWeight (mir_at mir i)).
  match goal with
  | |- context [for_ ?cnt ?bdy ?s0] =>
    assert (Hloop : P cnt (for_ cnt bdy s0));
      [apply (@for_invariant _ P); unfold P|unfold P in Hloop; exact Hloop]
  end.
  - split; [exact HJ|]. intros i k _ Hk. lia.
  - intros k [ud' pv] Hk [HJ' Hpv]. simpl fst in *. simpl snd in *. split.
    + intros p k0. exact (HJ' p k0).
    + intros i k' Hi Hk'. unfold assign_col, Col.
      destruct (Nat.eqb_spec k' k) as [E|E].
      * subst k'.
        rewrite (scale_rows_spec (mir_Size mir) (fun i => GetWeight (mir_at mir i))).
        destruct (Nat.ltb_spec i (mir_Size mir)); [|lia].
        rewrite HJ'. reflexivity.
      * apply Hpv; [exact Hi|lia].
Qed.

(** X13.  When the transposed applications of the operators read only
    the buffer they are given, every entry of the element vector of the
    linear form is the sum over all collected proxies of the transposed
    application of the proxy's operator to the integrand values, seeded
    with the proxy and component as test function and multiplied by the
    quadrature weights; the prior contents of the vector do not enter. *)
Theorem element_vector_entries
        (store : ProxyPtr -> ProxyFunction.t) (self : SymbolicLinearFormIntegrator)
        (fel : FiniteElement) (trafo : ElementTransformation) (elvec : FlatVector) :
  (forall proxy, In proxy (proxies self) -> transpose_reads_buffer store fel proxy) ->
  let mir := MapRule trafo (2 * Order fel) in
  forall d,
    CalcElementVector store self fel trafo elvec d
    = if (d <? Size elvec)%nat
      then
        sum_list (proxies self)
                 (fun proxy =>
                    ApplyTrans (Evaluator store proxy) fel mir
                               (fun i k =>
                                  cf_EvaluateIR
                                    (lfi_cf self)
                                    (ProxyUserData.set_test ProxyUserData.fresh proxy k)
                                    mir i 0%nat
                                  * GetWeight (mir_at mir i))
                               d)
      else 0.
Proof.
  intros Hops mir d. unfold CalcElementVector, T_CalcElementVector. fold mir.
  match goal with
  | |- vdata (snd (for_each ?xs ?body ?s)) d = _ =>
    destruct (@for_each_accumulate
                _ _
                (fun st : ProxyUserData.t * FlatVector =>
                   (forall p k, ProxyUserData.set_test (fst st) p k
                                = ProxyUserData.set_test ProxyUserData.fresh p k)
                   /\ Size (snd st) = Size elvec)
                (fun st => snd st d)
                (fun proxy =>
                   if (d <? Size elvec)%nat
                   then
                     ApplyTrans (Evaluator store proxy) fel mir
                                (fun i k =>
                                   cf_EvaluateIR
                                     (lfi_cf self)
                                     (ProxyUserData.set_test ProxyUserData.fresh proxy k)
                                     mir i 0%nat
                                   * GetWeight (mir_at mir i))
                                d
                   else 0)
                xs body s) as [_ Hv]
  end.
  - split; reflexivity.
  - intros proxy [ud v] Hp [HJ Hsize]. simpl fst in *. simpl snd in *.
    destruct (@lfi_proxyvalues_spec store (lfi_cf self) mir proxy ud HJ) as [HJ' Hpv].
    destruct (lfi_proxyvalues store (lfi_cf self) mir proxy ud) as [ud' pv].
    simpl fst in *. simpl snd in *.
    split; [split; [exact HJ'|exact Hsize]|].
    unfold vadd. simpl vdata.
    rewrite Hsize. destruct (d <? Size elvec)%nat; [|lra].
    f_equal. apply (Hops proxy Hp). exact Hpv.
  - rewrite Hv. simpl snd. simpl vdata.
    destruct (d <? Size elvec)%nat.
    + lra.
    + rewrite sum_list_zero by reflexivity. lra.
Qed.

Lemma element_vector_entries_witness :
  CalcElementVector mass_store load_lfi fel1 (one_point_trafo 2) (const_vector 1 5) 0%nat
  = 2.
Proof.
  rewrite (@element_vector_entries
             mass_store load_lfi fel1 (one_point_trafo 2) (const_vector 1 5)
             (fun proxy _ => id_diffop_reads_buffer mass_store fel1 proxy eq_refl)).
  unfold EvaluateIR_ud. run_model. lra.
Defined.

(** the weighted first derivatives of one proxy of the energy *)
Lemma gradient_proxyvalues_spec (store : ProxyPtr -> ProxyFunction.t)
      (self : SymbolicEnergy) (mir : BaseMappedIntegrationRule)
      (proxy : ProxyPtr) (ud0 ud : ProxyUserData.t) :
  (forall p k, ProxyUserData.set_trial ud p k = ProxyUserData.set_trial ud0 p k) ->
  (forall p k,
      ProxyUserData.set_trial (fst (gradient_proxyvalues store self mir proxy ud)) p k
      = ProxyUserData.set_trial ud0 p k)
  /\ forall i k,
      (i < mir_Size mir)%nat -> (k < Dimension store proxy)%nat ->
      snd (gradient_proxyvalues store self mir proxy ud) i k
      = snd (cf_EvaluateDeriv (en_cf self) (ProxyUserData.set_trial ud0 proxy k) mir)
            i 0%nat
        * GetWeight (mir_at mir i).
Proof.
  intros HJ. unfold gradient_proxyvalues.
  pose (P := fun (n : nat) (st : ProxyUserData.t * Mat) =>
               (forall p k, ProxyUserData.set_trial (fst st) p k
                            = ProxyUserData.set_trial ud0 p k)
               /\ forall i k,
                   (k < n)%nat ->
                   snd st i k
                   = snd (cf_EvaluateDeriv (en_cf self)
                                           (ProxyUserData.set_trial ud0 proxy k) mir)
                         i 0%nat).
  match goal with
  | |- context [for_ (Dimension store proxy) ?bdy ?s0] =>
    assert (Hloop : P (Dimension store proxy) (for_ (Dimension store proxy) bdy s0));
      [apply (@for_invariant _ P); unfold P
      |unfold P in Hloop;
       destruct (for_ (Dimension store proxy) bdy s0) as [ud' pv]]
  end.
  - split; [exact HJ|]. intros i k Hk. lia.
  - intros k [ud' pv] Hk [HJ' Hpv]. simpl fst in *. simpl snd in *. split.
    + intros p k0. exact (HJ' p k0).
    + intros i k' Hk'. unfold assign_col, Col.
      destruct (Nat.eqb_spec k' k) as [E|E].
      * subst k'. rewrite HJ'. reflexivity.
      * apply Hpv. lia.
  - simpl fst in *. simpl snd in *. destruct Hloop as [HJ' Hpv].
    split; [exact HJ'|]. intros i k Hi Hk.
    rewrite (scale_rows_spec (mir_Size mir) (fun i => GetWeight (mir_at mir i))).
    destruct (Nat.ltb_spec i (mir_Size mir)); [|lia].
    rewrite Hpv by exact Hk. reflexivity.
Qed.

(** X14.  When the transposed applications of the operators read only
    the buffer they are given, every entry of the vector that
    [ApplyElementMatrix] returns is the sum over the trial proxies of the
    transposed application of the proxy's operator to the first
    derivatives of the density at the pinned dof vector, seeded with the
    proxy and component as trial function and multiplied by the quadrature
    weights; the prior contents of the vector do not enter. *)
Theorem energy_gradient_entries
        (store : ProxyPtr -> ProxyFunction.t) (self : SymbolicEnergy)
        (fel : FiniteElement) (trafo : ElementTransformation) (elx ely : FlatVector) :
  (forall proxy, In proxy (trial_proxies self) ->
                 transpose_reads_buffer store fel proxy) ->
  let mir := MapRule trafo (2 * Order fel) in
  let ud0 := ProxyUserData.pin ProxyUserData.fresh fel elx in
  forall d,
    ApplyElementMatrix store self fel trafo elx ely d
    = if (d <? Size ely)%nat
      then
        sum_list (trial_proxies self)
                 (fun proxy =>
                    ApplyTrans (Evaluator store proxy) fel mir
                               (fun i k =>
                                  snd (cf_EvaluateDeriv
                                         (en_cf self)
                                         (ProxyUserData.set_trial ud0 proxy k) mir)
                                      i 0%nat
                                  * GetWeight (mir_at mir i))
                               d)
      else 0.
Proof.
  intros Hops mir ud0 d. unfold ApplyElementMatrix. fold mir. fold ud0.
  match goal with
  | |- vdata (snd (for_each ?xs ?body ?s)) d = _ =>
    destruct (@for_each_accumulate
                _ _
                (fun st : ProxyUserData.t * FlatVector =>
                   (forall p k, ProxyUserData.set_trial (fst st) p k
                                = ProxyUserData.set_trial ud0 p k)
                   /\ Size (snd st) = Size ely)
                (fun st => snd st d)
                (fun proxy =>
                   if (d <? Size ely)%nat
                   then
                     ApplyTrans (Evaluator store proxy) fel mir
                                (fun i k =>
                                   snd (cf_EvaluateDeriv
                                          (en_cf self)
                                          (ProxyUserData.set_trial ud0 proxy k) mir)
                                       i 0%nat
                                   * GetWeight (mir_at mir i))
                                d
                   else 0)
                xs body s) as [_ Hv]
  end.
  - split; reflexivity.
  - intros proxy [ud v] Hp [HJ Hsize]. simpl fst in *. simpl snd in *.
    destruct (@gradient_proxyvalues_spec store self mir proxy ud0 ud HJ) as [HJ' Hpv].
    destruct (gradient_proxyvalues store self mir proxy ud) as [ud' pv].
    simpl fst in *. simpl snd in *.
    split; [split; [exact HJ'|exact Hsize]|].
    unfold vadd. simpl vdata.
    rewrite Hsize. destruct (d <? Size ely)%nat; [|lra].
    f_equal. apply (Hops proxy Hp). exact Hpv.
  - rewrite Hv. simpl snd. simpl vdata.
    destruct (d <? Size ely)%nat.
    + lra.
    + rewrite sum_list_zero by reflexivity. lra.
Qed.

Lemma energy_gradient_entries_witness :
  ApplyElementMatrix trial_store half_square_energy fel1 (one_point_trafo 2)
                     (dofs1 3) (const_vector 1 5) 0%nat
  = 6.
Proof.
  rewrite (@energy_gradient_entries
             trial_store half_square_energy fel1 (one_point_trafo 2)
             (dofs1 3) (const_vector 1 5)
             (fun proxy _ => id_diffop_reads_buffer trial_store fel1 proxy eq_refl)).
  unfold EvaluateIR_ud. run_model. lra.
Defined.

(** ** The energy and its Hessian *)

(** the energy is the quadrature sum of the density at the pinned dofs *)
Lemma Energy_sum (self : SymbolicEnergy) (fel : FiniteElement)
      (trafo : ElementTransformation) (elx : FlatVector) :
  let mir := MapRule trafo (2 * Order fel) in
  Energy self fel trafo elx
  = sum_n (mir_Size mir)
          (fun i =>
             GetWeight (mir_at mir i)
             * cf_EvaluateIR (en_cf self)
                             (ProxyUserData.pin ProxyUserData.fresh fel elx) mir i 0%nat).
Proof.
  intros mir. unfold Energy. fold mir.
  match goal with
  | |- for_ ?n ?body ?s = sum_n ?n ?g =>
    destruct (@for_accumulate _ (fun _ => True) (fun sum : R => sum) g n body s)
      as [_ Hv]
  end.
  - exact I.
  - intros i st _ _. split; [exact I|reflexivity].
  - rewrite Hv. lra.
Qed.

(** X15.  The energy is additive in the density: when the values of one
    density at the pinned dof vector are the sums of the values of two
    others at every quadrature point, its energy is the sum of their
    energies, whatever trial proxies the three integrators collected. *)
Theorem Energy_additive
        (self1 self2 self12 : SymbolicEnergy) (fel : FiniteElement)
        (trafo : ElementTransformation) (elx : FlatVector) :
  let mir := MapRule trafo (2 * Order fel) in
  let ud := ProxyUserData.pin ProxyUserData.fresh fel elx in
  (forall i, (i < mir_Size mir)%nat ->
             cf_EvaluateIR (en_cf self12) ud mir i 0%nat
             = cf_EvaluateIR (en_cf self1) ud mir i 0%nat
               + cf_EvaluateIR (en_cf self2) ud mir i 0%nat) ->
  Energy self12 fel trafo elx = Energy self1 fel trafo elx + Energy self2 fel trafo elx.
Proof.
  intros mir ud Hsum. rewrite !Energy_sum. fold mir. fold ud.
  rewrite <- sum_n_plus. apply sum_n_ext. intros i Hi.
  rewrite (Hsum i Hi). ring.
Qed.

Lemma Energy_additive_witness :
  Energy {| en_cf := AddCF half_square half_square; en_vb := VOL;
            trial_proxies := [0%nat] |}
         fel1 (one_point_trafo 2) (dofs1 3)
  = Energy half_square_energy fel1 (one_point_trafo 2) (dofs1 3)
    + Energy half_square_energy fel1 (one_point_trafo 2) (dofs1 3).
Proof.
  apply (@Energy_additive
           half_square_energy half_square_energy
           {| en_cf := AddCF half_square half_square; en_vb := VOL;
              trial_proxies := [0%nat] |}
           fel1 (one_point_trafo 2) (dofs1 3)).
  intros i _. reflexivity.
Defined.

Lemma polarized_swap (self : SymbolicEnergy) (mir : BaseMappedIntegrationRule)
      (ud : ProxyUserData.t) (diags : nat -> Mat) (k1 l1 k l i : nat) :
  seed_symmetric (en_cf self) ->
  polarized self mir ud diags l1 k1 k l i = polarized self mir ud diags k1 l1 l k i.
Proof.
  intros Hsym. unfold polarized. cbv zeta.
  assert (Hraw : raw_dderiv (en_cf self) mir ud (nth l1 (trial_proxies self) 0%nat) k
                            (nth k1 (trial_proxies self) 0%nat) l i
                 = raw_dderiv (en_cf self) mir ud (nth k1 (trial_proxies self) 0%nat) l
                              (nth l1 (trial_proxies self) 0%nat) k i).
  { unfold raw_dderiv. rewrite Hsym. reflexivity. }
  rewrite Hraw.
  rewrite (Nat.eqb_sym (nth l1 (trial_proxies self) 0%nat)), (Nat.eqb_sym k l).
  destruct ((nth k1 (trial_proxies self) 0 =? nth l1 (trial_proxies self) 0)%nat
            && (l =? k)%nat); [reflexivity|ring].
Qed.

Lemma hessian_pair_entry_swap (store : ProxyPtr -> ProxyFunction.t)
      (self : SymbolicEnergy) (fel : FiniteElement) (mir : BaseMappedIntegrationRule)
      (ud : ProxyUserData.t) (diags : nat -> Mat) (k1 l1 a b : nat) :
  seed_symmetric (en_cf self) ->
  hessian_pair_entry store self fel mir ud diags l1 k1 b a
  = hessian_pair_entry store self fel mir ud diags k1 l1 a b.
Proof.
  intros Hsym. unfold hessian_pair_entry. cbv zeta.
  apply sum_n_ext. intros i _.
  rewrite (@sum_n_ext _ _
             (fun l =>
                sum_n (Dimension store (nth l1 (trial_proxies self) 0%nat))
                      (fun k =>
                         CalcMatrix (Evaluator store (nth k1 (trial_proxies self) 0%nat))
                                    fel (mir_at mir i) l b
                         * (polarized self mir ud diags l1 k1 k l i
                            * GetWeight (mir_at mir i)
                            * CalcMatrix (Evaluator store
                                                    (nth l1 (trial_proxies self) 0%nat))
                                         fel (mir_at mir i) k a))))
    by (intros l _; rewrite sum_n_scal_l; reflexivity).
  rewrite sum_n_swap.
  apply sum_n_ext. intros l _. rewrite <- sum_n_scal_l.
  apply sum_n_ext. intros k _.
  rewrite (@polarized_swap self mir ud diags k1 l1 l k i Hsym). ring.
Qed.

(** X16.  The linearised element matrix of a density whose second
    derivative does not change when the two seeds change places is
    symmetric: on a square output matrix the entry (a, b) equals the
    entry (b, a). *)
Theorem linearized_matrix_symmetric
        (store : ProxyPtr -> ProxyFunction.t) (self : SymbolicEnergy)
        (fel : FiniteElement) (trafo : ElementTransformation)
        (elveclin : FlatVector) (elmat : FlatMatrix) :
  seed_symmetric (en_cf self) ->
  Height elmat = Width elmat ->
  forall a b,
    CalcLinearizedElementMatrix store self fel trafo elveclin elmat a b
    = CalcLinearizedElementMatrix store self fel trafo elveclin elmat b a.
Proof.
  intros Hsym Hsq a b. rewrite !hessian_closed_form. cbv zeta.
  rewrite (sum_n_swap (length (trial_proxies self)) (length (trial_proxies self))
                      (fun k1 l1 =>
                         if full_mask (Height elmat) (Width elmat) b a
                         then hessian_pair_entry
                                store self fel (MapRule trafo (2 * Order fel))
                                (lin_context store self fel
                                             (MapRule trafo (2 * Order fel)) elveclin)
                                (snd (calc_diags
                                        store self (MapRule trafo (2 * Order fel))
                                        (lin_context store self fel
                                                     (MapRule trafo (2 * Order fel))
                                                     elveclin)))
                                k1 l1 b a
                         else 0)).
  apply sum_n_ext. intros k1 _. apply sum_n_ext. intros l1 _.
  rewrite (@hessian_pair_entry_swap store self fel _ _ _ k1 l1 a b Hsym).
  unfold full_mask. rewrite Hsq, (andb_comm (b <? Width elmat)%nat). reflexivity.
Qed.

Lemma half_square_seed_symmetric : seed_symmetric half_square.
Proof.
  intros ud mir i. unfold half_square, square_of, MultCF, ConstantCF, ProxyCF.
  cbn [cf_EvaluateDDeriv]. unfold swap_seeds, EvaluateDDeriv_ud. simpl.
  destruct (ptr_is (ProxyUserData.testfunction ud) 0%nat),
           (ptr_is (ProxyUserData.trialfunction ud) 0%nat);
    simpl; try reflexivity.
  rewrite !(set_col_commute (fun _ _ => 0) (ProxyUserData.test_comp ud)
                            (ProxyUserData.trial_comp ud) i 0%nat).
  reflexivity.
Qed.

Lemma linearized_matrix_symmetric_witness :
  CalcLinearizedElementMatrix trial_store half_square_energy fel2
                              (one_point_trafo 2) (dofs1 3) (const_matrix 2 2 5)
                              0%nat 1%nat
  = CalcLinearizedElementMatrix trial_store half_square_energy fel2
                                (one_point_trafo 2) (dofs1 3) (const_matrix 2 2 5)
                                1%nat 0%nat.
Proof.
  apply (@linearized_matrix_symmetric
           trial_store half_square_energy fel2 (one_point_trafo 2) (dofs1 3)
           (const_matrix 2 2 5) half_square_seed_symmetric eq_refl).
Defined.
